(** * anatome: representation-similarity distances and Fourier perturbations

    A shallow embedding of [anatome/similarity.py] and [anatome/fourier.py].

    Conventions of the embedding.
    - Tensor entries are real numbers and arithmetic on them is exact.
    - A Python exception is the outcome [Raise e].  A call that returns
      normally but whose value holds [inf] or [nan] (a division by zero on
      tensors) is the outcome [NonFinite a]: only the shape of [a] is
      meaningful then.
    - The decompositions of torch and of [anatome/utils.py] (SVD, QR, matrix
      inverse, nuclear norm, FFT, pooling) are the fields of the class
      [LinearAlgebraPrimitives]; what is known of them is stated as a
      hypothesis where a theorem needs it. *)

From Stdlib Require Import Reals Lra Lia Psatz List String ZArith.
From stdpp Require Import base option list gmap.

Open Scope R_scope.

#[global] Instance R_eq_dec : EqDecision R := Req_dec_T.
#[global] Instance Rlt_decision (a b : R) : Decision (a < b) := Rlt_dec a b.
#[global] Instance Rle_decision (a b : R) : Decision (a <= b) := Rle_dec a b.

(* ================================================================== *)
(** * Outcomes of a call *)
(* ================================================================== *)

Inductive exn : Set :=
  | ValueError
  | RuntimeError
  | AssertionError
  | ZeroDivisionError
  | IndexError
  | KeyError
  | RuntimeWarning.

Inductive result (A : Type) : Type :=
  | Ok (a : A)
  | NonFinite (a : A)
  | Raise (e : exn).

Arguments Ok {A} a.
Arguments NonFinite {A} a.
Arguments Raise {A} e.

#[global] Instance result_ret : MRet result := fun A a => Ok a.

#[global] Instance result_bind : MBind result := fun A B f r =>
  match r with
  | Ok a => f a
  | NonFinite a =>
      match f a with
      | Ok b => NonFinite b
      | r' => r'
      end
  | Raise e => Raise e
  end.

(** A component of a returned tuple that holds [inf] or [nan] does not taint
    the other components: [detach] keeps the finiteness of a component
    inside the tuple. An exception still propagates. *)
Definition detach {A} (r : result A) : result (result A) :=
  match r with
  | Raise e => Raise e
  | r' => Ok r'
  end.

(** [assert cond] of Python. *)
Definition py_assert (cond : bool) : result unit :=
  if cond then Ok tt else Raise AssertionError.

(** Value of a Python call that may fall off the end of the function. *)
Inductive pyval : Type :=
  | PyNone
  | PyFloat (r : R).

(* ================================================================== *)
(** * Tensors *)
(* ================================================================== *)

(** A tensor of any rank: its shape and its entries in row-major order. *)
Record Tensor (A : Type) : Type := mkTensor {
  shape : list nat;
  data : list A
}.

Arguments mkTensor {A} shape data.
Arguments shape {A} t.
Arguments data {A} t.

Definition numel (sh : list nat) : nat := fold_right Nat.mul 1%nat sh.

Definition well_formed {A} (t : Tensor A) : Prop :=
  length (data t) = numel (shape t).

(** [t.dim()] *)
Definition dim {A} (t : Tensor A) : nat := length (shape t).

(** A Python index into a sequence of length [n]: negative indices count from
    the end. *)
Definition wrap_index (n : nat) (i : Z) : result nat :=
  if decide (0 <= i < Z.of_nat n)%Z then Ok (Z.to_nat i)
  else if decide (- Z.of_nat n <= i < 0)%Z then Ok (Z.to_nat (i + Z.of_nat n))
  else Raise IndexError.

(** [t.size(d)] *)
Definition size {A} (t : Tensor A) (d : Z) : result nat :=
  i ← wrap_index (dim t) d;
  Ok (nth i (shape t) 0%nat).

(** [torch.cat([a, b], dim=0)]: the shapes must agree except in dimension 0;
    a 1-D empty tensor is skipped. *)
Definition cat0 {A} (a b : Tensor A) : result (Tensor A) :=
  if decide (shape a = [0%nat]) then Ok b
  else if decide (shape b = [0%nat]) then Ok a
  else
    match shape a, shape b with
    | na :: ra, nb :: rb =>
        if decide (ra = rb)
        then Ok (mkTensor ((na + nb)%nat :: ra) (data a ++ data b))
        else Raise RuntimeError
    | _, _ => Raise RuntimeError
    end.

(* ================================================================== *)
(** * Matrices and vectors *)
(* ================================================================== *)

(** A rank-2 tensor of shape N x D (data points by neurons), row-major. *)
Record Matrix : Type := mkMatrix {
  nrows : nat;
  ncols : nat;
  entries : list R
}.

(** A rank-1 tensor. *)
Definition Vector : Type := list R.

Definition wf_matrix (m : Matrix) : Prop :=
  length (entries m) = (nrows m * ncols m)%nat.

Definition mget (m : Matrix) (i j : nat) : R :=
  nth (i * ncols m + j) (entries m) 0.

Definition vget (v : Vector) (i : nat) : R := nth i v 0.

Fixpoint sum_n (n : nat) (f : nat -> R) : R :=
  match n with
  | O => 0
  | S k => sum_n k f + f k
  end.

Definition mk_vec (n : nat) (f : nat -> R) : Vector := map f (seq 0 n).

Definition mk_mat (n d : nat) (f : nat -> nat -> R) : Matrix :=
  mkMatrix n d (flat_map (fun i => map (f i) (seq 0 d)) (seq 0 n)).

(** [v.sum()] *)
Definition vsum (v : Vector) : R := sum_n (length v) (vget v).

(** [x.t()] *)
Definition transpose (m : Matrix) : Matrix :=
  mk_mat (ncols m) (nrows m) (fun i j => mget m j i).

(** [a @ b] on matrices. *)
Definition matmul (a b : Matrix) : result Matrix :=
  if decide (ncols a = nrows b)
  then Ok (mk_mat (nrows a) (ncols b)
             (fun i j => sum_n (ncols a) (fun k => mget a i k * mget b k j)))
  else Raise RuntimeError.

(** [u @ v] on vectors. *)
Definition dot (u v : Vector) : result R :=
  if decide (length u = length v)
  then Ok (sum_n (length u) (fun k => vget u k * vget v k))
  else Raise RuntimeError.

(** [torch.eye(n)] *)
Definition eye (n : nat) : Matrix :=
  mk_mat n n (fun i j => if decide (i = j) then 1 else 0).

(** [t / c] for a tensor [t] and a scalar [c]: every entry of the quotient is
    [inf] or [nan] when [c] is zero. *)
Definition tdiv (a c : R) : result R :=
  if decide (c = 0) then NonFinite (a / c) else Ok (a / c).

Definition vdiv (v : Vector) (c : R) : result Vector :=
  let q := map (fun a => a / c) v in
  match v with
  | [] => Ok q
  | _ => if decide (c = 0) then NonFinite q else Ok q
  end.

Definition mdiv (m : Matrix) (c : R) : result Matrix :=
  let q := mkMatrix (nrows m) (ncols m) (map (fun a => a / c) (entries m)) in
  match entries m with
  | [] => Ok q
  | _ => if decide (c = 0) then NonFinite q else Ok q
  end.

(** [s.reciprocal_()] *)
Definition reciprocal (v : Vector) : result Vector :=
  let q := map Rinv v in
  if decide (Exists (fun a => a = 0) v) then NonFinite q else Ok q.

(** [v * s.unsqueeze(0)]: column [j] of [v] is scaled by [s[j]], with the
    broadcasting of torch. *)
Definition scale_cols (v : Matrix) (s : Vector) : result Matrix :=
  if decide (ncols v = length s)
  then Ok (mk_mat (nrows v) (ncols v) (fun i j => mget v i j * vget s j))
  else if decide (length s = 1%nat)
  then Ok (mk_mat (nrows v) (ncols v) (fun i j => mget v i j * vget s 0))
  else if decide (ncols v = 1%nat)
  then Ok (mk_mat (nrows v) (length s) (fun i j => mget v i 0 * vget s j))
  else Raise RuntimeError.

(** [m[:, :num]] *)
Definition take_cols (m : Matrix) (num : nat) : Matrix :=
  mk_mat (nrows m) (Nat.min num (ncols m)) (fun i j => mget m i j).

(** [m.norm('fro')] *)
Definition frobenius (m : Matrix) : R :=
  sqrt (sum_n (nrows m) (fun i => sum_n (ncols m) (fun j => mget m i j * mget m i j))).

(** [v.cumsum(dim=0)] *)
Definition cumsum (v : Vector) : Vector :=
  mk_vec (length v) (fun i => sum_n (S i) (vget v)).

(** A dimension argument of a matrix method: 0 and -2 are the rows, 1 and -1
    the columns. *)
Definition matrix_axis (d : Z) : result nat := wrap_index 2 d.

(* ================================================================== *)
(** * similarity.py *)
(* ================================================================== *)

Open Scope string_scope.

(** Modelled from the spec: the decompositions that [similarity.py] imports
    from [anatome/utils.py] ([_svd], and [_rfft], [_irfft] behind
    [dft_downsample]) and takes from torch ([torch.linalg.qr],
    [Tensor.inverse], the nuclear norm of [torch.linalg.norm],
    [F.adaptive_avg_pool2d]).  The spec names them LinearAlgebraPrimitives, an
    external substrate of which only the contract is used. *)
Class LinearAlgebraPrimitives : Type := {
  (** [_svd(x)]: the thin decomposition [(u, s, v)] with [x = u diag(s) v^T]. *)
  _svd : Matrix -> result (Matrix * Vector * Matrix);
  (** [torch.linalg.qr(x)] *)
  linalg_qr : Matrix -> result (Matrix * Matrix);
  (** [r.inverse()]: raises on a singular matrix. *)
  inverse : Matrix -> result Matrix;
  (** [torch.linalg.norm(m, ord="nuc")] *)
  nuclear_norm : Matrix -> result R;
  (** [F.adaptive_avg_pool2d(input, (size, size))] *)
  adaptive_avg_pool2d : Tensor R -> nat -> result (Tensor R);
  (** Truncation of the 2-D spectrum of [input] to the [size] lowest
      frequencies: [_rfft], the mask on [fftfreq], [_irfft]. *)
  dft_downsample : Tensor R -> nat -> result (Tensor R)
}.

Definition _check_shape_equal (x y : Matrix) (dim : Z) : result unit :=
  ax ← matrix_axis dim;
  let sz (m : Matrix) := match ax with O => nrows m | _ => ncols m end in
  if decide (sz x = sz y) then Ok tt else Raise ValueError.

Definition _zero_mean (input : Matrix) (dim : Z) : result Matrix :=
  ax ← matrix_axis dim;
  Ok (mk_mat (nrows input) (ncols input) (fun i j =>
        match ax with
        | O => mget input i j
               - sum_n (nrows input) (fun k => mget input k j) / INR (nrows input)
        | _ => mget input i j
               - sum_n (ncols input) (fun k => mget input i k) / INR (ncols input)
        end)).

Definition _matrix_normalize (input : Matrix) (dim : Z) : result Matrix :=
  X_centered ← _zero_mean input dim;
  mdiv X_centered (frobenius X_centered).

Section Similarity.
Context `{LinearAlgebraPrimitives}.

Definition cca_by_svd (x y : Matrix)
  : result (result Matrix * result Matrix * Vector) :=
  '(u_1, s_1, v_1) ← _svd x;
  '(u_2, s_2, v_2) ← _svd y;
  uu ← matmul (transpose u_1) u_2;
  '(u, diag, v) ← _svd uu;
  a ← detach (r ← reciprocal s_1; vs ← scale_cols v_1 r; matmul vs u);
  b ← detach (r ← reciprocal s_2; vs ← scale_cols v_2 r; matmul vs v);
  Ok (a, b, diag).

Definition cca_by_qr (x y : Matrix)
  : result (result Matrix * result Matrix * Vector) :=
  '(q_1, r_1) ← linalg_qr x;
  '(q_2, r_2) ← linalg_qr y;
  qq ← matmul (transpose q_1) q_2;
  '(u, diag, v) ← _svd qq;
  a ← detach (ri ← inverse r_1; matmul ri u);
  b ← detach (ri ← inverse r_2; matmul ri v);
  Ok (a, b, diag).

(** The condition under which [cca] logs its warning (it is reached only
    when the assertion on the row counts holds). *)
Definition cca_warns (x y : Matrix) : bool :=
  bool_decide (nrows x = nrows y)
  && (bool_decide (nrows x < ncols x)%nat || bool_decide (nrows y < ncols y)%nat).

Definition cca (x y : Matrix) (backend : string)
  : result (result Matrix * result Matrix * Vector) :=
  _ ← py_assert (bool_decide (nrows x = nrows y));
  if negb (bool_decide (backend = "svd") || bool_decide (backend = "qr"))
  then Raise ValueError
  else
    x ← _zero_mean x 0;
    y ← _zero_mean y 0;
    if bool_decide (backend = "svd") then cca_by_svd x y else cca_by_qr x y.

(** [num] of [_svd_reduction]: the number of entries of [ratio] that are
    below [accept_rate]; [ratio] is [nan] throughout when [full] is zero, and
    no comparison with [nan] holds. *)
Definition _svd_reduction_num (diag : Vector) (accept_rate : R) : nat :=
  let full := vsum (map Rabs diag) in
  if decide (full = 0) then 0%nat
  else
    let ratio := map (fun c => c / full) (cumsum (map Rabs diag)) in
    length (filter (fun r => r < accept_rate) ratio).

Definition _svd_reduction (input : Matrix) (accept_rate : R) : result Matrix :=
  '(left_, diag, right_) ← _svd input;
  let num := _svd_reduction_num diag accept_rate in
  matmul input (take_cols right_ num).

Definition svcca_distance (x y : Matrix) (accept_rate : R) (backend : string)
  : result R :=
  x ← _svd_reduction x accept_rate;
  y ← _svd_reduction y accept_rate;
  let div := Nat.min (ncols x) (ncols y) in
  '(a, b, diag) ← cca x y backend;
  q ← tdiv (vsum diag) (INR div);
  Ok (1 - q).

Definition pwcca_distance (x y : Matrix) (backend : string) : result R :=
  '(a, b, diag) ← cca x y backend;
  a ← a;
  xa ← matmul x a;
  let alpha := mk_vec (ncols xa)
                 (fun j => sum_n (nrows xa) (fun i => Rabs (mget xa i j))) in
  alpha ← vdiv alpha (vsum alpha);
  d ← dot alpha diag;
  Ok (1 - d).

(** [a / b] on Python numbers. *)
Definition py_div (a b : R) : result R :=
  if decide (b = 0) then Raise ZeroDivisionError else Ok (a / b).

Definition _debiased_dot_product_similarity
    (z : R) (sum_row_x sum_row_y : Vector) (sq_norm_x sq_norm_y : R) (size : Z)
  : result R :=
  c ← py_div (IZR size) (IZR (size - 2));
  d ← dot sum_row_x sum_row_y;
  q ← tdiv (sq_norm_x * sq_norm_y) (IZR ((size - 1) * (size - 2)));
  Ok (z - c * d + q).

(** [torch.einsum('ij,ij->i', x, x)] *)
Definition einsum_row_sq (x : Matrix) : Vector :=
  mk_vec (nrows x) (fun i => sum_n (ncols x) (fun j => mget x i j * mget x i j)).

Definition linear_cka_distance (x y : Matrix) (reduce_bias : bool) : result R :=
  x ← _zero_mean x 0;
  y ← _zero_mean y 0;
  if decide (nrows x <> nrows y) then Raise ValueError
  else
    yx ← matmul (transpose y) x;
    let dot_prod := (frobenius yx) ^ 2 in
    xx ← matmul (transpose x) x;
    let norm_x := frobenius xx in
    yy ← matmul (transpose y) y;
    let norm_y := frobenius yy in
    if reduce_bias then
      let size := Z.of_nat (nrows x) in
      let sum_row_x := einsum_row_sq x in
      let sum_row_y := einsum_row_sq y in
      let sq_norm_x := vsum sum_row_x in
      let sq_norm_y := vsum sum_row_y in
      dot_prod ← _debiased_dot_product_similarity
                   dot_prod sum_row_x sum_row_y sq_norm_x sq_norm_y size;
      norm_x ← _debiased_dot_product_similarity
                 (norm_x ^ 2) sum_row_x sum_row_y sq_norm_x sq_norm_y size;
      norm_y ← _debiased_dot_product_similarity
                 (norm_y ^ 2) sum_row_x sum_row_y sq_norm_x sq_norm_y size;
      q ← tdiv dot_prod (norm_x * norm_y);
      Ok (1 - q)
    else
      q ← tdiv dot_prod (norm_x * norm_y);
      Ok (1 - q).

Definition orthogonal_procrustes_distance (x y : Matrix) : result R :=
  x ← _matrix_normalize x 0;
  y ← _matrix_normalize y 0;
  m ← matmul (transpose x) y;
  n ← nuclear_norm m;
  Ok (1 - n).

End Similarity.

(* ------------------------------------------------------------------ *)
(** ** SimilarityHook *)
(* ------------------------------------------------------------------ *)

Inductive Device : Set :=
  | Cpu
  | Cuda (index : nat).

(** What the hook uses of a model: whether it is wrapped in [nn.DataParallel]
    or [DistributedDataParallel], and the names of [model.named_modules()]. *)
Record Model : Type := mkModel {
  is_data_parallel : bool;
  named_modules : list string
}.

(** The argument [cca_distance] of the constructor: [None], a name, or a
    function. *)
Inductive cca_distance_arg : Type :=
  | DistanceNone
  | DistanceName (s : string)
  | DistanceCallable (f : Matrix -> Matrix -> result R).

Record SimilarityHook : Type := mkSimilarityHook {
  name : string;
  cca_function : Matrix -> Matrix -> result R;
  force_cpu : bool;
  device : option Device;
  _hooked_tensors : option (Tensor R)
}.

Definition set_device (self : SimilarityHook) (d : option Device) : SimilarityHook :=
  mkSimilarityHook (name self) (cca_function self) (force_cpu self) d
    (_hooked_tensors self).

Definition set_hooked_tensors (self : SimilarityHook) (t : option (Tensor R))
  : SimilarityHook :=
  mkSimilarityHook (name self) (cca_function self) (force_cpu self) (device self) t.

Definition _supported_dim : list nat := [2%nat; 4%nat].

(** [t.flatten(2)] followed by [unbind()]: a tensor of shape [M, C, ...] as
    the list of its [M] matrices of shape [C, prod(...)]. *)
Definition flatten2_unbind (t : Tensor R) : list Matrix :=
  match shape t with
  | m :: c :: rest =>
      let k := numel rest in
      map (mkMatrix c k) (reshape (replicate m (c * k)%nat) (data t))
  | _ => []
  end.

(** [input.flatten(2).permute(2, 0, 1)] followed by [unbind()]: a tensor of
    shape [B, C, H, W] as the list of its [H*W] matrices of shape [B, C]. *)
Definition flatten2_permute_unbind (t : Tensor R) : list Matrix :=
  match shape t with
  | b :: c :: rest =>
      let k := numel rest in
      map (fun p => mk_mat b c (fun i j => nth ((i * c + j) * k + p) (data t) 0))
          (seq 0 k)
  | _ => []
  end.

(** [torch.stack(ds).mean()]: [stack] raises on an empty list. *)
Definition stack_mean (ds : list R) : result R :=
  match ds with
  | [] => Raise RuntimeError
  | _ => Ok (vsum ds / INR (length ds))
  end.

(** [[f(s, o) for s, o in zip(ss, os)]] *)
Fixpoint zip_with_result {A B C} (f : A -> B -> result C)
    (ss : list A) (os : list B) : result (list C) :=
  match ss, os with
  | s :: ss', o :: os' =>
      d ← f s o;
      ds ← zip_with_result f ss' os';
      Ok (d :: ds)
  | _, _ => Ok []
  end.

(** A rank-2 buffer as a matrix. *)
Definition as_matrix (t : Tensor R) : Matrix :=
  mkMatrix (nth 0 (shape t) 0%nat) (nth 1 (shape t) 0%nat) (data t).

Section Hook.
Context `{LinearAlgebraPrimitives}.

Definition _default_backends : list (string * (Matrix -> Matrix -> result R)) :=
  [ ("pwcca", fun x y => pwcca_distance x y "svd");
    ("svcca", fun x y => svcca_distance x y (99 / 100) "svd");
    ("lincka", fun x y => linear_cka_distance x y false);
    ("opd", orthogonal_procrustes_distance) ].

Fixpoint dict_get {V} (d : list (string * V)) (k : string) : result V :=
  match d with
  | [] => Raise KeyError
  | (k', v) :: d' => if decide (k = k') then Ok v else dict_get d' k
  end.

(** [SimilarityHook.__init__]: the buffer is absent when the hook is
    attached. *)
Definition __init__ (model : Model) (name : string)
    (cca_distance : cca_distance_arg) (force_cpu : bool) : result SimilarityHook :=
  if is_data_parallel model then Raise RuntimeWarning
  else if negb (bool_decide (name ∈ named_modules model)) then Raise KeyError
  else
    f ← match cca_distance with
        | DistanceNone => dict_get _default_backends "pwcca"
        | DistanceName s =>
            dict_get _default_backends (if decide (s = "") then "pwcca" else s)
        | DistanceCallable f => Ok f
        end;
    Ok (mkSimilarityHook name f force_cpu None None).

(** The forward hook registered by [_register_hook], called with the output
    of the layer after each forward pass. The state after the call is
    returned also when the call raises. *)
Definition hook (self : SimilarityHook) (output : Tensor R) (output_device : Device)
  : SimilarityHook * result unit :=
  if negb (bool_decide (dim output ∈ _supported_dim))
  then (self, Raise RuntimeError)
  else
    let self := set_device self (Some output_device) in
    match _hooked_tensors self with
    | None => (set_hooked_tensors self (Some output), Ok tt)
    | Some buffer =>
        match cat0 buffer output with
        | Ok t | NonFinite t => (set_hooked_tensors self (Some t), Ok tt)
        | Raise e => (self, Raise e)
        end
    end.

Definition clear (self : SimilarityHook) : SimilarityHook :=
  set_hooked_tensors self None.

Definition hooked_tensors (self : SimilarityHook) : result (Tensor R) :=
  match _hooked_tensors self with
  | None => Raise RuntimeError
  | Some t => Ok t
  end.

Fixpoint create_hooks (model : Model) (names : list string)
    (cca_distance : cca_distance_arg) (force_cpu : bool)
  : result (list SimilarityHook) :=
  match names with
  | [] => Ok []
  | name :: names' =>
      h ← __init__ model name cca_distance force_cpu;
      hs ← create_hooks model names' cca_distance force_cpu;
      Ok (h :: hs)
  end.

(** The comparison [(size, size) > (h, w)] of Python tuples. *)
Definition pair_gt (a b c d : nat) : bool :=
  bool_decide (c < a)%nat || (bool_decide (a = c) && bool_decide (d < b)%nat).

Definition _downsample_4d (input : Tensor R) (size : nat) (backend : string)
  : result (list Matrix) :=
  match shape input with
  | [b; c; h; w] =>
      if bool_decide (size = h) && bool_decide (size = w)
      then Ok (flatten2_permute_unbind input)
      else if pair_gt size size h w then Raise RuntimeError
      else if negb (bool_decide (backend = "avg_pool") || bool_decide (backend = "dft"))
      then Raise RuntimeError
      else if bool_decide (backend = "avg_pool")
      then input ← adaptive_avg_pool2d input size;
           Ok (flatten2_permute_unbind input)
      else if negb (bool_decide (h = w)) then Raise RuntimeError
      else input ← dft_downsample input size;
           Ok (flatten2_permute_unbind input)
  | _ => Raise RuntimeError
  end.

Definition distance_cnn_original_anatome (self : SimilarityHook)
    (size : option nat) (downsample_method : option string)
    (self_tensor other_tensor : Tensor R) : result R :=
  '(ss, os) ←
    match size with
    | None => Ok (flatten2_unbind self_tensor, flatten2_unbind other_tensor)
    | Some size =>
        let downsample_method :=
          match downsample_method with
          | None => "avg_pool"
          | Some m => if decide (m = "") then "avg_pool" else m
          end in
        ss ← _downsample_4d self_tensor size downsample_method;
        os ← _downsample_4d other_tensor size downsample_method;
        Ok (ss, os)
    end;
  ds ← zip_with_result (cca_function self) ss os;
  stack_mean ds.

Definition distance (self other : SimilarityHook)
    (downsample_method : option string) (size_ : option nat)
    (effecive_neuron_type : string) : result pyval :=
  self_tensor ← hooked_tensors self;
  other_tensor ← hooked_tensors other;
  n_self ← size self_tensor 0;
  n_other ← size other_tensor 0;
  if decide (n_self <> n_other) then Raise RuntimeError
  else if decide (dim self_tensor <> dim other_tensor) then Raise RuntimeError
  else if decide (dim self_tensor = 2%nat)
  then d ← cca_function self (as_matrix self_tensor) (as_matrix other_tensor);
       Ok (PyFloat d)
  else if decide (effecive_neuron_type = "filter") then Ok PyNone
  else if decide (effecive_neuron_type = "activation") then Raise AssertionError
  else if decide (effecive_neuron_type = "original_anatome")
  then d ← distance_cnn_original_anatome self size_ downsample_method
             self_tensor other_tensor;
       Ok (PyFloat d)
  else Raise ValueError.

End Hook.

(* ================================================================== *)
(** * fourier.py *)
(* ================================================================== *)

(** [torch.roll(t, shift, d)] along one dimension: entry [i] of the result
    along [d] is entry [(i - shift) mod n] of [t]. In row-major order every
    block of [n * inner] entries is rotated to the right by
    [(shift mod n) * inner]. *)
Definition roll1 {A} (t : Tensor A) (shift : Z) (d : nat) : Tensor A :=
  let n := nth d (shape t) 0%nat in
  let inner := numel (drop (S d) (shape t)) in
  let outer := numel (take d (shape t)) in
  let k := ((n - Z.to_nat (shift mod Z.of_nat n)) * inner)%nat in
  mkTensor (shape t)
    (concat (map (rotate k) (reshape (replicate outer (n * inner)%nat) (data t)))).

(** [torch.roll(t, shift, d)] for one shift and one axis: a tensor without
    entries is returned as it is, before the axis is looked at. *)
Definition roll_one {A} (t : Tensor A) (shift d : Z) : result (Tensor A) :=
  if decide (numel (shape t) = 0%nat) then Ok t
  else i ← wrap_index (dim t) d;
       Ok (roll1 t shift i).

(** The axes are rolled one after the other, the first one first. *)
Fixpoint roll_each {A} (t : Tensor A) (shifts dims : list Z) : result (Tensor A) :=
  match shifts, dims with
  | s :: shifts', d :: dims' =>
      t ← roll_one t s d;
      roll_each t shifts' dims'
  | _, _ => Ok t
  end.

(** [torch.roll(t, shifts, dims)]: [RuntimeError] without any shift; one
    shift and no axis rolls the flattened tensor; otherwise there must be
    as many shifts as axes. *)
Definition roll {A} (t : Tensor A) (shifts dims : list Z) : result (Tensor A) :=
  match shifts, dims with
  | [], _ => Raise RuntimeError
  | [s], [] =>
      flat ← roll_one (mkTensor [numel (shape t)] (data t)) s 0;
      Ok (mkTensor (shape t) (data flat))
  | _, _ =>
      if decide (length shifts = length dims) then roll_each t shifts dims
      else Raise RuntimeError
  end.

(** [range(lo, hi)] *)
Definition py_range (lo hi : nat) : list Z :=
  map Z.of_nat (seq lo (hi - lo)).

(** [[f(input.size(dim)) for dim in dims]] *)
Fixpoint sizes_along {A} (input : Tensor A) (f : Z -> Z) (dims : list Z)
  : result (list Z) :=
  match dims with
  | [] => Ok []
  | d :: dims' =>
      n ← size input d;
      ss ← sizes_along input f dims';
      Ok (f (Z.of_nat n) :: ss)
  end.

Definition fft_shift {A} (input : Tensor A) (dims : option (list Z))
  : result (Tensor A) :=
  let dims :=
    match dims with
    | None => py_range (if decide (dim input = 4%nat) then 1 else 2) (dim input - 1)
    | Some ds => ds
    end in
  shift ← sizes_along input (fun n => n / 2)%Z dims;
  roll input shift dims.

(** The default axes of [ifft_shift] are
    [range(input.dim() - 2, 0 if input.dim() == 4 else 1, -1)], and the shift
    is [-input.size(dim) // 2], which Python reads as [(-size) // 2]. *)
Definition ifft_shift {A} (input : Tensor A) (dims : option (list Z))
  : result (Tensor A) :=
  let dims :=
    match dims with
    | None =>
        rev (py_range (S (if decide (dim input = 4%nat) then 0 else 1))
               (dim input - 1))
    | Some ds => ds
    end in
  shift ← sizes_along input (fun n => (- n) / 2)%Z dims;
  roll input shift dims.

(** [fftfreq(window_length, sample_spacing)] of [fourier.py]. *)
Definition fftfreq (window_length : nat) (sample_spacing : R) : result Vector :=
  val ← py_div 1 (INR window_length * sample_spacing);
  let n := ((window_length - 1) / 2 + 1)%nat in
  Ok (map (fun k : nat =>
             (if decide (k < n)%nat then INR k
              else IZR (Z.of_nat k - Z.of_nat window_length)) * val)
          (seq 0 window_length)).

(* ------------------------------------------------------------------ *)
(** ** add_fourier_noise: tensors in a store *)
(* ------------------------------------------------------------------ *)

(** The transforms [add_fourier_noise] takes from torch. *)
Class FourierPrimitives : Type := {
  (** [t.irfft(2, normalized=True, onesided=False)] *)
  irfft : Tensor R -> result (Tensor R);
  (** [F.interpolate(t, size)] *)
  interpolate : Tensor R -> list nat -> result (Tensor R)
}.

(** Tensors are objects: a variable holds a reference into the store, and the
    in-place methods ([add_], [clamp_], [div_], [mul_], item assignment)
    update the object the reference points to. *)
Abbreviation ref := positive (only parsing).
Abbreviation store := (gmap positive (Tensor R)) (only parsing).

(** Allocation of a new tensor object. *)
Definition alloc (st : store) (t : Tensor R) : ref * store :=
  let l := fresh (dom st) in (l, <[l := t]> st).

(** Row-major position of a multi-index, and back. *)
Fixpoint ravel (sh idx : list nat) : nat :=
  match sh, idx with
  | n :: sh', k :: idx' => (k * numel sh' + ravel sh' idx')%nat
  | _, _ => 0%nat
  end.

Fixpoint unravel (sh : list nat) (i : nat) : list nat :=
  match sh with
  | [] => []
  | n :: sh' => ((i / numel sh') mod n)%nat :: unravel sh' i
  end.

(** The in-place operand [src] seen at the shape [tgt]: dimensions are
    aligned from the right and a dimension of extent 1 is repeated. *)
Definition broadcast_to (src : Tensor R) (tgt : list nat) : result (list R) :=
  let pad := (replicate (length tgt - length (shape src)) 1%nat ++ shape src)%list in
  if bool_decide (length (shape src) <= length tgt)%nat
     && forallb (fun '(s, t) => bool_decide (s = 1%nat) || bool_decide (s = t))
                (zip pad tgt)
  then Ok (map (fun i =>
                  nth (ravel pad (zip_with (fun s m => if decide (s = 1%nat) then 0%nat else m)
                                    pad (unravel tgt i)))
                      (data src) 0)
               (seq 0 (numel tgt)))
  else Raise RuntimeError.

(** [t.norm(p=2)] *)
Definition norm2 (t : Tensor R) : R :=
  sqrt (fold_right (fun a s => a * a + s) 0 (data t)).

(** [v.clamp(0, 1)] on one entry. *)
Definition clamp01 (v : R) : R := Rmin (Rmax v 0) 1.

(** [noise[:, i, j] = 1] on a tensor of shape [1, h, w, 2]. *)
Definition set_frequency (noise : Tensor R) (h w : nat) (i j : Z)
  : result (Tensor R) :=
  i ← wrap_index h i;
  j ← wrap_index w j;
  let p := ((i * w + j) * 2)%nat in
  Ok (mkTensor (shape noise) (<[S p := 1]> (<[p := 1]> (data noise)))).

Section Fourier.
Context `{FourierPrimitives}.

Definition add_fourier_noise (idx : Z * Z) (images : ref) (norm : R)
    (size_ : option (nat * nat)) (st : store) : store * result ref :=
  match st !! images with
  | None => (st, Raise RuntimeError)
  | Some original =>
      (* images = images.clone() *)
      let '(images, st) := alloc st original in
      let body : result (Tensor R) :=
        '(h, w) ←
          match size_ with
          | None =>
              match shape original with
              | [_; _; h; w] => Ok (h, w)
              | _ => Raise ValueError
              end
          | Some hw => Ok hw
          end;
        let noise := mkTensor [1%nat; h; w; 2%nat] (replicate (h * w * 2) 0) in
        noise ← set_frequency noise h w (idx.1) (idx.2);
        noise ← set_frequency noise h w
                  (Z.of_nat h - 1 - idx.1) (Z.of_nat w - 1 - idx.2);
        shifted ← ifft_shift noise None;
        recon ← irfft shifted;
        let recon := mkTensor (1%nat :: shape recon) (data recon) in
        d ← vdiv (data recon) (norm2 recon);
        let recon := mkTensor (shape recon) (map (fun a => a * norm) d) in
        recon ←
          match size_ with
          | None => Ok recon
          | Some _ => interpolate recon (drop 2 (shape original))
          end;
        r ← broadcast_to recon (shape original);
        Ok (mkTensor (shape original)
              (map clamp01 (zip_with Rplus (data original) r)))
      in
      match body with
      | Ok t => (<[images := t]> st, Ok images)
      | NonFinite t => (<[images := t]> st, NonFinite images)
      | Raise e => (st, Raise e)
      end
  end.

End Fourier.

(* ------------------------------------------------------------------ *)
(** ** The operations on a hook *)
(* ------------------------------------------------------------------ *)

(** What a caller can do with an attached hook: run the model (the forward
    hook fires with the output of the layer), clear the buffer, read it, and
    ask for a distance. *)
Inductive hook_op : Type :=
  | OpForward (output : Tensor R) (output_device : Device)
  | OpClear
  | OpHookedTensors
  | OpDistance (other : SimilarityHook) (downsample_method : option string)
      (size_ : option nat) (effecive_neuron_type : string).

Section HookOps.
Context `{LinearAlgebraPrimitives}.

(** The state of the hook after an operation; [hooked_tensors] and [distance]
    assign no attribute. *)
Definition run_op (self : SimilarityHook) (op : hook_op) : SimilarityHook :=
  match op with
  | OpForward output d => (hook self output d).1
  | OpClear => clear self
  | OpHookedTensors => self
  | OpDistance _ _ _ _ => self
  end.

Definition run_ops (self : SimilarityHook) (ops : list hook_op) : SimilarityHook :=
  fold_left run_op ops self.

End HookOps.

(** The buffer holds a tensor of a supported rank. *)
Definition buffer_supported (self : SimilarityHook) : Prop :=
  match _hooked_tensors self with
  | None => True
  | Some t => dim t = 2%nat \/ dim t = 4%nat
  end.

(** Primitives every call of which fails: a result obtained with them owes
    nothing to a decomposition. *)
Definition failing_primitives : LinearAlgebraPrimitives := {|
  _svd := fun _ => Raise RuntimeError;
  linalg_qr := fun _ => Raise RuntimeError;
  inverse := fun _ => Raise RuntimeError;
  nuclear_norm := fun _ => Raise RuntimeError;
  adaptive_avg_pool2d := fun _ _ => Raise RuntimeError;
  dft_downsample := fun _ _ => Raise RuntimeError
|}.

(** The share of the singular-value mass (the sum of the absolute values of
    [diag]) that the first [k] directions hold. *)
Definition mass_share (diag : Vector) (k : nat) : R :=
  sum_n k (vget (map Rabs diag)) / vsum (map Rabs diag).

(** The wording of the spec for the number of retained directions: the
    smallest [k] whose share of the mass reaches [accept_rate]. *)
Definition smallest_reaching (diag : Vector) (accept_rate : R) (k : nat) : Prop :=
  accept_rate <= mass_share diag k
  /\ forall j, (j < k)%nat -> mass_share diag j < accept_rate.

(* ------------------------------------------------------------------ *)
(** ** The debiased linear CKA as the spec words it *)
(* ------------------------------------------------------------------ *)

Section DebiasedSpec.
Variables x y : Matrix.

Let n : nat := nrows x.
Let N : R := INR (nrows x).

(** Entries of the column-centered matrices. *)
Definition centered (m : Matrix) (i j : nat) : R :=
  mget m i j - sum_n (nrows m) (fun k => mget m k j) / INR (nrows m).

(** Per-row squared norms of the centered matrices. *)
Definition row_sums (m : Matrix) (i : nat) : R :=
  sum_n (ncols m) (fun j => centered m i j * centered m i j).

(** Squared Frobenius norm of [a^T b] for the centered [a] and [b]. *)
Definition gram_sq (a b : Matrix) : R :=
  sum_n (ncols a) (fun p => sum_n (ncols b) (fun q =>
    (sum_n n (fun i => centered a i p * centered b i q)) ^ 2)).

(** corrected(z) = z - N/(N-2) (row_sums_x . row_sums_y)
                   + (sum row_sums_x)(sum row_sums_y) / ((N-1)(N-2)) *)
Definition corrected (z : R) : R :=
  z - N / (N - 2) * sum_n n (fun i => row_sums x i * row_sums y i)
  + sum_n n (row_sums x) * sum_n n (row_sums y) / ((N - 1) * (N - 2)).

Definition debiased_cka_spec : R :=
  1 - corrected (gram_sq y x)
      / (corrected (gram_sq x x) * corrected (gram_sq y y)).

End DebiasedSpec.

(** A call that divided by zero: Python raised [ZeroDivisionError], or the
    value returned is [inf] or [nan]. *)
Definition divided_by_zero {A} (r : result A) : Prop :=
  r = Raise ZeroDivisionError \/ exists a, r = NonFinite a.

(* ------------------------------------------------------------------ *)
(** ** The contract of the decompositions *)
(* ------------------------------------------------------------------ *)

(** The columns of [u] are orthonormal. *)
Definition orthonormal_columns (u : Matrix) : Prop :=
  forall p q, (p < ncols u)%nat -> (q < ncols u)%nat ->
    sum_n (nrows u) (fun a => mget u a p * mget u a q)
    = if decide (p = q) then 1 else 0.

(** Modelled from the spec: [_svd] of [anatome/utils.py] is not among the
    sources; the spec gives its contract, the decomposition
    [m = u diag(s) v^T] of CCAEngine (section 4.1). [is_svd m u s v] is the
    thin singular value decomposition: [k = min(rows, columns)] singular
    values, not negative and in descending order, and orthonormal columns
    in [u] and [v]. *)
Definition is_svd (m u : Matrix) (s : Vector) (v : Matrix) : Prop :=
  let k := Nat.min (nrows m) (ncols m) in
  nrows u = nrows m /\ ncols u = k
  /\ length s = k
  /\ nrows v = ncols m /\ ncols v = k
  /\ orthonormal_columns u
  /\ orthonormal_columns v
  /\ (forall p, (p < k)%nat -> 0 <= vget s p)
  /\ (forall p q, (p <= q)%nat -> (q < k)%nat -> vget s q <= vget s p)
  /\ forall a b, (a < nrows m)%nat -> (b < ncols m)%nat ->
       mget m a b = sum_n k (fun p => mget u a p * vget s p * mget v b p).

(** Modelled from the spec: the nuclear norm of [torch.linalg.norm] is the
    sum of the singular values (section 4.5). *)
Definition is_nuclear_norm (m : Matrix) (r : R) : Prop :=
  exists u s v, is_svd m u s v /\ r = vsum s.

(** A square matrix [r] with [r^T r = r r^T = 1]. *)
Definition orthogonal (r : Matrix) : Prop :=
  nrows r = ncols r
  /\ orthonormal_columns r
  /\ orthonormal_columns (transpose r).

(** [x] is not zero after the centering of its columns. *)
Definition nonzero_centered (x : Matrix) : Prop :=
  exists i j, (i < nrows x)%nat /\ (j < ncols x)%nat /\ centered x i j <> 0.

(** The matrix whose nuclear norm [orthogonal_procrustes_distance] takes. *)
Definition normalized_cross (x y : Matrix) : result Matrix :=
  x ← _matrix_normalize x 0;
  y ← _matrix_normalize y 0;
  matmul (transpose x) y.

Section Contracts.
Context `{LinearAlgebraPrimitives}.

(** The nuclear norm returned for the matrix [m] is its nuclear norm. *)
Definition nuclear_norm_correct_at (m : result Matrix) : Prop :=
  forall m', m = Ok m' ->
    exists r, nuclear_norm m' = Ok r /\ is_nuclear_norm m' r.

(** The decomposition returned for the matrix [m] is a singular value
    decomposition of it. *)
Definition svd_correct_at (m : Matrix) : Prop :=
  exists u s v, _svd m = Ok (u, s, v) /\ is_svd m u s v.

(** The decompositions that [cca x y "svd"] asks for are singular value
    decompositions: those of the centered [x] and [y], and that of the cross
    product of their left factors. *)
Definition svd_correct_for_cca (x y : Matrix) : Prop :=
  forall xc yc, _zero_mean x 0 = Ok xc -> _zero_mean y 0 = Ok yc ->
    exists u1 s1 v1 u2 s2 v2,
      _svd xc = Ok (u1, s1, v1) /\ is_svd xc u1 s1 v1
      /\ _svd yc = Ok (u2, s2, v2) /\ is_svd yc u2 s2 v2
      /\ forall uu, matmul (transpose u1) u2 = Ok uu -> svd_correct_at uu.

End Contracts.

(** The squared Frobenius norm of the column-centered [x]. *)
Definition centered_norm_sq (x : Matrix) : R :=
  sum_n (nrows x) (fun i => sum_n (ncols x) (fun j => centered x i j * centered x i j)).

(** Primitives whose nuclear norm is the sum of the entries of a 2 x 2
    matrix. It is the sum of the singular values when the entries are not
    negative and each row and each column has at most one entry that is not
    zero. *)
Definition monomial_primitives : LinearAlgebraPrimitives := {|
  _svd := fun _ => Raise RuntimeError;
  linalg_qr := fun _ => Raise RuntimeError;
  inverse := fun _ => Raise RuntimeError;
  nuclear_norm := fun m => Ok (mget m 0 0 + mget m 0 1 + mget m 1 0 + mget m 1 1);
  adaptive_avg_pool2d := fun _ _ => Raise RuntimeError;
  dft_downsample := fun _ _ => Raise RuntimeError
|}.

(** Sample activations: six data points, two neurons; the columns have mean
    zero and the Frobenius norm is one. [sample_y] shares the first neuron
    of [sample_x]; [sample_xr] is [sample_x] with its neurons swapped by the
    orthogonal [sample_rot]. *)
Definition sample_x : Matrix :=
  mkMatrix 6 2 [1/2; 0; -1/2; 0; 0; 1/2; 0; -1/2; 0; 0; 0; 0].
Definition sample_y : Matrix :=
  mkMatrix 6 2 [1/2; 0; -1/2; 0; 0; 0; 0; 0; 0; 1/2; 0; -1/2].
Definition sample_rot : Matrix := mkMatrix 2 2 [0; 1; 1; 0].
Definition sample_xr : Matrix :=
  mkMatrix 6 2 [0; 1/2; 0; -1/2; 1/2; 0; -1/2; 0; 0; 0; 0; 0].

(** The weight that PWCCA gives to neuron [j] of [x] when the centered
    columns of [x] are orthogonal with norms [cx]: the sum of the absolute
    values of the column over its norm. *)
Definition column_weight (x : Matrix) (cx : nat -> R) (j : nat) : R :=
  sum_n (nrows x) (fun i => Rabs (mget x i j)) / cx j.

(* ------------------------------------------------------------------ *)
(** ** Activations on which PWCCA is not symmetric *)
(* ------------------------------------------------------------------ *)

(** Eight data points; [asym_x] has two neurons and [asym_y] three. The
    columns have mean zero and are orthogonal; the first neuron of [asym_y]
    is three times the first of [asym_x], and the second correlates with the
    second of [asym_x] by 3/5. *)
Definition asym_x : Matrix :=
  mkMatrix 8 2
    [ 2;  1;
      2; -1;
     -2;  1;
     -2; -1;
      0;  0;
      0;  0;
      0;  0;
      0;  0].

Definition asym_y : Matrix :=
  mkMatrix 8 3
    [ 6;  3;  0;
      6; -3;  0;
     -6;  3;  0;
     -6; -3;  0;
      0;  4;  1;
      0; -4; -1;
      0;  4; -1;
      0; -4;  1].

(** The norms of the columns of [asym_x] and of [asym_y], and the
    correlations of the aligned columns. *)
Definition asym_cx (j : nat) : R := match j with O => 4 | _ => 2 end.
Definition asym_cy (j : nat) : R :=
  match j with O => 12 | S O => 10 | _ => 2 end.
Definition asym_rho (j : nat) : R := match j with O => 1 | _ => 3 / 5 end.

(** The factors of the decompositions that CCA asks for on [asym_x] and
    [asym_y]. *)
Definition asym_u1 : Matrix :=
  mkMatrix 8 2
    [ 1/2;  1/2;
      1/2; -1/2;
     -1/2;  1/2;
     -1/2; -1/2;
      0; 0;  0; 0;  0; 0;  0; 0].

Definition asym_u2 : Matrix :=
  mkMatrix 8 3
    [ 1/2;  3/10;  0;
      1/2; -3/10;  0;
     -1/2;  3/10;  0;
     -1/2; -3/10;  0;
      0;  4/10;  1/2;
      0; -4/10; -1/2;
      0;  4/10; -1/2;
      0; -4/10;  1/2].

Definition asym_e32 : Matrix := mkMatrix 3 2 [1; 0; 0; 1; 0; 0].

(** Primitives whose [_svd] answers by the shape of its argument: the
    decompositions of the centered [asym_x] and [asym_y] and of the cross
    products of their left factors. *)
Definition asym_primitives : LinearAlgebraPrimitives := {|
  _svd := fun m =>
    match nrows m, ncols m with
    | 8%nat, 2%nat => Ok (asym_u1, [4; 2], eye 2)
    | 8%nat, 3%nat => Ok (asym_u2, [12; 10; 2], eye 3)
    | 2%nat, 3%nat => Ok (eye 2, [1; 3 / 5], asym_e32)
    | 3%nat, 2%nat => Ok (asym_e32, [1; 3 / 5], eye 2)
    | _, _ => Raise RuntimeError
    end;
  linalg_qr := fun _ => Raise RuntimeError;
  inverse := fun _ => Raise RuntimeError;
  nuclear_norm := fun _ => Raise RuntimeError;
  adaptive_avg_pool2d := fun _ _ => Raise RuntimeError;
  dft_downsample := fun _ _ => Raise RuntimeError
|}.

(** Transforms for a single pixel: the normalized inverse transform of a
    1 x 1 spectrum is the spectrum itself, of which the real part is kept;
    no interpolation is needed. *)
Definition single_pixel_primitives : FourierPrimitives := {|
  irfft := fun t =>
    Ok (mkTensor (take 3 (shape t))
          (map (fun k => nth (2 * k) (data t) 0) (seq 0 (length (data t) / 2))));
  interpolate := fun t _ => Ok t
|}.

Definition sample_image : Tensor R := mkTensor [1; 1; 1; 1]%nat [1 / 2].

(* ------------------------------------------------------------------ *)
(** ** The per-data-point distances of similarity.py *)
(* ------------------------------------------------------------------ *)

(** [t.unbind()] on a tensor of shape [M, F, HW]: its [M] matrices of shape
    [F, HW]. The slices are handed to the distance function of the hook,
    which takes matrices: the two functions below are modelled on tensors of
    rank 3, the flattened convolution outputs their docstring asks for. *)
Definition unbind3 (t : Tensor R) : list Matrix :=
  match shape t with
  | [m; f; hw] => map (mkMatrix f hw) (reshape (replicate m (f * hw)%nat) (data t))
  | _ => []
  end.

(** [tup[m]] on a Python tuple. *)
Definition tuple_get {A} (tup : list A) (m : nat) : result A :=
  match tup !! m with
  | Some a => Ok a
  | None => Raise IndexError
  end.

Definition original_computation_of_distance_from_Ryuichiro_Hataya
    (self : SimilarityHook) (self_tensor other_tensor : Tensor R) : result R :=
  ds ← zip_with_result (cca_function self)
         (unbind3 self_tensor) (unbind3 other_tensor);
  stack_mean ds.

(** The loop [for m in range(M)] of the function below; [dists] is the list
    appended to. *)
Fixpoint distances_loop (f : Matrix -> Matrix -> result R)
    (self_tensor other_tensor : list Matrix) (ms : list nat) (dists : list R)
  : result (list R) :=
  match ms with
  | [] => Ok dists
  | m :: ms' =>
      s ← tuple_get self_tensor m;
      o ← tuple_get other_tensor m;
      dist ← f s o;
      distances_loop f self_tensor other_tensor ms' (dists ++ [dist])%list
  end.

Definition original_computation_of_distance_from_Ryuichiro_Hataya_as_loop
    (self : SimilarityHook) (self_tensor other_tensor : Tensor R) : result R :=
  _ ← py_assert (bool_decide (dim self_tensor = 3%nat));
  let M := nth 0 (shape self_tensor) 0%nat in
  let self_tuple := unbind3 self_tensor in
  let other_tuple := unbind3 other_tensor in
  _ ← py_assert (bool_decide (length self_tuple = M)
                 && bool_decide (length other_tuple = M));
  ds ← distances_loop (cca_function self) self_tuple other_tuple (seq 0 M) [];
  stack_mean ds.

(** [d] is an axis of a tensor of rank [n], counted from the front or, when
    negative, from the end. *)
Definition valid_axis (n : nat) (d : Z) : Prop :=
  (- Z.of_nat n <= d < Z.of_nat n)%Z.

#[global] Instance valid_axis_dec (n : nat) (d : Z) : Decision (valid_axis n d).
Proof. unfold valid_axis. apply _. Defined.

(* ------------------------------------------------------------------ *)
(** ** fourier_map *)
(* ------------------------------------------------------------------ *)

(** Modelled from the spec: [_evaluate], [_normalize] and [_denormalize] of
    [anatome/utils.py], which is not in src. The spec says that the input is
    denormalized before it is perturbed and renormalized before it is
    evaluated, and that the criterion is evaluated on the perturbed input;
    the three are parameters. They are handed references to tensors and
    return one (a loss for [_evaluate]); nothing says that they leave the
    tensors of the store alone, so the store they leave is part of their
    result. [_evaluate] stands for the call
    [_evaluate(model, (noisy_input, target), criterion)] with the model, the
    target and the criterion that [fourier_map] was given. *)
Class EvaluationPrimitives : Type := {
  _denormalize : ref -> Vector -> Vector -> store -> store * result ref;
  _normalize : ref -> Vector -> Vector -> store -> store * result ref;
  _evaluate : ref -> store -> store * result R
}.

(** [torch.triu_indices(h, w).t()]: the positions [(i, j)] with [i <= j] of
    an [h x w] grid, row by row. *)
Definition triu_indices (h w : nat) : list (nat * nat) :=
  flat_map (fun i => map (fun j => (i, j)) (seq i (w - i))) (seq 0 h).

(** [map[i, j] = v] *)
Definition mset (m : Matrix) (i j : Z) (v : R) : result Matrix :=
  i ← wrap_index (nrows m) i;
  j ← wrap_index (ncols m) j;
  Ok (mkMatrix (nrows m) (ncols m) (<[(i * ncols m + j)%nat := v]> (entries m))).

(** [torch.zeros(h, w)] *)
Definition zeros (h w : nat) : Matrix := mk_mat h w (fun _ _ => 0).

(** An outcome that carries on in a store: a value holding [nan] taints
    what follows, an exception leaves the store as it is. *)
Definition in_store {A B} (r : result A) (st : gmap positive (Tensor R))
    (k : A -> gmap positive (Tensor R) * result B)
  : gmap positive (Tensor R) * result B :=
  match r with
  | Ok a => k a
  | NonFinite a =>
      let '(st', b) := k a in
      (st', match b with Ok b' => NonFinite b' | b' => b' end)
  | Raise e => (st, Raise e)
  end.

Section FourierMap.
Context `{FourierPrimitives} `{EvaluationPrimitives}.

(** The loop of [fourier_map] over the positions [us] that are left. *)
Fixpoint fourier_map_loop (us : list (nat * nat)) (input : ref) (norm : R)
    (fourier_map_size : option (nat * nat)) (normalization : option (Vector * Vector))
    (h w : nat) (map : Matrix) (st : store) : store * result Matrix :=
  match us with
  | [] => (st, Ok map)
  | u_i :: us' =>
      let u := (Z.of_nat u_i.1, Z.of_nat u_i.2) in
      let l_i := (Z.of_nat h - 1 - u.1, Z.of_nat w - 1 - u.2)%Z in
      let '(st, noisy_input) := add_fourier_noise u input norm fourier_map_size st in
      in_store noisy_input st (fun noisy_input =>
        let '(st, noisy_input) :=
          match normalization with
          | None => (st, Ok noisy_input)
          | Some (_mean, _std) => _normalize noisy_input _mean _std st
          end in
        in_store noisy_input st (fun noisy_input =>
          let '(st, loss) := _evaluate noisy_input st in
          in_store loss st (fun loss =>
            in_store (map ← mset map u.1 u.2 loss;
                      mset map l_i.1 l_i.2 loss)
              st
              (fun map => fourier_map_loop us' input norm fourier_map_size
                            normalization h w map st))))
  end.

(** [fourier_map(model, data, criterion, norm, fourier_map_size, mean, std)]
    on the input of [data]. [mean] and [std] are given together or not at
    all: they are the pair [normalization]. *)
Definition fourier_map (input : ref) (norm : R)
    (fourier_map_size : option (nat * nat)) (normalization : option (Vector * Vector))
    (st : store) : store * result Matrix :=
  match st !! input with
  | None => (st, Raise RuntimeError)
  | Some t =>
      in_store
        (match fourier_map_size with
         | None =>
             match shape t with
             | [_; _; h; w] => Ok (h, w)
             | _ => Raise ValueError
             end
         | Some hw => Ok hw
         end)
        st
        (fun '(h, w) =>
           let '(st, input) :=
             match normalization with
             | None => (st, Ok input)
             | Some (_mean, _std) => _denormalize input _mean _std st
             end in
           in_store input st (fun input =>
             fourier_map_loop (triu_indices h w) input norm fourier_map_size
               normalization h w (zeros h w) st))
  end.

End FourierMap.

(** A computation in the store leaves the tensors that exist alone. *)
Definition keeps_tensors {A} (f : store -> store * A) : Prop :=
  forall (st : store) (l : ref) (t : Tensor R),
    st !! l = Some t -> (f st).1 !! l = Some t.




(** An evaluation that needs no model: the loss is the sum of the entries
    of its input, and the normalizations hand their argument back. *)
Definition sum_evaluation : EvaluationPrimitives := {|
  _denormalize := fun l _ _ st => (st, Ok l);
  _normalize := fun l _ _ st => (st, Ok l);
  _evaluate := fun l st =>
    (st, match st !! l with
         | Some t => Ok (vsum (data t))
         | None => Raise RuntimeError
         end)
|}.

(** The same evaluation with a [_denormalize] that works in place: it sets
    the entries of its argument to zero. *)
Definition inplace_evaluation : EvaluationPrimitives := {|
  _denormalize := fun l _ _ st =>
    match st !! l with
    | Some t => (<[l := mkTensor (shape t) (map (fun _ => 0) (data t))]> st, Ok l)
    | None => (st, Raise RuntimeError)
    end;
  _normalize := fun l _ _ st => (st, Ok l);
  _evaluate := fun l st =>
    (st, match st !! l with
         | Some t => Ok (vsum (data t))
         | None => Raise RuntimeError
         end)
|}.

(** Primitives for the comparison of [asym_x] with itself: the decomposition
    of the centered [asym_x], and that of the 2 x 2 identity, the cross
    product of its left factor with itself. *)
Definition self_primitives : LinearAlgebraPrimitives := {|
  _svd := fun m =>
    match nrows m, ncols m with
    | 8%nat, 2%nat => Ok (asym_u1, [4; 2], eye 2)
    | 2%nat, 2%nat => Ok (eye 2, [1; 1], eye 2)
    | _, _ => Raise RuntimeError
    end;
  linalg_qr := fun _ => Raise RuntimeError;
  inverse := fun _ => Raise RuntimeError;
  nuclear_norm := fun _ => Raise RuntimeError;
  adaptive_avg_pool2d := fun _ _ => Raise RuntimeError;
  dft_downsample := fun _ _ => Raise RuntimeError
|}.

(* ================================================================== *)
(** * Properties *)
(* ================================================================== *)

(** ** The outcome monad *)

Lemma bind_Ok_inv {A B} (r : result A) (f : A -> result B) (b : B) :
  r ≫= f = Ok b -> exists a, r = Ok a /\ f a = Ok b.
Proof.
  destruct r as [a|a|e]; simpl; intros Hb.
  - eauto.
  - unfold mbind, result_bind in Hb. destruct (f a); discriminate.
  - discriminate.
Qed.

Lemma bind_Ok {A B} (a : A) (f : A -> result B) : Ok a ≫= f = f a.
Proof. reflexivity. Qed.

Lemma bind_Raise {A B} (e : exn) (f : A -> result B) : Raise e ≫= f = Raise e.
Proof. reflexivity. Qed.

(** ** Sums, vectors and matrices *)

Lemma sum_n_ext (n : nat) (f g : nat -> R) :
  (forall i, (i < n)%nat -> f i = g i) -> sum_n n f = sum_n n g.
Proof.
  induction n as [|n IH]; simpl; intros Hfg; [reflexivity|].
  rewrite IH, Hfg by (intros; try apply Hfg; lia). reflexivity.
Qed.

Lemma sum_n_zero (n : nat) (f : nat -> R) :
  (forall i, (i < n)%nat -> f i = 0) -> sum_n n f = 0.
Proof.
  induction n as [|n IH]; simpl; intros Hf; [reflexivity|].
  rewrite IH, Hf by (intros; try apply Hf; lia). lra.
Qed.

Lemma sum_n_plus (n : nat) (f g : nat -> R) :
  sum_n n (fun i => f i + g i) = sum_n n f + sum_n n g.
Proof. induction n as [|n IH]; simpl; [lra|rewrite IH; lra]. Qed.

Lemma sum_n_minus (n : nat) (f g : nat -> R) :
  sum_n n (fun i => f i - g i) = sum_n n f - sum_n n g.
Proof. induction n as [|n IH]; simpl; [lra|rewrite IH; lra]. Qed.

Lemma sum_n_scal_l (n : nat) (c : R) (f : nat -> R) :
  sum_n n (fun i => c * f i) = c * sum_n n f.
Proof. induction n as [|n IH]; simpl; [lra|rewrite IH; lra]. Qed.

Lemma sum_n_scal_r (n : nat) (c : R) (f : nat -> R) :
  sum_n n (fun i => f i * c) = sum_n n f * c.
Proof. induction n as [|n IH]; simpl; [lra|rewrite IH; lra]. Qed.

Lemma sum_n_const (n : nat) (c : R) : sum_n n (fun _ => c) = INR n * c.
Proof.
  induction n as [|n IH]; [simpl; lra|].
  rewrite S_INR. simpl. rewrite IH. lra.
Qed.

Lemma sum_n_swap (n m : nat) (f : nat -> nat -> R) :
  sum_n n (fun i => sum_n m (fun j => f i j))
  = sum_n m (fun j => sum_n n (fun i => f i j)).
Proof.
  induction n as [|n IH]; simpl.
  - symmetry. apply sum_n_zero. reflexivity.
  - rewrite IH, <- sum_n_plus. reflexivity.
Qed.

Lemma sum_n_nonneg (n : nat) (f : nat -> R) :
  (forall i, (i < n)%nat -> 0 <= f i) -> 0 <= sum_n n f.
Proof.
  induction n as [|n IH]; simpl; intros Hf; [lra|].
  assert (0 <= sum_n n f) by (apply IH; intros; apply Hf; lia).
  assert (0 <= f n) by (apply Hf; lia). lra.
Qed.

Lemma sum_n_le (n : nat) (f g : nat -> R) :
  (forall i, (i < n)%nat -> f i <= g i) -> sum_n n f <= sum_n n g.
Proof.
  induction n as [|n IH]; simpl; intros Hf; [lra|].
  assert (sum_n n f <= sum_n n g) by (apply IH; intros; apply Hf; lia).
  assert (f n <= g n) by (apply Hf; lia). lra.
Qed.

Lemma sum_n_mono (n m : nat) (f : nat -> R) :
  (forall i, 0 <= f i) -> (n <= m)%nat -> sum_n n f <= sum_n m f.
Proof.
  intros Hf Hnm. induction Hnm as [|m Hnm IH]; simpl; [lra|].
  specialize (Hf m). lra.
Qed.

(** A sum of squares that is zero has zero terms. *)
Lemma sum_n_sq_zero (n : nat) (f : nat -> R) :
  sum_n n (fun i => f i * f i) = 0 -> forall i, (i < n)%nat -> f i = 0.
Proof.
  induction n as [|n IH]; simpl; intros Hs i Hi; [lia|].
  assert (0 <= sum_n n (fun i => f i * f i)).
  { apply sum_n_nonneg. intros. nra. }
  assert (Hn : f n * f n = 0) by nra.
  destruct (decide (i = n)) as [->|Hne]; [nra|].
  apply IH; [nra|lia].
Qed.

(** Picking one term of a sum. *)
Lemma sum_n_delta (n k : nat) (f : nat -> R) :
  (k < n)%nat ->
  sum_n n (fun i => if decide (i = k) then f i else 0) = f k.
Proof.
  induction n as [|n IH]; intros Hk; [lia|]. simpl.
  destruct (decide (n = k)) as [->|Hne].
  - rewrite sum_n_zero; [lra|]. intros i Hi.
    destruct (decide (i = k)); [lia|reflexivity].
  - rewrite IH by lia. lra.
Qed.

Lemma length_flat_map_uniform {A} (d : nat) (g : nat -> list A) (s n : nat) :
  (forall k, length (g k) = d) ->
  length (flat_map g (seq s n)) = (n * d)%nat.
Proof.
  intros Hg. revert s. induction n as [|n IH]; intros s; simpl; [reflexivity|].
  rewrite length_app, Hg, IH. lia.
Qed.

Lemma nth_flat_map_uniform {A} (d : nat) (g : nat -> list A) (s n i j : nat) (a : A) :
  (forall k, length (g k) = d) -> (i < n)%nat -> (j < d)%nat ->
  nth (i * d + j) (flat_map g (seq s n)) a = nth j (g (s + i)%nat) a.
Proof.
  intros Hg. revert s i. induction n as [|n IH]; intros s i Hi Hj; [lia|].
  simpl. destruct i as [|i].
  - simpl. rewrite app_nth1 by (rewrite Hg; lia). rewrite Nat.add_0_r. reflexivity.
  - rewrite app_nth2 by (rewrite Hg; lia). rewrite Hg.
    replace (S i * d + j - d)%nat with (i * d + j)%nat by lia.
    rewrite IH by lia. f_equal. f_equal. lia.
Qed.

Lemma mget_mk_mat (n d : nat) (f : nat -> nat -> R) (i j : nat) :
  (i < n)%nat -> (j < d)%nat -> mget (mk_mat n d f) i j = f i j.
Proof.
  intros Hi Hj. unfold mget, mk_mat. simpl.
  rewrite (nth_flat_map_uniform d) by (intros; try rewrite length_map, length_seq; auto).
  simpl. rewrite (nth_indep _ 0 (f i 0%nat)) by (rewrite length_map, length_seq; lia).
  rewrite map_nth, seq_nth by lia. reflexivity.
Qed.

Lemma wf_mk_mat (n d : nat) (f : nat -> nat -> R) : wf_matrix (mk_mat n d f).
Proof.
  unfold wf_matrix, mk_mat. simpl.
  apply length_flat_map_uniform. intros. rewrite length_map, length_seq. reflexivity.
Qed.

Lemma mk_mat_ext (n d : nat) (f g : nat -> nat -> R) :
  (forall i j, (i < n)%nat -> (j < d)%nat -> f i j = g i j) ->
  mk_mat n d f = mk_mat n d g.
Proof.
  intros Hfg. unfold mk_mat. f_equal.
  assert (Hgen : forall s, (s + n <= n)%nat \/ True ->
            forall l, l = seq s (n - s) ->
            flat_map (fun i => map (f i) (seq 0 d)) l
            = flat_map (fun i => map (g i) (seq 0 d)) l).
  { intros s _ l ->. remember (n - s)%nat as m eqn:Hm. revert s Hm.
    induction m as [|m IH]; intros s Hm; simpl; [reflexivity|].
    f_equal.
    - apply map_ext_in. intros j Hj. apply in_seq in Hj. apply Hfg; lia.
    - apply IH. lia. }
  specialize (Hgen 0%nat (or_intror I) (seq 0 n)).
  rewrite Nat.sub_0_r in Hgen. apply Hgen. reflexivity.
Qed.

(** Two well-formed matrices with the same shape and the same entries are
    equal. *)
Lemma matrix_eq (a b : Matrix) :
  wf_matrix a -> wf_matrix b ->
  nrows a = nrows b -> ncols a = ncols b ->
  (forall i j, (i < nrows a)%nat -> (j < ncols a)%nat -> mget a i j = mget b i j) ->
  a = b.
Proof.
  destruct a as [n d ea], b as [n' d' eb]. unfold wf_matrix, mget. simpl.
  intros Ha Hb <- <- He. f_equal.
  apply (nth_ext _ _ 0 0); [lia|].
  intros p Hp. rewrite Ha in Hp.
  assert (Hd : (0 < d)%nat) by (destruct d; [lia|lia]).
  specialize (He (p / d)%nat (p mod d)%nat).
  rewrite (Nat.mul_comm (p / d) d), <- Nat.div_mod_eq in He.
  apply He.
  - apply Nat.Div0.div_lt_upper_bound. lia.
  - apply Nat.mod_upper_bound. lia.
Qed.

Lemma vget_mk_vec (n : nat) (f : nat -> R) (i : nat) :
  (i < n)%nat -> vget (mk_vec n f) i = f i.
Proof.
  intros Hi. unfold vget, mk_vec.
  rewrite (nth_indep _ 0 (f 0%nat)) by (rewrite length_map, length_seq; lia).
  rewrite map_nth, seq_nth by lia. reflexivity.
Qed.

Lemma length_mk_vec (n : nat) (f : nat -> R) : length (mk_vec n f) = n.
Proof. unfold mk_vec. rewrite length_map, length_seq. reflexivity. Qed.

Lemma vsum_mk_vec (n : nat) (f : nat -> R) : vsum (mk_vec n f) = sum_n n f.
Proof.
  unfold vsum. rewrite length_mk_vec. apply sum_n_ext.
  intros. apply vget_mk_vec. assumption.
Qed.

Lemma matmul_Ok (a b : Matrix) :
  ncols a = nrows b ->
  matmul a b = Ok (mk_mat (nrows a) (ncols b)
                     (fun i j => sum_n (ncols a) (fun k => mget a i k * mget b k j))).
Proof. intros E. unfold matmul. destruct (decide _); [reflexivity|contradiction]. Qed.

Lemma mget_transpose (m : Matrix) (i j : nat) :
  (i < ncols m)%nat -> (j < nrows m)%nat -> mget (transpose m) i j = mget m j i.
Proof. intros. unfold transpose. rewrite mget_mk_mat by assumption. reflexivity. Qed.

Lemma frobenius_sq (m : Matrix) :
  frobenius m ^ 2
  = sum_n (nrows m) (fun i => sum_n (ncols m) (fun j => mget m i j * mget m i j)).
Proof.
  unfold frobenius. simpl. rewrite Rmult_1_r. apply sqrt_sqrt.
  apply sum_n_nonneg. intros. apply sum_n_nonneg. intros. nra.
Qed.

Lemma frobenius_nonneg (m : Matrix) : 0 <= frobenius m.
Proof. apply sqrt_pos. Qed.

Lemma _zero_mean_rows (x : Matrix) :
  _zero_mean x 0
  = Ok (mk_mat (nrows x) (ncols x) (fun i j =>
          mget x i j - sum_n (nrows x) (fun k => mget x k j) / INR (nrows x))).
Proof. reflexivity. Qed.

(** ** Orthonormal families *)

Lemma sum_n_mult (n m : nat) (f g : nat -> R) :
  sum_n n f * sum_n m g = sum_n n (fun i => sum_n m (fun j => f i * g j)).
Proof.
  rewrite <- sum_n_scal_r. apply sum_n_ext. intros i _.
  rewrite sum_n_scal_l. reflexivity.
Qed.

Lemma sum_n_ext2 (n m : nat) (f g : nat -> nat -> R) :
  (forall i j, (i < n)%nat -> (j < m)%nat -> f i j = g i j) ->
  sum_n n (fun i => sum_n m (f i)) = sum_n n (fun i => sum_n m (g i)).
Proof.
  intros Hfg. apply sum_n_ext. intros i Hi. apply sum_n_ext. intros j Hj.
  apply Hfg; assumption.
Qed.

(** Sum against the Kronecker delta. *)
Lemma sum_n_delta_r (n k : nat) (f : nat -> R) :
  (k < n)%nat ->
  sum_n n (fun i => f i * (if decide (k = i) then 1 else 0)) = f k.
Proof.
  intros Hk. rewrite <- (sum_n_delta n k f Hk). apply sum_n_ext. intros i _.
  destruct (decide (k = i)) as [->|Hne].
  - destruct (decide (i = i)); [lra|contradiction].
  - destruct (decide (i = k)); [congruence|lra].
Qed.

(** The squared norm of a combination of orthonormal vectors is the sum of
    the squares of its coefficients. *)
Lemma norm_combination (m k : nat) (u : nat -> nat -> R) (c : nat -> R) :
  (forall p q, (p < k)%nat -> (q < k)%nat ->
     sum_n m (fun a => u a p * u a q) = if decide (p = q) then 1 else 0) ->
  sum_n m (fun a => sum_n k (fun p => c p * u a p) * sum_n k (fun p => c p * u a p))
  = sum_n k (fun p => c p * c p).
Proof.
  intros Hu.
  rewrite (sum_n_ext m _ (fun a => sum_n k (fun p => sum_n k (fun q =>
             (c p * c q) * (u a p * u a q))))).
  2:{ intros a _. rewrite sum_n_mult. apply sum_n_ext2. intros. ring. }
  rewrite sum_n_swap.
  apply sum_n_ext. intros p Hp.
  rewrite sum_n_swap.
  rewrite (sum_n_ext k _ (fun q => (c p * c q) * (if decide (p = q) then 1 else 0))).
  2:{ intros q Hq. rewrite sum_n_scal_l, Hu by assumption. reflexivity. }
  rewrite (sum_n_delta_r k p (fun q => c p * c q)) by assumption. reflexivity.
Qed.

(** Bessel's inequality: the coefficients of [w] on an orthonormal family
    have a sum of squares at most the squared norm of [w]. *)
Lemma bessel (m k : nat) (u : nat -> nat -> R) (w : nat -> R) :
  (forall p q, (p < k)%nat -> (q < k)%nat ->
     sum_n m (fun a => u a p * u a q) = if decide (p = q) then 1 else 0) ->
  sum_n k (fun p => sum_n m (fun a => w a * u a p) * sum_n m (fun a => w a * u a p))
  <= sum_n m (fun a => w a * w a).
Proof.
  intros Hu.
  set (c := fun p => sum_n m (fun a => w a * u a p)).
  assert (Hpos : 0 <= sum_n m (fun a =>
            (w a - sum_n k (fun p => c p * u a p))
            * (w a - sum_n k (fun p => c p * u a p)))).
  { apply sum_n_nonneg. intros i _. apply Rle_0_sqr. }
  rewrite (sum_n_ext m _ (fun a =>
             w a * w a
             - 2 * (sum_n k (fun p => c p * (w a * u a p)))
             + sum_n k (fun p => c p * u a p) * sum_n k (fun p => c p * u a p)))
    in Hpos.
  2:{ intros a _.
      rewrite (sum_n_ext k (fun p => c p * (w a * u a p))
                 (fun p => w a * (c p * u a p))) by (intros; ring).
      rewrite sum_n_scal_l. ring. }
  rewrite sum_n_plus, sum_n_minus, sum_n_scal_l in Hpos.
  rewrite (norm_combination m k u c Hu) in Hpos.
  rewrite sum_n_swap in Hpos.
  rewrite (sum_n_ext k _ (fun p => c p * c p)) in Hpos.
  2:{ intros p _. rewrite sum_n_scal_l. reflexivity. }
  change (sum_n k (fun p => c p * c p) <= sum_n m (fun a => w a * w a)).
  lra.
Qed.

(** The inner product of two vectors is at most the mean of their squared
    norms. *)
Lemma inner_le_mean (n : nat) (f g : nat -> R) :
  sum_n n (fun i => f i * g i)
  <= (sum_n n (fun i => f i * f i) + sum_n n (fun i => g i * g i)) / 2.
Proof.
  assert (Hs : sum_n n (fun i => f i * g i)
               <= sum_n n (fun i => (f i * f i + g i * g i) / 2)).
  { apply sum_n_le. intros i _. cbv beta.
    pose proof (Rle_0_sqr (f i - g i)) as Hsq. unfold Rsqr in Hsq. lra. }
  rewrite (sum_n_ext n (fun i => (f i * f i + g i * g i) / 2)
             (fun i => / 2 * (f i * f i + g i * g i))) in Hs by (intros; lra).
  rewrite sum_n_scal_l, sum_n_plus in Hs. lra.
Qed.

(** ** Sums of singular values *)

Section SingularValues.
Variables (d1 d2 k : nat) (M U V : nat -> nat -> R) (s : nat -> R).
Hypothesis HU : forall p q, (p < k)%nat -> (q < k)%nat ->
  sum_n d1 (fun a => U a p * U a q) = if decide (p = q) then 1 else 0.
Hypothesis HV : forall p q, (p < k)%nat -> (q < k)%nat ->
  sum_n d2 (fun b => V b p * V b q) = if decide (p = q) then 1 else 0.
Hypothesis Hs : forall p, (p < k)%nat -> 0 <= s p.
Hypothesis HM : forall a b, (a < d1)%nat -> (b < d2)%nat ->
  M a b = sum_n k (fun p => U a p * s p * V b p).

(** A singular value is [u_p^T M v_p]. *)
Lemma singular_value_formula (p : nat) :
  (p < k)%nat ->
  sum_n d1 (fun a => sum_n d2 (fun b => U a p * M a b * V b p)) = s p.
Proof.
  intros Hp.
  rewrite (sum_n_ext d1 _ (fun a => sum_n k (fun q =>
             U a p * U a q * (s q * (if decide (q = p) then 1 else 0))))).
  2:{ intros a Ha.
      rewrite (sum_n_ext d2 _ (fun b => sum_n k (fun q =>
                 (U a p * U a q * s q) * (V b q * V b p)))).
      2:{ intros b Hb. rewrite HM by assumption.
          rewrite <- sum_n_scal_l, <- sum_n_scal_r.
          apply sum_n_ext. intros. ring. }
      rewrite sum_n_swap. apply sum_n_ext. intros q Hq.
      rewrite sum_n_scal_l, HV by assumption. ring. }
  rewrite sum_n_swap.
  rewrite (sum_n_ext k _ (fun q =>
             (s q * (if decide (p = q) then 1 else 0))
             * (if decide (q = p) then 1 else 0))).
  2:{ intros q Hq. rewrite sum_n_scal_r, HU by assumption. ring. }
  rewrite (sum_n_ext k _ (fun q => s q * (if decide (p = q) then 1 else 0))).
  2:{ intros q _. destruct (decide (p = q)) as [->|Hne].
      - destruct (decide (q = q)); [ring|contradiction].
      - ring. }
  apply sum_n_delta_r. exact Hp.
Qed.

(** When [M = X^T Y], the sum of the singular values is at most the mean of
    the squared Frobenius norms of [X] and [Y]. *)
Lemma singular_values_upper (n : nat) (X Y : nat -> nat -> R) :
  (forall a b, (a < d1)%nat -> (b < d2)%nat ->
     M a b = sum_n n (fun i => X i a * Y i b)) ->
  sum_n k s
  <= (sum_n n (fun i => sum_n d1 (fun a => X i a * X i a))
      + sum_n n (fun i => sum_n d2 (fun b => Y i b * Y i b))) / 2.
Proof.
  intros HXY.
  set (P := fun i p => sum_n d1 (fun a => X i a * U a p)).
  set (Q := fun i p => sum_n d2 (fun b => Y i b * V b p)).
  assert (Hsp : forall p, (p < k)%nat -> s p = sum_n n (fun i => P i p * Q i p)).
  { intros p Hp. rewrite <- (singular_value_formula p Hp).
    rewrite (sum_n_ext d1 _ (fun a => sum_n d2 (fun b => sum_n n (fun i =>
               (X i a * U a p) * (Y i b * V b p))))).
    2:{ intros a Ha. apply sum_n_ext. intros b Hb.
        rewrite HXY by assumption.
        rewrite <- sum_n_scal_l, <- sum_n_scal_r.
        apply sum_n_ext. intros. ring. }
    rewrite (sum_n_ext d1 _ (fun a => sum_n n (fun i =>
               (X i a * U a p) * Q i p))).
    2:{ intros a Ha. rewrite sum_n_swap. apply sum_n_ext. intros i Hi.
        rewrite sum_n_scal_l. reflexivity. }
    rewrite sum_n_swap. apply sum_n_ext. intros i Hi.
    rewrite sum_n_scal_r. reflexivity. }
  rewrite (sum_n_ext k s (fun p => sum_n n (fun i => P i p * Q i p))) by exact Hsp.
  assert (Hmean : sum_n k (fun p => sum_n n (fun i => P i p * Q i p))
                  <= sum_n k (fun p =>
                       (sum_n n (fun i => P i p * P i p)
                        + sum_n n (fun i => Q i p * Q i p)) / 2)).
  { apply sum_n_le. intros p _. apply inner_le_mean. }
  rewrite (sum_n_ext k (fun p => (sum_n n (fun i => P i p * P i p)
                                  + sum_n n (fun i => Q i p * Q i p)) / 2)
             (fun p => / 2 * (sum_n n (fun i => P i p * P i p)
                              + sum_n n (fun i => Q i p * Q i p))))
    in Hmean by (intros; lra).
  rewrite sum_n_scal_l, sum_n_plus in Hmean.
  rewrite (sum_n_swap k n (fun p i => P i p * P i p)) in Hmean.
  rewrite (sum_n_swap k n (fun p i => Q i p * Q i p)) in Hmean.
  assert (HP : sum_n n (fun i => sum_n k (fun p => P i p * P i p))
               <= sum_n n (fun i => sum_n d1 (fun a => X i a * X i a))).
  { apply sum_n_le. intros i _. apply (bessel d1 k U (X i) HU). }
  assert (HQ : sum_n n (fun i => sum_n k (fun p => Q i p * Q i p))
               <= sum_n n (fun i => sum_n d2 (fun b => Y i b * Y i b))).
  { apply sum_n_le. intros i _. apply (bessel d2 k V (Y i) HV). }
  lra.
Qed.

(** For a matrix [G] with [u_p^T G v_p <= 1] for every pair of singular
    vectors, the inner product of [M] and [G] is at most the sum of the
    singular values. *)
Lemma singular_values_lower (G : nat -> nat -> R) :
  (forall p, (p < k)%nat ->
     sum_n d1 (fun a => sum_n d2 (fun b => U a p * G a b * V b p)) <= 1) ->
  sum_n d1 (fun a => sum_n d2 (fun b => M a b * G a b)) <= sum_n k s.
Proof.
  intros HG.
  rewrite (sum_n_ext d1 _ (fun a => sum_n k (fun p => sum_n d2 (fun b =>
             s p * (U a p * G a b * V b p))))).
  2:{ intros a Ha. rewrite sum_n_swap. apply sum_n_ext. intros b Hb.
      rewrite HM by assumption. rewrite <- sum_n_scal_r.
      apply sum_n_ext. intros. ring. }
  rewrite sum_n_swap.
  apply sum_n_le. intros p Hp.
  rewrite (sum_n_ext d1 _ (fun a =>
             s p * sum_n d2 (fun b => U a p * G a b * V b p))).
  2:{ intros a _. rewrite sum_n_scal_l. reflexivity. }
  rewrite sum_n_scal_l.
  specialize (HG p Hp). specialize (Hs p Hp). nra.
Qed.

Lemma singular_values_nonneg : 0 <= sum_n k s.
Proof. apply sum_n_nonneg. exact Hs. Qed.

End SingularValues.

(** ** Decompositions of a matrix with orthogonal columns *)

Lemma sum_n_single (n k : nat) (f : nat -> R) :
  (k < n)%nat -> (forall i, (i < n)%nat -> i <> k -> f i = 0) ->
  sum_n n f = f k.
Proof.
  intros Hk Hz. rewrite <- (sum_n_delta n k f Hk). apply sum_n_ext.
  intros i Hi. destruct (decide (i = k)); [reflexivity|]. apply Hz; assumption.
Qed.

Lemma sum_n_all_zero_or_not (n : nat) (f : nat -> R) :
  (forall i, (i < n)%nat -> f i = 0) \/ exists i, (i < n)%nat /\ f i <> 0.
Proof.
  induction n as [|n IH].
  - left. intros i Hi. lia.
  - destruct IH as [Hz|(i & Hi & Hne)].
    + destruct (Req_dec (f n) 0) as [E|E].
      * left. intros i Hi. destruct (decide (i = n)) as [->|]; [exact E|].
        apply Hz. lia.
      * right. exists n. split; [lia|exact E].
    + right. exists i. split; [lia|exact Hne].
Qed.

Section OrthogonalColumns.
Variables (d1 k : nat) (M U V : nat -> nat -> R) (s c : nat -> R).
Hypothesis HU : forall p q, (p < k)%nat -> (q < k)%nat ->
  sum_n d1 (fun a => U a p * U a q) = if decide (p = q) then 1 else 0.
Hypothesis HV : forall p q, (p < k)%nat -> (q < k)%nat ->
  sum_n k (fun b => V b p * V b q) = if decide (p = q) then 1 else 0.
Hypothesis Hs : forall p, (p < k)%nat -> 0 <= s p.
Hypothesis Hsorted : forall p q, (p <= q)%nat -> (q < k)%nat -> s q <= s p.
Hypothesis HM : forall a b, (a < d1)%nat -> (b < k)%nat ->
  M a b = sum_n k (fun p => U a p * s p * V b p).
Hypothesis Hgram : forall b b', (b < k)%nat -> (b' < k)%nat ->
  sum_n d1 (fun a => M a b * M a b') = if decide (b = b') then c b * c b else 0.
Hypothesis Hc : forall b, (b < k)%nat -> 0 < c b.
Hypothesis Hdec : forall b b', (b < b')%nat -> (b' < k)%nat -> c b' < c b.

Lemma c_injective (b b' : nat) :
  (b < k)%nat -> (b' < k)%nat -> c b = c b' -> b = b'.
Proof.
  intros Hb Hb' E.
  destruct (Nat.lt_trichotomy b b') as [Hlt|[Heq|Hgt]]; [|exact Heq|].
  - pose proof (Hdec b b' Hlt Hb'). lra.
  - pose proof (Hdec b' b Hgt Hb). lra.
Qed.

(** [M^T M = V diag(s^2) V^T] *)
Lemma gram_by_factors (b b' : nat) :
  (b < k)%nat -> (b' < k)%nat ->
  sum_n d1 (fun a => M a b * M a b')
  = sum_n k (fun p => s p * s p * V b p * V b' p).
Proof.
  intros Hb Hb'.
  rewrite (sum_n_ext d1 _ (fun a => sum_n k (fun p => sum_n k (fun q =>
             (s p * V b p * (s q * V b' q)) * (U a p * U a q))))).
  2:{ intros a Ha. rewrite !HM by assumption. rewrite sum_n_mult.
      apply sum_n_ext2. intros. ring. }
  rewrite sum_n_swap. apply sum_n_ext. intros p Hp.
  rewrite sum_n_swap.
  rewrite (sum_n_ext k _ (fun q =>
             (s p * V b p * (s q * V b' q)) * (if decide (p = q) then 1 else 0))).
  2:{ intros q Hq. rewrite sum_n_scal_l, HU by assumption. reflexivity. }
  rewrite (sum_n_delta_r k p (fun q => s p * V b p * (s q * V b' q))) by assumption.
  ring.
Qed.

(** Each column of [V] is an eigenvector of [M^T M]. *)
Lemma eigen_column (b q : nat) :
  (b < k)%nat -> (q < k)%nat -> c b * c b * V b q = s q * s q * V b q.
Proof.
  intros Hb Hq.
  transitivity (sum_n k (fun b' => sum_n d1 (fun a => M a b * M a b') * V b' q)).
  - rewrite (sum_n_ext k _ (fun b' =>
               if decide (b' = b) then c b' * c b' * V b' q else 0)).
    2:{ intros b' Hb'. rewrite Hgram by assumption.
        destruct (decide (b = b')) as [->|Hne].
        - destruct (decide (b' = b')); [reflexivity|contradiction].
        - destruct (decide (b' = b)); [congruence|ring]. }
    rewrite (sum_n_delta k b (fun b' => c b' * c b' * V b' q)) by assumption.
    reflexivity.
  - rewrite (sum_n_ext k _ (fun b' => sum_n k (fun p =>
               (s p * s p * V b p) * (V b' p * V b' q)))).
    2:{ intros b' Hb'. rewrite gram_by_factors by assumption.
        rewrite <- sum_n_scal_r. apply sum_n_ext. intros. ring. }
    rewrite sum_n_swap.
    rewrite (sum_n_ext k _ (fun p =>
               (s p * s p * V b p) * (if decide (p = q) then 1 else 0))).
    2:{ intros p Hp. rewrite sum_n_scal_l, HV by assumption. reflexivity. }
    rewrite (sum_n_ext k _ (fun p =>
               if decide (p = q) then s p * s p * V b p else 0)).
    2:{ intros p _. destruct (decide (p = q)); ring. }
    rewrite (sum_n_delta k q (fun p => s p * s p * V b p)) by assumption.
    reflexivity.
Qed.

(** An entry of [V] that is not zero ties a singular value to a column
    norm. *)
Lemma entry_ties (b q : nat) :
  (b < k)%nat -> (q < k)%nat -> V b q <> 0 -> s q = c b.
Proof.
  intros Hb Hq Hne. pose proof (eigen_column b q Hb Hq) as E.
  assert (Hsq : c b * c b = s q * s q).
  { apply (Rmult_eq_reg_r (V b q)); assumption. }
  pose proof (Hc b Hb). pose proof (Hs q Hq). nra.
Qed.

Lemma column_support (b q : nat) :
  (b < k)%nat -> (q < k)%nat -> s q = c b ->
  (forall b', (b' < k)%nat -> b' <> b -> V b' q = 0) /\ V b q * V b q = 1.
Proof.
  intros Hb Hq E.
  assert (Hz : forall b', (b' < k)%nat -> b' <> b -> V b' q = 0).
  { intros b' Hb' Hne. destruct (Req_dec (V b' q) 0) as [Hz|Hnz]; [exact Hz|].
    exfalso. apply Hne. apply c_injective; try assumption.
    rewrite <- (entry_ties b' q Hb' Hq Hnz). exact E. }
  split; [exact Hz|].
  pose proof (HV q q Hq Hq) as Hunit.
  destruct (decide (q = q)); [|contradiction].
  rewrite (sum_n_single k b (fun b0 => V b0 q * V b0 q)) in Hunit; [exact Hunit|exact Hb|].
  intros i Hi Hne. cbv beta. rewrite (Hz i Hi Hne). ring.
Qed.

Lemma row_not_zero (b : nat) :
  (b < k)%nat -> exists q, (q < k)%nat /\ V b q <> 0.
Proof.
  intros Hb.
  destruct (sum_n_all_zero_or_not k (V b)) as [Hz|Hex]; [|exact Hex].
  exfalso. pose proof (Hgram b b Hb Hb) as Hg.
  destruct (decide (b = b)); [|contradiction].
  rewrite (sum_n_zero d1) in Hg.
  - pose proof (Hc b Hb). nra.
  - intros a Ha. cbv beta. rewrite HM by assumption.
    rewrite (sum_n_zero k); [ring|].
    intros p Hp. cbv beta. rewrite (Hz p Hp). ring.
Qed.

Lemma column_not_zero (q : nat) :
  (q < k)%nat -> exists b, (b < k)%nat /\ V b q <> 0.
Proof.
  intros Hq.
  destruct (sum_n_all_zero_or_not k (fun b => V b q)) as [Hz|Hex]; [|exact Hex].
  exfalso. pose proof (HV q q Hq Hq) as Hunit.
  destruct (decide (q = q)); [|contradiction].
  rewrite (sum_n_zero k) in Hunit; [lra|].
  intros b Hb. cbv beta. rewrite (Hz b Hb). ring.
Qed.

(** The singular values are the column norms, in their order. *)
Lemma singular_values_are_norms (q : nat) : (q < k)%nat -> s q = c q.
Proof.
  induction q as [q IH] using lt_wf_ind. intros Hq.
  apply Rle_antisym.
  - destruct (column_not_zero q Hq) as (b & Hb & Hne).
    pose proof (entry_ties b q Hb Hq Hne) as E.
    destruct (Nat.lt_ge_cases b q) as [Hlt|Hge].
    + exfalso.
      assert (Esb : s b = c b) by (apply IH; assumption).
      destruct (column_support b b Hb Hb Esb) as [Hzb Hub].
      destruct (column_support b q Hb Hq E) as [Hzq Huq].
      pose proof (HV b q Hb Hq) as Horth.
      destruct (decide (b = q)); [lia|].
      rewrite (sum_n_single k b (fun b0 => V b0 b * V b0 q)) in Horth;
        [|exact Hb|].
      * nra.
      * intros i Hi Hni. cbv beta. rewrite (Hzb i Hi Hni). ring.
    + rewrite E. destruct (decide (b = q)) as [->|Hnq]; [lra|].
      left. apply Hdec; [lia|exact Hb].
  - destruct (row_not_zero q Hq) as (p & Hp & Hne).
    pose proof (entry_ties q p Hq Hp Hne) as E.
    destruct (Nat.lt_ge_cases p q) as [Hlt|Hge].
    + exfalso.
      assert (Esp : s p = c p) by (apply IH; assumption).
      assert (p = q) by (apply c_injective; [assumption..|congruence]). lia.
    + rewrite <- E. apply Hsorted; assumption.
Qed.

Lemma right_factor_diagonal (b q : nat) :
  (b < k)%nat -> (q < k)%nat -> b <> q -> V b q = 0.
Proof.
  intros Hb Hq Hne.
  destruct (column_support q q Hq Hq (singular_values_are_norms q Hq)) as [Hz _].
  apply Hz; assumption.
Qed.

Lemma right_factor_sign (q : nat) : (q < k)%nat -> V q q * V q q = 1.
Proof.
  intros Hq.
  destruct (column_support q q Hq Hq (singular_values_are_norms q Hq)) as [_ Hu].
  exact Hu.
Qed.

Lemma left_factor (a q : nat) :
  (a < d1)%nat -> (q < k)%nat -> U a q = M a q * V q q / c q.
Proof.
  intros Ha Hq. rewrite HM by assumption.
  rewrite (sum_n_single k q (fun p => U a p * s p * V q p)); [|exact Hq|].
  - rewrite (singular_values_are_norms q Hq).
    pose proof (right_factor_sign q Hq) as Hsign. pose proof (Hc q Hq).
    cbv beta.
    replace (U a q * c q * V q q * V q q / c q) with (U a q * (V q q * V q q))
      by (field; lra).
    rewrite Hsign. ring.
  - intros p Hp Hne. cbv beta.
    rewrite (right_factor_diagonal q p Hq Hp) by congruence. ring.
Qed.

End OrthogonalColumns.

(** ** Decompositions met by CCA on matrices with aligned orthogonal columns *)

(** The facts on a decomposition of a matrix [m] with at least as many rows
    as columns whose columns are orthogonal, with norms [c] that are
    positive and strictly decreasing. *)
Lemma tall_svd_facts (m u : Matrix) (s : Vector) (v : Matrix) (c : nat -> R) :
  is_svd m u s v ->
  (ncols m <= nrows m)%nat ->
  (forall b b', (b < ncols m)%nat -> (b' < ncols m)%nat ->
     sum_n (nrows m) (fun a => mget m a b * mget m a b')
     = if decide (b = b') then c b * c b else 0) ->
  (forall b, (b < ncols m)%nat -> 0 < c b) ->
  (forall b b', (b < b')%nat -> (b' < ncols m)%nat -> c b' < c b) ->
  (forall q, (q < ncols m)%nat -> vget s q = c q)
  /\ (forall b q, (b < ncols m)%nat -> (q < ncols m)%nat -> b <> q -> mget v b q = 0)
  /\ (forall q, (q < ncols m)%nat -> mget v q q * mget v q q = 1)
  /\ (forall a q, (a < nrows m)%nat -> (q < ncols m)%nat ->
        mget u a q = mget m a q * mget v q q / c q).
Proof.
  intros (Hru & Hcu & Hls & Hrv & Hcv & Hou & Hov & Hs & Hsorted & Hm) Hle Hg Hc Hdec.
  rewrite (Nat.min_r _ _ Hle) in *.
  unfold orthonormal_columns in Hou, Hov.
  rewrite Hru, Hcu in Hou. rewrite Hrv, Hcv in Hov.
  split; [|split; [|split]].
  - intros q Hq.
    apply (singular_values_are_norms (nrows m) (ncols m) (mget m) (mget u) (mget v)
             (vget s) c); assumption.
  - intros b q Hb Hq Hne.
    apply (right_factor_diagonal (nrows m) (ncols m) (mget m) (mget u) (mget v)
             (vget s) c); assumption.
  - intros q Hq.
    apply (right_factor_sign (nrows m) (ncols m) (mget m) (mget u) (mget v)
             (vget s) c); assumption.
  - intros a q Ha Hq.
    apply (left_factor (nrows m) (ncols m) (mget m) (mget u) (mget v)
             (vget s) c); assumption.
Qed.

(** The same for a matrix with at most as many rows as columns whose rows
    are orthogonal. *)
Lemma wide_svd_facts (m u : Matrix) (s : Vector) (v : Matrix) (c : nat -> R) :
  is_svd m u s v ->
  (nrows m <= ncols m)%nat ->
  (forall b b', (b < nrows m)%nat -> (b' < nrows m)%nat ->
     sum_n (ncols m) (fun a => mget m b a * mget m b' a)
     = if decide (b = b') then c b * c b else 0) ->
  (forall b, (b < nrows m)%nat -> 0 < c b) ->
  (forall b b', (b < b')%nat -> (b' < nrows m)%nat -> c b' < c b) ->
  (forall q, (q < nrows m)%nat -> vget s q = c q)
  /\ (forall b q, (b < nrows m)%nat -> (q < nrows m)%nat -> b <> q -> mget u b q = 0)
  /\ (forall q, (q < nrows m)%nat -> mget u q q * mget u q q = 1).
Proof.
  intros (Hru & Hcu & Hls & Hrv & Hcv & Hou & Hov & Hs & Hsorted & Hm) Hle Hg Hc Hdec.
  rewrite (Nat.min_l _ _ Hle) in *.
  unfold orthonormal_columns in Hou, Hov.
  rewrite Hru, Hcu in Hou. rewrite Hrv, Hcv in Hov.
  assert (HM : forall a b, (a < ncols m)%nat -> (b < nrows m)%nat ->
            mget m b a = sum_n (nrows m) (fun p => mget v a p * vget s p * mget u b p)).
  { intros a b Ha Hb. rewrite Hm by assumption. apply sum_n_ext. intros. ring. }
  split; [|split].
  - intros q Hq.
    apply (singular_values_are_norms (ncols m) (nrows m) (fun a b => mget m b a)
             (mget v) (mget u) (vget s) c); assumption.
  - intros b q Hb Hq Hne.
    apply (right_factor_diagonal (ncols m) (nrows m) (fun a b => mget m b a)
             (mget v) (mget u) (vget s) c); assumption.
  - intros q Hq.
    apply (right_factor_sign (ncols m) (nrows m) (fun a b => mget m b a)
             (mget v) (mget u) (vget s) c); assumption.
Qed.

(** The decomposition of the cross product [uu] of the two left factors: a
    matrix that is zero off its diagonal, with diagonal entries [rho] up to
    sign. Its singular values are [rho] and its left factor is a diagonal
    of signs. *)
Lemma cross_svd_facts (uu u : Matrix) (d : Vector) (v : Matrix)
    (e f rho : nat -> R) :
  is_svd uu u d v ->
  (forall b q, (b < nrows uu)%nat -> (q < ncols uu)%nat ->
     mget uu b q = if decide (b = q) then e b * f q * rho b else 0) ->
  (forall b, (b < nrows uu)%nat -> e b * e b = 1) ->
  (forall q, (q < ncols uu)%nat -> f q * f q = 1) ->
  (forall j, (j < Nat.min (nrows uu) (ncols uu))%nat -> 0 < rho j) ->
  (forall j j', (j < j')%nat -> (j' < Nat.min (nrows uu) (ncols uu))%nat ->
     rho j' < rho j) ->
  (forall j, (j < Nat.min (nrows uu) (ncols uu))%nat -> vget d j = rho j)
  /\ (forall b j, (b < nrows uu)%nat -> (j < Nat.min (nrows uu) (ncols uu))%nat ->
        b <> j -> mget u b j = 0)
  /\ (forall j, (j < Nat.min (nrows uu) (ncols uu))%nat ->
        mget u j j * mget u j j = 1).
Proof.
  intros Hsvd Huu He Hf Hpos Hdec.
  assert (Hsq : forall b, (b < Nat.min (nrows uu) (ncols uu))%nat ->
            (e b * f b * rho b) * (e b * f b * rho b) = rho b * rho b).
  { intros b Hb.
    replace (e b * f b * rho b * (e b * f b * rho b))
      with ((e b * e b) * (f b * f b) * (rho b * rho b)) by ring.
    rewrite He, Hf by lia. ring. }
  destruct (Nat.le_gt_cases (nrows uu) (ncols uu)) as [Hle|Hgt].
  - rewrite (Nat.min_l _ _ Hle) in *.
    destruct (wide_svd_facts uu u d v rho Hsvd Hle) as (H1 & H2 & H3);
      try assumption; [|repeat split; assumption].
    intros b b' Hb Hb'. destruct (decide (b = b')) as [<-|Hne].
    + rewrite (sum_n_single (ncols uu) b); [|lia|].
      2:{ intros a Ha Hna. cbv beta. rewrite (Huu b a) by assumption.
          destruct (decide (b = a)); [congruence|ring]. }
      rewrite Huu by lia. destruct (decide (b = b)); [|contradiction].
      apply Hsq. exact Hb.
    + apply sum_n_zero. intros a Ha. rewrite !Huu by assumption.
      destruct (decide (b = a)), (decide (b' = a)); try ring. congruence.
  - assert (Hle : (ncols uu <= nrows uu)%nat) by lia.
    rewrite (Nat.min_r _ _ Hle) in *.
    destruct (tall_svd_facts uu u d v rho Hsvd Hle) as (H1 & H2 & H3 & H4);
      try assumption.
    { intros b b' Hb Hb'. destruct (decide (b = b')) as [<-|Hne].
      + rewrite (sum_n_single (nrows uu) b); [|lia|].
        2:{ intros a Ha Hna. cbv beta. rewrite (Huu a b) by assumption.
            destruct (decide (a = b)); [congruence|ring]. }
        rewrite Huu by lia. destruct (decide (b = b)); [|contradiction].
        apply Hsq. exact Hb.
      + apply sum_n_zero. intros a Ha. rewrite !Huu by assumption.
        destruct (decide (a = b)), (decide (a = b')); try ring. congruence. }
    split; [exact H1|]. split.
    + intros b j Hb Hj Hne. rewrite H4, Huu by assumption.
      destruct (decide (b = j)); [contradiction|]. unfold Rdiv. ring.
    + intros j Hj. rewrite H4, Huu by lia.
      destruct (decide (j = j)); [|contradiction].
      pose proof (Hpos j Hj) as Hp. pose proof (H3 j Hj) as Hv.
      pose proof (He j ltac:(lia)) as Hej. pose proof (Hf j Hj) as Hfj.
      replace (e j * f j * rho j * mget v j j / rho j
               * (e j * f j * rho j * mget v j j / rho j))
        with ((e j * e j) * (f j * f j) * (mget v j j * mget v j j))
        by (field; lra).
      rewrite Hej, Hfj, Hv. ring.
Qed.

(** ** The buffer of a hook *)

Section HookProperties.
Context `{LinearAlgebraPrimitives}.

Lemma supported_dim_spec (t : Tensor R) :
  dim t ∈ _supported_dim <-> dim t = 2%nat \/ dim t = 4%nat.
Proof.
  unfold _supported_dim. rewrite !elem_of_cons, elem_of_nil. tauto.
Qed.

Lemma init_buffer_absent model nm cd fc h :
  __init__ model nm cd fc = Ok h -> _hooked_tensors h = None.
Proof.
  unfold __init__. intros Hi.
  destruct (is_data_parallel model); [discriminate|].
  destruct (negb _); [discriminate|].
  apply bind_Ok_inv in Hi as (f & _ & Hf).
  injection Hf as <-. reflexivity.
Qed.

(** A concatenation of two tensors of rank 2 or 4 either appends the entries
    and adds the extents along dimension 0, or raises. *)
Lemma cat0_supported (a b : Tensor R) :
  (dim a = 2%nat \/ dim a = 4%nat) ->
  (dim b = 2%nat \/ dim b = 4%nat) ->
  match cat0 a b with
  | Ok t =>
      tail (shape a) = tail (shape b)
      /\ shape t = (nth 0 (shape a) 0 + nth 0 (shape b) 0)%nat :: tail (shape a)
      /\ data t = (data a ++ data b)%list
  | NonFinite _ => False
  | Raise e => e = RuntimeError /\ tail (shape a) <> tail (shape b)
  end.
Proof.
  unfold cat0, dim. intros Ha Hb.
  destruct (decide (shape a = [0%nat])) as [E|_].
  { rewrite E in Ha. simpl in Ha. lia. }
  destruct (decide (shape b = [0%nat])) as [E|_].
  { rewrite E in Hb. simpl in Hb. lia. }
  destruct (shape a) as [|na ra]; [simpl in Ha; lia|].
  destruct (shape b) as [|nb rb]; [simpl in Hb; lia|].
  destruct (decide (ra = rb)) as [->|Hne]; simpl; auto.
Qed.

Lemma hook_keeps_supported self output d :
  buffer_supported self -> buffer_supported (hook self output d).1.
Proof.
  unfold buffer_supported, hook. intros Hs.
  destruct (bool_decide (dim output ∈ _supported_dim)) eqn:Hd; simpl; [|exact Hs].
  apply bool_decide_eq_true_1, supported_dim_spec in Hd.
  destruct (_hooked_tensors self) as [b|] eqn:Hb; simpl; [|exact Hd].
  pose proof (cat0_supported b output Hs Hd) as Hc.
  destruct (cat0 b output) as [t| |e]; simpl.
  - destruct Hc as (_ & Hsh & _). unfold dim in *. rewrite Hsh.
    destruct (shape b); simpl in *; lia.
  - destruct Hc.
  - rewrite Hb. exact Hs.
Qed.

Lemma run_op_keeps_supported self op :
  buffer_supported self -> buffer_supported (run_op self op).
Proof.
  destruct op; simpl; auto using hook_keeps_supported.
  intros _. exact I.
Qed.

(** C8. The buffer of a hook is absent when the hook is attached; a capture
    event with a tensor of rank 2 or 4 initialises an absent buffer to that
    tensor, and extends a present buffer by the entries of the tensor along
    dimension 0 (or raises and leaves the buffer as it was, when the
    trailing extents differ); no operation other than [clear] makes a
    present buffer absent, and [clear] makes it absent. *)
Theorem hook_buffer_lifecycle (self : SimilarityHook) (output : Tensor R)
    (d : Device) :
  buffer_supported self ->
  dim output = 2%nat \/ dim output = 4%nat ->
  (forall model nm cd fc h,
      __init__ model nm cd fc = Ok h -> _hooked_tensors h = None)
  /\ match _hooked_tensors self with
     | None =>
         hook self output d = (set_hooked_tensors (set_device self (Some d))
                                 (Some output), Ok tt)
     | Some buffer =>
         (tail (shape buffer) = tail (shape output) ->
          (hook self output d).2 = Ok tt
          /\ _hooked_tensors (hook self output d).1
             = Some (mkTensor
                       ((nth 0 (shape buffer) 0 + nth 0 (shape output) 0)%nat
                          :: tail (shape buffer))
                       (data buffer ++ data output)%list))
         /\ (tail (shape buffer) <> tail (shape output) ->
             (hook self output d).2 = Raise RuntimeError
             /\ _hooked_tensors (hook self output d).1 = Some buffer)
     end
  /\ (forall op, op <> OpClear ->
        is_Some (_hooked_tensors self) ->
        is_Some (_hooked_tensors (run_op self op)))
  /\ _hooked_tensors (clear self) = None.
Proof.
  intros Hs Hd. split; [exact init_buffer_absent|].
  assert (Hin : bool_decide (dim output ∈ _supported_dim) = true).
  { apply bool_decide_eq_true_2, supported_dim_spec, Hd. }
  split; [|split].
  - unfold hook. rewrite Hin. simpl.
    unfold buffer_supported in Hs.
    destruct (_hooked_tensors self) as [b|] eqn:Hb; [|reflexivity].
    pose proof (cat0_supported b output Hs Hd) as Hc.
    destruct (cat0 b output) as [t| |e]; simpl.
    + destruct Hc as (Ht & Hsh & Hda). split; [|tauto].
      intros _. split; [reflexivity|]. f_equal.
      destruct t as [sh da]. simpl in *. congruence.
    + destruct Hc.
    + destruct Hc as [-> Hne]. split; [tauto|]. intros _. auto.
  - intros op Hop Hsome. destruct op; simpl; auto; [|congruence].
    unfold hook.
    destruct (bool_decide (dim output0 ∈ _supported_dim)); simpl; auto.
    destruct (_hooked_tensors self) as [b|] eqn:Hb; simpl; [|eauto].
    destruct (cat0 b output0); simpl; eauto.
  - reflexivity.
Qed.

(** C1. With rank-4 buffers of equal extent along dimension 0 and the
    default [effecive_neuron_type = "filter"], [distance] takes the branch
    that holds only [pass] and falls off the end of the function: the call
    returns [None], whatever the buffers hold and whatever distance function
    the hook was built with. *)
Theorem distance_filter_rank4_returns_none (self other : SimilarityHook)
    (self_tensor other_tensor : Tensor R)
    (downsample_method : option string) (size_ : option nat) :
  _hooked_tensors self = Some self_tensor ->
  _hooked_tensors other = Some other_tensor ->
  dim self_tensor = 4%nat ->
  dim other_tensor = 4%nat ->
  nth 0 (shape self_tensor) 0%nat = nth 0 (shape other_tensor) 0%nat ->
  distance self other downsample_method size_ "filter" = Ok PyNone.
Proof.
  intros Hs Ho Hds Hdo Hn. unfold distance, hooked_tensors.
  rewrite Hs, Ho. simpl. unfold size, wrap_index. rewrite Hds, Hdo. simpl.
  destruct (decide _) as [Hne|_]; [exfalso; apply Hne; exact Hn|reflexivity].
Qed.

End HookProperties.

(** ** Canonical correlation analysis *)

(** C3. When the row counts of [x] and [y] differ, [cca] raises the
    assertion error on the number of data points, for every backend string
    and for every implementation of the decompositions, also one that would
    itself fail: the error comes before any decomposition and before the
    warning, and nothing is returned. *)
Theorem cca_row_mismatch_raises `{LinearAlgebraPrimitives}
    (x y : Matrix) (backend : string) :
  nrows x <> nrows y ->
  cca x y backend = Raise AssertionError /\ cca_warns x y = false.
Proof.
  intros Hne. unfold cca, cca_warns, py_assert.
  rewrite (bool_decide_eq_false_2 _ Hne). split; reflexivity.
Qed.

Lemma cca_row_mismatch_raises_witness :
  let x := mk_mat 5 2 (fun i j => INR (i + j)) in
  let y := mk_mat 7 3 (fun i j => INR (i * j)) in
  cca (H := failing_primitives) x y "svd" = Raise AssertionError
  /\ cca_warns x y = false.
Proof.
  intros x y.
  apply (cca_row_mismatch_raises (H := failing_primitives) x y "svd").
  simpl. lia.
Defined.


(** ** SVD reduction *)

Lemma vget_abs_nonneg (v : Vector) (i : nat) : 0 <= vget (map Rabs v) i.
Proof.
  unfold vget. destruct (decide (i < length (map Rabs v))%nat) as [Hi|Hi].
  - rewrite length_map in Hi.
    rewrite (nth_indep _ 0 (Rabs 0)) by (rewrite length_map; exact Hi).
    rewrite map_nth. apply Rabs_pos.
  - rewrite nth_overflow by lia. lra.
Qed.

Lemma mass_share_mono (diag : Vector) (j k : nat) :
  0 < vsum (map Rabs diag) -> (j <= k)%nat ->
  mass_share diag j <= mass_share diag k.
Proof.
  intros Hfull Hjk. unfold mass_share.
  apply Rmult_le_compat_r; [left; apply Rinv_0_lt_compat, Hfull|].
  apply sum_n_mono; [apply vget_abs_nonneg|exact Hjk].
Qed.

Lemma vsum_abs_nonneg (v : Vector) : 0 <= vsum (map Rabs v).
Proof. apply sum_n_nonneg. intros. apply vget_abs_nonneg. Qed.

(** The ratios that [_svd_reduction] compares with [accept_rate]. *)
Lemma ratio_lookup (diag : Vector) (i : nat) :
  (i < length diag)%nat ->
  map (fun c => c / vsum (map Rabs diag)) (cumsum (map Rabs diag)) !! i
  = Some (mass_share diag (S i)).
Proof.
  intros Hi. unfold cumsum, mk_vec. rewrite length_map.
  rewrite list_lookup_fmap, list_lookup_fmap.
  rewrite lookup_seq_lt by exact Hi. reflexivity.
Qed.

Lemma ratio_length (diag : Vector) :
  length (map (fun c => c / vsum (map Rabs diag)) (cumsum (map Rabs diag)))
  = length diag.
Proof.
  unfold cumsum, mk_vec. rewrite !length_map, length_seq. reflexivity.
Qed.

Lemma filter_below_none (a : R) (l : list R) :
  (forall i x, l !! i = Some x -> a <= x) -> filter (fun r => r < a) l = [].
Proof.
  induction l as [|x0 l IH]; intros Hall; [reflexivity|].
  rewrite filter_cons_False.
  - apply IH. intros i x Hl. apply (Hall (S i) x Hl).
  - specialize (Hall 0%nat x0 eq_refl). lra.
Qed.

(** Counting the entries below a bound in a list whose entries do not
    decrease: the entries counted are a prefix. *)
Lemma count_below_prefix (a : R) (l : list R) :
  (forall i j x y, (i <= j)%nat -> l !! i = Some x -> l !! j = Some y -> x <= y) ->
  let n := length (filter (fun r => r < a) l) in
  (forall i x, l !! i = Some x -> (i < n)%nat -> x < a)
  /\ (forall i x, l !! i = Some x -> (n <= i)%nat -> a <= x).
Proof.
  induction l as [|x0 l IH]; intros Hs; simpl.
  { split; intros i x Hl; rewrite lookup_nil in Hl; discriminate. }
  assert (Hs' : forall i j x y, (i <= j)%nat ->
                  l !! i = Some x -> l !! j = Some y -> x <= y).
  { intros i j x y Hij Hx Hy. apply (Hs (S i) (S j) x y); [lia|exact Hx|exact Hy]. }
  specialize (IH Hs'). simpl in IH. destruct IH as [IH1 IH2].
  rewrite filter_cons. destruct (decide (x0 < a)) as [Hlt|Hge]; simpl.
  - split; intros [|i] x Hl Hi; simpl in Hl.
    + injection Hl as <-. exact Hlt.
    + apply (IH1 i x Hl). lia.
    + lia.
    + apply (IH2 i x Hl). lia.
  - assert (Hall : forall i x, l !! i = Some x -> a <= x).
    { intros i x Hl. specialize (Hs 0%nat (S i) x0 x). simpl in Hs.
      assert (x0 <= x) by (apply Hs; [lia|reflexivity|exact Hl]). lra. }
    assert (Hnil : filter (fun r => r < a) l = []).
    { apply filter_below_none, Hall. }
    rewrite Hnil. simpl. split; intros [|i] x Hl Hi; simpl in Hl.
    + lia.
    + lia.
    + injection Hl as <-. lra.
    + eapply Hall, Hl.
Qed.

(** What [num] is: the directions counted are the leading ones, each prefix
    of them holds less than [accept_rate] of the mass, and one more
    direction reaches it. *)
Lemma _svd_reduction_num_spec (diag : Vector) (accept_rate : R) :
  vsum (map Rabs diag) <> 0 ->
  let num := _svd_reduction_num diag accept_rate in
  (num <= length diag)%nat
  /\ (forall k, (k < num)%nat -> mass_share diag (S k) < accept_rate)
  /\ ((num < length diag)%nat -> accept_rate <= mass_share diag (S num)).
Proof.
  intros Hfull. unfold _svd_reduction_num.
  destruct (decide (vsum (map Rabs diag) = 0)) as [E|_]; [contradiction|].
  assert (Hpos : 0 < vsum (map Rabs diag)).
  { pose proof (vsum_abs_nonneg diag). lra. }
  set (ratio := map (fun c => c / vsum (map Rabs diag)) (cumsum (map Rabs diag))).
  destruct (count_below_prefix accept_rate ratio) as [H1 H2].
  { intros i j x y Hij Hx Hy.
    assert (Hj : (j < length diag)%nat).
    { apply lookup_lt_Some in Hy. unfold ratio in Hy.
      rewrite ratio_length in Hy. exact Hy. }
    unfold ratio in Hx, Hy.
    rewrite ratio_lookup in Hx by lia. rewrite ratio_lookup in Hy by lia.
    injection Hx as <-. injection Hy as <-.
    apply mass_share_mono; [exact Hpos|lia]. }
  simpl. split; [|split].
  - rewrite <- (ratio_length diag). apply length_filter.
  - intros k Hk.
    assert (Hkl : (k < length diag)%nat).
    { pose proof (length_filter (fun r => r < accept_rate) ratio) as Hl.
      unfold ratio in Hl at 2. rewrite ratio_length in Hl. lia. }
    apply (H1 k); [apply ratio_lookup, Hkl|exact Hk].
  - intros Hn. apply (H2 (length (filter (fun r => r < accept_rate) ratio))).
    + apply ratio_lookup, Hn.
    + lia.
Qed.

(** C2. The number [num] of directions that [_svd_reduction] retains is one
    less than the number the claim describes: whenever the singular values
    are not all zero and [accept_rate] is positive and reachable, the
    smallest number of leading directions whose share of the mass reaches
    [accept_rate] is [num + 1], and the [num] retained directions hold
    strictly less than [accept_rate]. *)
Theorem svd_reduction_retains_one_less (diag : Vector) (accept_rate : R) :
  vsum (map Rabs diag) <> 0 ->
  0 < accept_rate ->
  (_svd_reduction_num diag accept_rate < length diag)%nat ->
  smallest_reaching diag accept_rate (S (_svd_reduction_num diag accept_rate))
  /\ mass_share diag (_svd_reduction_num diag accept_rate) < accept_rate.
Proof.
  intros Hfull Ha Hlt.
  destruct (_svd_reduction_num_spec diag accept_rate Hfull) as (Hle & H1 & H2).
  set (num := _svd_reduction_num diag accept_rate) in *.
  assert (Hnum : forall j, (j <= num)%nat -> mass_share diag j < accept_rate).
  { intros [|j] Hj.
    - unfold mass_share. simpl. lra.
    - apply H1. lia. }
  split; [split|].
  - apply H2, Hlt.
  - intros j Hj. apply Hnum. lia.
  - apply Hnum. lia.
Qed.

Lemma svd_reduction_retains_one_less_witness :
  _svd_reduction_num [3; 1] (1 / 2) = 0%nat
  /\ smallest_reaching [3; 1] (1 / 2) 1.
Proof.
  assert (Hfull : vsum (map Rabs [3; 1]) = 4).
  { unfold vsum, vget. simpl. rewrite !Rabs_pos_eq by lra. lra. }
  assert (Hnum : _svd_reduction_num [3; 1] (1 / 2) = 0%nat).
  { unfold _svd_reduction_num. rewrite Hfull.
    destruct (decide (4 = 0)) as [E|_]; [lra|].
    unfold cumsum, mk_vec, vget. simpl. rewrite !Rabs_pos_eq by lra.
    rewrite !filter_cons, filter_nil.
    destruct (decide (_ < _)) as [E|_]; [exfalso; lra|].
    destruct (decide (_ < _)) as [E|_]; [exfalso; lra|].
    reflexivity. }
  split; [exact Hnum|].
  destruct (svd_reduction_retains_one_less [3; 1] (1 / 2)) as [Hs _].
  - rewrite Hfull. lra.
  - lra.
  - rewrite Hnum. simpl. lia.
  - rewrite Hnum in Hs. exact Hs.
Defined.

(** As [accept_rate] approaches 0 the retained dimensionality is 0: below the
    share of the first direction nothing is counted. *)
Lemma svd_reduction_num_small_accept_rate (diag : Vector) (accept_rate : R) :
  vsum (map Rabs diag) <> 0 ->
  accept_rate <= mass_share diag 1 ->
  _svd_reduction_num diag accept_rate = 0%nat.
Proof.
  intros Hfull Ha.
  destruct (_svd_reduction_num_spec diag accept_rate Hfull) as (Hle & H1 & H2).
  destruct (_svd_reduction_num diag accept_rate) as [|n] eqn:E; [reflexivity|].
  assert (Hpos : 0 < vsum (map Rabs diag)).
  { pose proof (vsum_abs_nonneg diag). lra. }
  assert (mass_share diag (S n) < accept_rate) by (apply H1; lia).
  assert (mass_share diag 1 <= mass_share diag (S n)).
  { apply mass_share_mono; [exact Hpos|lia]. }
  lra.
Qed.


(** ** Rolls along an axis *)

Section Rolls.
Context {A : Type}.
Implicit Types (t : Tensor A) (l b : list A).

Lemma rotate_rotate_inverse b (k1 k2 : nat) :
  ((k1 + k2) mod length b = 0)%nat -> rotate k2 (rotate k1 b) = b.
Proof.
  intros Hk. destruct (decide (length b = 0%nat)) as [E|Hpos].
  { destruct b; [|discriminate].
    assert (Hnil : forall k, rotate k (@nil A) = []).
    { intros k. unfold rotate. rewrite drop_nil, take_nil. reflexivity. }
    rewrite !Hnil. reflexivity. }
  unfold rotate at 2. unfold rotate. rewrite length_app, length_drop, length_take.
  pose proof (Nat.mod_upper_bound k1 (length b) Hpos) as Ha.
  pose proof (Nat.mod_upper_bound k2 (length b) Hpos) as Hc.
  set (a := (k1 mod length b)%nat) in *.
  replace (length b - a + a `min` length b)%nat with (length b) by lia.
  set (c := (k2 mod length b)%nat) in *.
  assert (Hac : (a + c = 0 \/ a + c = length b)%nat).
  { assert (Hm : ((a + c) mod length b = 0)%nat).
    { unfold a, c. rewrite <- Nat.Div0.add_mod. exact Hk. }
    destruct (decide (a + c < length b)%nat) as [Hlt|Hge].
    - rewrite Nat.mod_small in Hm by exact Hlt. left. exact Hm.
    - right.
      assert (Hsub : ((a + c - length b) mod length b = 0)%nat).
      { rewrite <- Hm. symmetry.
        replace (a + c)%nat with ((a + c - length b) + 1 * length b)%nat at 1 by lia.
        apply Nat.Div0.mod_add. }
      rewrite Nat.mod_small in Hsub by lia. lia. }
  destruct Hac as [H0|HL].
  - assert (a = 0%nat) by lia. assert (c = 0%nat) by lia. subst a c.
    replace (k1 mod length b)%nat with 0%nat by lia.
    replace (k2 mod length b)%nat with 0%nat by lia.
    rewrite !drop_0, !take_0, !app_nil_r. reflexivity.
  - rewrite drop_app_length' by (rewrite length_drop; lia).
    rewrite take_app_length' by (rewrite length_drop; lia).
    apply take_drop.
Qed.

Lemma reshape_concat (bs : list (list A)) (L : nat) :
  Forall (fun b => length b = L) bs ->
  reshape (replicate (length bs) L) (concat bs) = bs.
Proof.
  induction 1 as [|b bs Hb _ IH]; [reflexivity|]. simpl.
  rewrite take_app_length', drop_app_length' by (symmetry; exact Hb).
  rewrite IH. reflexivity.
Qed.

Lemma concat_reshape l (outer L : nat) :
  length l = (outer * L)%nat ->
  concat (reshape (replicate outer L) l) = l.
Proof.
  revert l. induction outer as [|outer IH]; intros l Hl; simpl.
  - destruct l; [reflexivity|discriminate].
  - rewrite IH by (rewrite length_drop; lia). apply take_drop.
Qed.

Lemma reshape_lengths l (outer L : nat) :
  length l = (outer * L)%nat ->
  Forall (fun b => length b = L) (reshape (replicate outer L) l).
Proof.
  revert l. induction outer as [|outer IH]; intros l Hl; simpl; constructor.
  - rewrite length_take. lia.
  - apply IH. rewrite length_drop. lia.
Qed.

Lemma numel_app (sh1 sh2 : list nat) :
  numel (sh1 ++ sh2) = (numel sh1 * numel sh2)%nat.
Proof.
  induction sh1 as [|n sh1 IH]; simpl; [lia|]. rewrite IH. lia.
Qed.

Lemma numel_split (sh : list nat) (d : nat) :
  (d < length sh)%nat ->
  numel sh
  = (numel (take d sh) * (nth d sh 0 * numel (drop (S d) sh)))%nat.
Proof.
  revert sh. induction d as [|d IH]; intros [|n sh] Hd; simpl in Hd; try lia.
  - unfold numel. simpl. rewrite drop_0. lia.
  - change (numel (n :: sh)) with (n * numel sh)%nat.
    change (take (S d) (n :: sh)) with (n :: take d sh).
    change (numel (n :: take d sh)) with (n * numel (take d sh))%nat.
    change (nth (S d) (n :: sh) 0%nat) with (nth d sh 0%nat).
    change (drop (S (S d)) (n :: sh)) with (drop (S d) sh).
    rewrite (IH sh) at 1 by lia. ring.
Qed.

Lemma roll1_shape t (s : Z) (d : nat) : shape (roll1 t s d) = shape t.
Proof. reflexivity. Qed.

Lemma roll1_well_formed t (s : Z) (d : nat) :
  well_formed t -> (d < dim t)%nat -> well_formed (roll1 t s d).
Proof.
  unfold well_formed, roll1, dim. simpl. intros Hwf Hd.
  rewrite (numel_split (shape t) d Hd) in Hwf.
  pose proof (reshape_lengths (data t) _ _ Hwf) as Hl.
  rewrite (numel_split (shape t) d Hd).
  set (L := (nth d (shape t) 0 * numel (drop (S d) (shape t)))%nat) in *.
  set (bs := reshape _ (data t)) in *.
  assert (Hn : length bs = numel (take d (shape t))).
  { unfold bs. rewrite length_reshape, length_replicate. reflexivity. }
  rewrite <- Hn. clear Hn. induction Hl as [|b bs' Hb _ IH]; simpl; [reflexivity|].
  rewrite length_app, length_rotate, IH, Hb. reflexivity.
Qed.

(** Two rolls along the same axis whose shifts add up to a multiple of the
    extent cancel. *)
Lemma roll1_roll1 t (s1 s2 : Z) (d : nat) :
  well_formed t -> (d < dim t)%nat ->
  ((s1 + s2) mod Z.of_nat (nth d (shape t) 0%nat) = 0)%Z ->
  roll1 (roll1 t s1 d) s2 d = t.
Proof.
  intros Hwf Hd Hs. destruct t as [sh da]. unfold well_formed, dim in *.
  simpl in *. unfold roll1. simpl. f_equal.
  rewrite (numel_split sh d Hd) in Hwf.
  set (n := nth d sh 0%nat) in *. set (inner := numel (drop (S d) sh)) in *.
  set (outer := numel (take d sh)) in *.
  pose proof (reshape_lengths da outer (n * inner) Hwf) as Hl.
  set (bs := reshape (replicate outer (n * inner)%nat) da) in *.
  assert (Hn : length bs = outer).
  { unfold bs. rewrite length_reshape, length_replicate. reflexivity. }
  rewrite <- (concat_reshape da outer (n * inner) Hwf) at 1. fold bs.
  set (k1 := ((n - Z.to_nat (s1 mod Z.of_nat n)) * inner)%nat).
  set (k2 := ((n - Z.to_nat (s2 mod Z.of_nat n)) * inner)%nat).
  assert (Hl1 : Forall (fun b => length b = (n * inner)%nat) (map (rotate k1) bs)).
  { clear -Hl. induction Hl; simpl; constructor; [|assumption].
    rewrite length_rotate. assumption. }
  replace outer with (length (map (rotate k1) bs)) by (rewrite length_map; exact Hn).
  rewrite (reshape_concat _ _ Hl1). f_equal.
  rewrite map_map.
  clear Hl1 Hn. induction Hl as [|b bs' Hb _ IH]; simpl; [reflexivity|].
  rewrite IH. f_equal. apply rotate_rotate_inverse. rewrite Hb.
  destruct (decide (n = 0%nat)) as [->|Hn0]; [reflexivity|].
  assert (Hnz : (0 < Z.of_nat n)%Z) by lia.
  pose proof (Z.mod_pos_bound s1 (Z.of_nat n) Hnz) as B1.
  pose proof (Z.mod_pos_bound s2 (Z.of_nat n) Hnz) as B2.
  assert (Hsum : ((s1 mod Z.of_nat n + s2 mod Z.of_nat n) mod Z.of_nat n = 0)%Z).
  { rewrite <- Z.add_mod by lia. exact Hs. }
  assert (Hcases : (s1 mod Z.of_nat n + s2 mod Z.of_nat n = 0
                    \/ s1 mod Z.of_nat n + s2 mod Z.of_nat n = Z.of_nat n)%Z).
  { destruct (decide (s1 mod Z.of_nat n + s2 mod Z.of_nat n < Z.of_nat n)%Z)
      as [Hlt|Hge].
    - rewrite Z.mod_small in Hsum by lia. left. exact Hsum.
    - right.
      assert (Hsub : ((s1 mod Z.of_nat n + s2 mod Z.of_nat n - Z.of_nat n)
                      mod Z.of_nat n = 0)%Z).
      { rewrite <- Hsum. symmetry.
        replace (s1 mod Z.of_nat n + s2 mod Z.of_nat n)%Z
          with ((s1 mod Z.of_nat n + s2 mod Z.of_nat n - Z.of_nat n)
                + 1 * Z.of_nat n)%Z at 1 by lia.
        apply Z.mod_add. lia. }
      rewrite Z.mod_small in Hsub by lia. lia. }
  unfold k1, k2.
  destruct Hcases as [H0|HL].
  - replace ((n - Z.to_nat (s1 mod Z.of_nat n)) * inner
             + (n - Z.to_nat (s2 mod Z.of_nat n)) * inner)%nat
      with (2 * (n * inner))%nat by nia.
    apply Nat.Div0.mod_mul.
  - replace ((n - Z.to_nat (s1 mod Z.of_nat n)) * inner
             + (n - Z.to_nat (s2 mod Z.of_nat n)) * inner)%nat
      with (1 * (n * inner))%nat by nia.
    apply Nat.Div0.mod_mul.
Qed.

End Rolls.

(** ** Shifts of the spectrum *)

(** C6. On a tensor with an odd extent along a shifted axis, [fft_shift]
    followed by [ifft_shift] (and [ifft_shift] followed by [fft_shift]) does
    not give the tensor back: [ifft_shift] rolls by [(-3) // 2 = -2] where
    [fft_shift] rolled by [3 // 2 = 1], which leaves a roll by one position. *)
Theorem fft_ifft_shift_odd_extent :
  let t := mkTensor [1; 3; 1; 2]%nat [0; 1; 2; 3; 4; 5]%nat in
  let t' := mkTensor [1; 3; 1; 2]%nat [2; 3; 4; 5; 0; 1]%nat in
  (s ← fft_shift t None; ifft_shift s None) = Ok t'
  /\ (s ← ifft_shift t None; fft_shift s None) = Ok t'
  /\ t' <> t.
Proof.
  split; [|split]; [vm_compute; reflexivity..|discriminate].
Qed.

Lemma half_shifts_cancel (n : nat) :
  Nat.Even n -> ((Z.of_nat n / 2 + (- Z.of_nat n) / 2) mod Z.of_nat n = 0)%Z.
Proof.
  intros [k ->]. rewrite Nat2Z.inj_mul. change (Z.of_nat 2) with 2%Z.
  replace (- (2 * Z.of_nat k))%Z with (2 * (- Z.of_nat k))%Z by lia.
  rewrite !(Z.mul_comm 2), !Z.div_mul by lia.
  replace (Z.of_nat k + - Z.of_nat k)%Z with 0%Z by lia. apply Zmod_0_l.
Qed.

Lemma roll1_without_entries {A} (t : Tensor A) (s : Z) (d : nat) :
  well_formed t -> numel (shape t) = 0%nat -> roll1 t s d = t.
Proof.
  intros Hwf Hz. unfold well_formed in Hwf. rewrite Hz in Hwf.
  destruct t as [sh da]. simpl in *. destruct da; [|discriminate].
  unfold roll1. simpl. f_equal.
  induction (numel (take d sh)) as [|k IH]; [reflexivity|].
  simpl. rewrite take_nil, drop_nil. simpl.
  assert (E : forall j, rotate j (@nil A) = []).
  { intros j. unfold rotate. rewrite drop_nil, take_nil. reflexivity. }
  rewrite E. exact IH.
Qed.

Lemma roll_one_valid {A} (t : Tensor A) (s : Z) (d : nat) :
  well_formed t -> (d < dim t)%nat ->
  roll_one t s (Z.of_nat d) = Ok (roll1 t s d).
Proof.
  intros Hwf Hd. unfold roll_one.
  destruct (decide (numel (shape t) = 0%nat)) as [Hz|_].
  - rewrite roll1_without_entries by assumption. reflexivity.
  - unfold wrap_index.
    destruct (decide (0 <= Z.of_nat d < Z.of_nat (dim t))%Z) as [_|F]; [|lia].
    rewrite bind_Ok, Nat2Z.id. reflexivity.
Qed.

Lemma fft_shift_rank4 {A} (t : Tensor A) (c h w last : nat) :
  well_formed t ->
  shape t = [c; h; w; last] ->
  fft_shift t None
  = Ok (roll1 (roll1 t (Z.of_nat h / 2) 1) (Z.of_nat w / 2) 2).
Proof.
  intros Hwf Hsh.
  assert (Hd : dim t = 4%nat) by (unfold dim; rewrite Hsh; reflexivity).
  unfold fft_shift. rewrite Hd. simpl. unfold size, wrap_index. rewrite Hd. simpl.
  rewrite Hsh. simpl. unfold roll. simpl.
  change 1%Z with (Z.of_nat 1). change 2%Z with (Z.of_nat 2).
  rewrite roll_one_valid by (assumption || lia). rewrite bind_Ok.
  rewrite roll_one_valid;
    [reflexivity|apply roll1_well_formed; [assumption|lia]|].
  unfold dim. rewrite roll1_shape. fold (dim t). lia.
Qed.

Lemma ifft_shift_rank4 {A} (t : Tensor A) (c h w last : nat) :
  well_formed t ->
  shape t = [c; h; w; last] ->
  ifft_shift t None
  = Ok (roll1 (roll1 t ((- Z.of_nat w) / 2) 2) ((- Z.of_nat h) / 2) 1).
Proof.
  intros Hwf Hsh.
  assert (Hd : dim t = 4%nat) by (unfold dim; rewrite Hsh; reflexivity).
  unfold ifft_shift. rewrite Hd. simpl. unfold size, wrap_index. rewrite Hd. simpl.
  rewrite Hsh. simpl. unfold roll. simpl.
  change 1%Z with (Z.of_nat 1). change 2%Z with (Z.of_nat 2).
  rewrite roll_one_valid by (assumption || lia). rewrite bind_Ok.
  rewrite roll_one_valid;
    [reflexivity|apply roll1_well_formed; [assumption|lia]|].
  unfold dim. rewrite roll1_shape. fold (dim t). lia.
Qed.

(** X23. On a well-formed tensor of rank 4 whose two shifted extents are
    even, the two shifts cancel, in either order: the rolls of [ifft_shift]
    undo those of [fft_shift] axis by axis. *)
Theorem fft_ifft_shift_even_extents {A} (t : Tensor A) (c h w last : nat) :
  well_formed t -> shape t = [c; h; w; last] -> Nat.Even h -> Nat.Even w ->
  (s ← fft_shift t None; ifft_shift s None) = Ok t
  /\ (s ← ifft_shift t None; fft_shift s None) = Ok t.
Proof.
  intros Hwf Hsh Hh Hw.
  assert (Hd1 : (1 < dim t)%nat) by (unfold dim; rewrite Hsh; simpl; lia).
  assert (Hd2 : (2 < dim t)%nat) by (unfold dim; rewrite Hsh; simpl; lia).
  pose proof (half_shifts_cancel h Hh) as Ch.
  pose proof (half_shifts_cancel w Hw) as Cw.
  split.
  - rewrite (fft_shift_rank4 t c h w last Hwf Hsh). simpl.
    rewrite (ifft_shift_rank4 _ c h w last);
      [|apply roll1_well_formed; [apply roll1_well_formed; assumption|exact Hd2]
       |exact Hsh].
    rewrite (roll1_roll1 (roll1 t _ 1) _ _ 2).
    + rewrite (roll1_roll1 t _ _ 1); [reflexivity|assumption|assumption|].
      rewrite Hsh. exact Ch.
    + apply roll1_well_formed; assumption.
    + exact Hd2.
    + rewrite roll1_shape, Hsh. exact Cw.
  - rewrite (ifft_shift_rank4 t c h w last Hwf Hsh). simpl.
    rewrite (fft_shift_rank4 _ c h w last);
      [|apply roll1_well_formed; [apply roll1_well_formed; assumption|exact Hd1]
       |exact Hsh].
    rewrite (roll1_roll1 (roll1 t _ 2) _ _ 1).
    + rewrite (roll1_roll1 t _ _ 2); [reflexivity|assumption|assumption|].
      rewrite Hsh. rewrite Z.add_comm. exact Cw.
    + apply roll1_well_formed; assumption.
    + exact Hd1.
    + rewrite roll1_shape, Hsh. rewrite Z.add_comm. exact Ch.
Qed.


(** ** Linear CKA *)

Section LinearCKA.
Context `{LinearAlgebraPrimitives}.

Lemma debiased_Ok (z : R) (sx sy : Vector) (qx qy : R) (size_ : Z) :
  size_ <> 1%Z -> size_ <> 2%Z -> length sx = length sy ->
  _debiased_dot_product_similarity z sx sy qx qy size_
  = Ok (z - IZR size_ / IZR (size_ - 2)
              * sum_n (length sx) (fun k => vget sx k * vget sy k)
          + qx * qy / IZR ((size_ - 1) * (size_ - 2))).
Proof.
  intros Hs1 Hs2 Hl. unfold _debiased_dot_product_similarity, py_div, dot, tdiv.
  destruct (decide (IZR (size_ - 2) = 0)) as [E|_].
  { apply eq_IZR_R0 in E. lia. }
  destruct (decide (length sx = length sy)) as [_|E]; [|contradiction].
  destruct (decide (IZR ((size_ - 1) * (size_ - 2)) = 0)) as [E|_].
  { apply eq_IZR_R0 in E. nia. }
  reflexivity.
Qed.

Lemma debiased_two (z : R) (sx sy : Vector) (qx qy : R) :
  _debiased_dot_product_similarity z sx sy qx qy 2 = Raise ZeroDivisionError.
Proof.
  unfold _debiased_dot_product_similarity, py_div.
  destruct (decide (IZR (2 - 2) = 0)) as [_|E]; [reflexivity|].
  exfalso. apply E. reflexivity.
Qed.

Lemma debiased_one (z : R) (sx sy : Vector) (qx qy : R) :
  length sx = length sy ->
  exists r, _debiased_dot_product_similarity z sx sy qx qy 1 = NonFinite r.
Proof.
  intros Hl. unfold _debiased_dot_product_similarity, py_div, dot, tdiv.
  destruct (decide (IZR (1 - 2) = 0)) as [E|_].
  { apply eq_IZR_R0 in E. discriminate. }
  destruct (decide (length sx = length sy)) as [_|E]; [|contradiction].
  destruct (decide (IZR ((1 - 1) * (1 - 2)) = 0)) as [_|E].
  - eexists. reflexivity.
  - exfalso. apply E. reflexivity.
Qed.

Lemma debiased_never_raises_but_two (z : R) (sx sy : Vector) (qx qy : R) (size_ : Z) :
  size_ <> 2%Z -> length sx = length sy ->
  forall e, _debiased_dot_product_similarity z sx sy qx qy size_ <> Raise e.
Proof.
  intros Hs Hl e. unfold _debiased_dot_product_similarity, py_div, dot, tdiv.
  destruct (decide (IZR (size_ - 2) = 0)) as [E|_].
  { apply eq_IZR_R0 in E. lia. }
  destruct (decide (length sx = length sy)) as [_|E]; [|contradiction].
  simpl. destruct (decide _); discriminate.
Qed.

Lemma bind_NonFinite {A B} (a : A) (f : A -> result B) :
  (forall e, f a <> Raise e) -> exists b, NonFinite a ≫= f = NonFinite b.
Proof.
  intros Hf. unfold mbind, result_bind.
  destruct (f a) as [b|b|e]; [eauto..|]. destruct (Hf e). reflexivity.
Qed.

Lemma tdiv_never_raises (a c : R) (e : exn) : tdiv a c <> Raise e.
Proof. unfold tdiv. destruct (decide _); discriminate. Qed.

Lemma einsum_row_sq_length (x : Matrix) : length (einsum_row_sq x) = nrows x.
Proof. apply length_mk_vec. Qed.

(** The entries of a product with no inner dimension, and of a product of
    zero matrices, are zero. *)
Lemma frobenius_zero (m : Matrix) :
  (forall i j, (i < nrows m)%nat -> (j < ncols m)%nat -> mget m i j = 0) ->
  frobenius m = 0.
Proof.
  intros Hz. unfold frobenius. rewrite <- sqrt_0. f_equal.
  apply sum_n_zero. intros i Hi. apply sum_n_zero. intros j Hj.
  rewrite Hz by assumption. lra.
Qed.

(** The state of [linear_cka_distance] after the centering, the check of the
    row counts and the three Frobenius norms. *)
Lemma linear_cka_unfold (x y : Matrix) (reduce_bias : bool) :
  nrows x = nrows y ->
  exists xc yc yx xx yy,
    _zero_mean x 0 = Ok xc /\ _zero_mean y 0 = Ok yc
    /\ nrows xc = nrows x /\ nrows yc = nrows x
    /\ ncols xc = ncols x /\ ncols yc = ncols y
    /\ (forall i j, (i < nrows x)%nat -> (j < ncols x)%nat ->
          mget xc i j = centered x i j)
    /\ (forall i j, (i < nrows x)%nat -> (j < ncols y)%nat ->
          mget yc i j = centered y i j)
    /\ matmul (transpose yc) xc = Ok yx
    /\ matmul (transpose xc) xc = Ok xx
    /\ matmul (transpose yc) yc = Ok yy
    /\ linear_cka_distance x y reduce_bias
       = if reduce_bias then
           let size_ := Z.of_nat (nrows x) in
           let sum_row_x := einsum_row_sq xc in
           let sum_row_y := einsum_row_sq yc in
           let sq_norm_x := vsum sum_row_x in
           let sq_norm_y := vsum sum_row_y in
           dot_prod ← _debiased_dot_product_similarity
                        (frobenius yx ^ 2) sum_row_x sum_row_y sq_norm_x sq_norm_y size_;
           norm_x ← _debiased_dot_product_similarity
                      (frobenius xx ^ 2) sum_row_x sum_row_y sq_norm_x sq_norm_y size_;
           norm_y ← _debiased_dot_product_similarity
                      (frobenius yy ^ 2) sum_row_x sum_row_y sq_norm_x sq_norm_y size_;
           q ← tdiv dot_prod (norm_x * norm_y);
           Ok (1 - q)
         else
           q ← tdiv (frobenius yx ^ 2) (frobenius xx * frobenius yy);
           Ok (1 - q).
Proof.
  intros Hr.
  eexists _, _, _, _, _.
  split; [apply _zero_mean_rows|]. split; [apply _zero_mean_rows|].
  split; [reflexivity|]. split; [simpl; congruence|].
  split; [reflexivity|]. split; [reflexivity|].
  split; [intros; rewrite mget_mk_mat by lia; reflexivity|].
  split; [intros; rewrite mget_mk_mat by lia; reflexivity|].
  split; [apply matmul_Ok; simpl; congruence|].
  split; [apply matmul_Ok; reflexivity|].
  split; [apply matmul_Ok; reflexivity|].
  unfold linear_cka_distance. rewrite !_zero_mean_rows. rewrite !bind_Ok.
  destruct (decide _) as [Hne|_]; [simpl in Hne; congruence|].
  rewrite !matmul_Ok by (simpl; congruence). rewrite !bind_Ok.
  reflexivity.
Qed.


Lemma frobenius_gram (n : nat) (a b ac bc m : Matrix) :
  nrows ac = n -> nrows bc = n -> nrows a = n ->
  ncols ac = ncols a -> ncols bc = ncols b ->
  (forall i j, (i < n)%nat -> (j < ncols a)%nat -> mget ac i j = centered a i j) ->
  (forall i j, (i < n)%nat -> (j < ncols b)%nat -> mget bc i j = centered b i j) ->
  matmul (transpose ac) bc = Ok m ->
  frobenius m ^ 2
  = sum_n (ncols a) (fun p => sum_n (ncols b) (fun q =>
      (sum_n n (fun i => centered a i p * centered b i q)) ^ 2)).
Proof.
  intros Hra Hrb Hna Hca Hcb Ha Hb Hm.
  rewrite matmul_Ok in Hm by (simpl; congruence). injection Hm as <-.
  rewrite frobenius_sq. simpl nrows. simpl ncols. rewrite Hca, Hcb.
  apply sum_n_ext. intros p Hp. apply sum_n_ext. intros q Hq.
  rewrite mget_mk_mat by lia. rewrite Hra.
  rewrite (sum_n_ext n _ (fun i => centered a i p * centered b i q)).
  - ring.
  - intros i Hi. rewrite mget_transpose by lia. rewrite Ha, Hb by lia. reflexivity.
Qed.

Lemma einsum_row_sq_centered (n : nat) (a ac : Matrix) :
  nrows ac = n -> ncols ac = ncols a ->
  (forall i j, (i < n)%nat -> (j < ncols a)%nat -> mget ac i j = centered a i j) ->
  forall i, (i < n)%nat -> vget (einsum_row_sq ac) i = row_sums a i.
Proof.
  intros Hr Hc Ha i Hi. unfold einsum_row_sq, row_sums.
  rewrite vget_mk_vec by lia. rewrite Hc. apply sum_n_ext. intros j Hj.
  rewrite Ha by lia. reflexivity.
Qed.

(** With more than two rows the correction divides by no zero: the debiased
    distance is the quotient of the corrected quantities. The last division,
    by the product of the corrected norms, is the only one left that can be
    by zero. *)
Lemma linear_cka_debiased_quotient (x y : Matrix) :
  nrows x = nrows y ->
  (2 < nrows x)%nat ->
  linear_cka_distance x y true
  = (q ← tdiv (corrected x y (gram_sq x y x))
              (corrected x y (gram_sq x x x) * corrected x y (gram_sq x y y));
     Ok (1 - q)).
Proof.
  intros Hr Hn.
  destruct (linear_cka_unfold x y true Hr)
    as (xc & yc & yx & xx & yy & _ & _ & Hrx & Hry & Hcx & Hcy & Hx & Hy
        & Hyx & Hxx & Hyy & ->).
  cbv zeta.
  assert (Hlen : length (einsum_row_sq xc) = length (einsum_row_sq yc)).
  { rewrite !einsum_row_sq_length. congruence. }
  rewrite !debiased_Ok by (lia || exact Hlen). rewrite !bind_Ok.
  assert (Hy' : forall i j, (i < nrows y)%nat -> (j < ncols y)%nat ->
                  mget yc i j = centered y i j).
  { rewrite <- Hr. exact Hy. }
  rewrite (frobenius_gram (nrows x) y x yc xc yx),
          (frobenius_gram (nrows x) x x xc xc xx),
          (frobenius_gram (nrows x) y y yc yc yy) by (congruence || assumption).
  assert (Hdot : sum_n (length (einsum_row_sq xc))
                   (fun k => vget (einsum_row_sq xc) k * vget (einsum_row_sq yc) k)
                 = sum_n (nrows x) (fun i => row_sums x i * row_sums y i)).
  { rewrite einsum_row_sq_length, Hrx. apply sum_n_ext. intros i Hi.
    rewrite (einsum_row_sq_centered (nrows x) x xc),
            (einsum_row_sq_centered (nrows x) y yc) by (congruence || assumption).
    reflexivity. }
  assert (Hsq : forall a ac, nrows ac = nrows x -> ncols ac = ncols a ->
              (forall i j, (i < nrows x)%nat -> (j < ncols a)%nat ->
                  mget ac i j = centered a i j) ->
              vsum (einsum_row_sq ac) = sum_n (nrows x) (row_sums a)).
  { intros a ac Hra Hca Ha. unfold vsum. rewrite einsum_row_sq_length, Hra.
    apply sum_n_ext. intros i Hi.
    apply (einsum_row_sq_centered (nrows x)); assumption. }
  rewrite Hdot, (Hsq x xc), (Hsq y yc) by assumption.
  assert (HN : IZR (Z.of_nat (nrows x)) = INR (nrows x)) by (symmetry; apply INR_IZR_INZ).
  rewrite mult_IZR, !minus_IZR, HN.
  fold (gram_sq x y x). fold (gram_sq x x x). fold (gram_sq x y y).
  fold (corrected x y (gram_sq x y x)).
  fold (corrected x y (gram_sq x x x)).
  fold (corrected x y (gram_sq x y y)).
  reflexivity.
Qed.

(** C9. The correction of [linear_cka_distance] divides by [N - 2] and by
    [(N - 1)(N - 2)], [N] the row count, without a guard. With [N > 2] both
    divisors are non-zero: the call raises no [ZeroDivisionError] and
    returns the quotient of the three corrected quantities. With [N <= 2]
    the call divides by zero: [N = 2] raises [ZeroDivisionError] on
    [N / (N - 2)], and [N = 1] and [N = 0] return [nan]. *)
Theorem debiased_cka_division_by_zero (x y : Matrix) :
  nrows x = nrows y ->
  ((2 < nrows x)%nat ->
     IZR (Z.of_nat (nrows x) - 2) <> 0
     /\ IZR ((Z.of_nat (nrows x) - 1) * (Z.of_nat (nrows x) - 2)) <> 0
     /\ linear_cka_distance x y true
        = (q ← tdiv (corrected x y (gram_sq x y x))
                    (corrected x y (gram_sq x x x) * corrected x y (gram_sq x y y));
           Ok (1 - q))
     /\ linear_cka_distance x y true <> Raise ZeroDivisionError)
  /\ ((nrows x <= 2)%nat -> divided_by_zero (linear_cka_distance x y true)).
Proof.
  intros Hr. split.
  - intros Hn. split; [|split; [|split]].
    + intros E. apply eq_IZR_R0 in E. lia.
    + intros E. apply eq_IZR_R0 in E. nia.
    + apply linear_cka_debiased_quotient; assumption.
    + rewrite linear_cka_debiased_quotient by assumption.
      unfold tdiv. destruct (decide _); discriminate.
  - intros Hn.
    destruct (linear_cka_unfold x y true Hr)
      as (xc & yc & yx & xx & yy & _ & _ & Hrx & Hry & _ & _ & _ & _
          & Hyx & Hxx & Hyy & ->).
    assert (Hlen : length (einsum_row_sq xc) = length (einsum_row_sq yc)).
    { rewrite !einsum_row_sq_length. congruence. }
    cbv zeta.
    destruct (nrows x) as [|[|[|n]]] eqn:En; [| | |lia].
    + (* no row: the corrected values are zero, and so is the last divisor *)
      right.
      assert (Hz : forall m, nrows m = 0%nat ->
                vsum (einsum_row_sq m) = 0 /\ length (einsum_row_sq m) = 0%nat).
      { intros m Hm. rewrite einsum_row_sq_length. split; [|exact Hm].
        unfold einsum_row_sq. rewrite vsum_mk_vec, Hm. reflexivity. }
      destruct (Hz xc Hrx) as [Hqx Hlx]. destruct (Hz yc Hry) as [Hqy Hly].
      assert (Hf : forall a b m, nrows a = 0%nat -> ncols (transpose a) = nrows b ->
                matmul (transpose a) b = Ok m -> frobenius m ^ 2 = 0).
      { intros a b m Ha Hab Hm. rewrite matmul_Ok in Hm by exact Hab.
        injection Hm as <-. rewrite frobenius_sq. simpl.
        apply sum_n_zero. intros i Hi. apply sum_n_zero. intros j Hj.
        rewrite mget_mk_mat by assumption. rewrite Ha. simpl. lra. }
      rewrite (Hf yc xc yx), (Hf xc xc xx), (Hf yc yc yy)
        by (simpl; congruence).
      rewrite !debiased_Ok by (simpl; congruence || lia).
      rewrite !bind_Ok. rewrite Hqx, Hlx. simpl sum_n.
      unfold tdiv. destruct (decide _) as [_|E].
      * eexists. reflexivity.
      * exfalso. apply E. simpl. lra.
    + (* one row: the second divisor of the correction is zero *)
      right.
      destruct (debiased_one (frobenius yx ^ 2) (einsum_row_sq xc) (einsum_row_sq yc)
                  (vsum (einsum_row_sq xc)) (vsum (einsum_row_sq yc)) Hlen) as [r1 E1].
      destruct (debiased_one (frobenius xx ^ 2) (einsum_row_sq xc) (einsum_row_sq yc)
                  (vsum (einsum_row_sq xc)) (vsum (einsum_row_sq yc)) Hlen) as [r2 E2].
      destruct (debiased_one (frobenius yy ^ 2) (einsum_row_sq xc) (einsum_row_sq yc)
                  (vsum (einsum_row_sq xc)) (vsum (einsum_row_sq yc)) Hlen) as [r3 E3].
      change (Z.of_nat 1) with 1%Z. rewrite E1, E2, E3.
      unfold mbind, result_bind, tdiv.
      destruct (decide _); eexists; reflexivity.
    + (* two rows: the first divisor of the correction is zero *)
      left. change (Z.of_nat 2) with 2%Z. rewrite !debiased_two. reflexivity.
Qed.


(** C4. With [reduce_bias] set, more than two rows and a non-zero product of
    the corrected norms, [linear_cka_distance] returns
    [1 - corrected(dot_prod) / (corrected(norm_x^2) * corrected(norm_y^2))],
    where the same correction, built from the per-row squared norms of the
    centered [x] and [y], their sums and the row count, is applied to each
    of the three quantities. *)
Theorem linear_cka_debiased_formula (x y : Matrix) :
  nrows x = nrows y ->
  (2 < nrows x)%nat ->
  corrected x y (gram_sq x x x) * corrected x y (gram_sq x y y) <> 0 ->
  linear_cka_distance x y true = Ok (debiased_cka_spec x y).
Proof.
  intros Hr Hn Hden.
  destruct (linear_cka_unfold x y true Hr)
    as (xc & yc & yx & xx & yy & _ & _ & Hrx & Hry & Hcx & Hcy & Hx & Hy
        & Hyx & Hxx & Hyy & ->).
  cbv zeta.
  assert (Hlen : length (einsum_row_sq xc) = length (einsum_row_sq yc)).
  { rewrite !einsum_row_sq_length. congruence. }
  rewrite !debiased_Ok by (lia || exact Hlen). rewrite !bind_Ok.
  assert (Hy' : forall i j, (i < nrows y)%nat -> (j < ncols y)%nat ->
                  mget yc i j = centered y i j).
  { rewrite <- Hr. exact Hy. }
  rewrite (frobenius_gram (nrows x) y x yc xc yx),
          (frobenius_gram (nrows x) x x xc xc xx),
          (frobenius_gram (nrows x) y y yc yc yy) by (congruence || assumption).
  assert (Hdot : sum_n (length (einsum_row_sq xc))
                   (fun k => vget (einsum_row_sq xc) k * vget (einsum_row_sq yc) k)
                 = sum_n (nrows x) (fun i => row_sums x i * row_sums y i)).
  { rewrite einsum_row_sq_length, Hrx. apply sum_n_ext. intros i Hi.
    rewrite (einsum_row_sq_centered (nrows x) x xc),
            (einsum_row_sq_centered (nrows x) y yc) by (congruence || assumption).
    reflexivity. }
  assert (Hsq : forall a ac, nrows ac = nrows x -> ncols ac = ncols a ->
              (forall i j, (i < nrows x)%nat -> (j < ncols a)%nat ->
                  mget ac i j = centered a i j) ->
              vsum (einsum_row_sq ac) = sum_n (nrows x) (row_sums a)).
  { intros a ac Hra Hca Ha. unfold vsum. rewrite einsum_row_sq_length, Hra.
    apply sum_n_ext. intros i Hi.
    apply (einsum_row_sq_centered (nrows x)); assumption. }
  rewrite Hdot, (Hsq x xc), (Hsq y yc) by assumption.
  assert (HN : IZR (Z.of_nat (nrows x)) = INR (nrows x)) by (symmetry; apply INR_IZR_INZ).
  rewrite mult_IZR, !minus_IZR, HN.
  fold (gram_sq x y x). fold (gram_sq x x x). fold (gram_sq x y y).
  fold (corrected x y (gram_sq x y x)).
  fold (corrected x y (gram_sq x x x)).
  fold (corrected x y (gram_sq x y y)).
  unfold tdiv. destruct (decide _) as [E|_]; [contradiction|].
  reflexivity.
Qed.

End LinearCKA.


(** ** Fourier noise *)


Lemma alloc_fresh (st : store) (t : Tensor R) :
  st !! (alloc st t).1 = None
  /\ (alloc st t).2 = <[(alloc st t).1 := t]> st.
Proof.
  unfold alloc. simpl. split; [|reflexivity].
  apply not_elem_of_dom, is_fresh.
Qed.

Section FourierProperties.
Context `{FourierPrimitives}.


End FourierProperties.

(** A run that returns: on a batch of one pixel of value 1/2 and a noise of
    norm 1/4, the caller's tensor keeps its value and the new tensor holds
    3/4. *)
Lemma add_fourier_noise_sample :
  let out := add_fourier_noise (H := single_pixel_primitives)
               (0, 0)%Z 1%positive (1 / 4) None {[1%positive := sample_image]} in
  exists l', out.2 = Ok l'
    /\ out.1 !! l' = Some (mkTensor [1; 1; 1; 1]%nat [3 / 4])
    /\ out.1 !! 1%positive = Some sample_image.
Proof.
  cbv zeta. unfold add_fourier_noise. rewrite lookup_singleton_eq.
  destruct (alloc_fresh {[1%positive := sample_image]} sample_image) as [Hf Hst].
  destruct (alloc _ sample_image) as [l st1] eqn:Ha. simpl in Hf, Hst. subst st1.
  simpl.
  assert (Hn : norm2 (mkTensor [1; 1; 1; 1]%nat [1]) = 1).
  { unfold norm2. simpl. replace (1 * 1 + 0) with 1 by lra. apply sqrt_1. }
  rewrite Hn. destruct (decide (1 = 0)) as [E|_]; [lra|]. simpl.
  assert (Hc : clamp01 (1 / 2 + 1 / 1 * (1 / 4)) = 3 / 4).
  { unfold clamp01, Rmin, Rmax. repeat (destruct (Rle_dec _ _)); lra. }
  rewrite Hc. exists l. split; [reflexivity|]. split.
  - apply lookup_insert_eq.
  - assert (l <> 1%positive).
    { intros ->. rewrite lookup_singleton_eq in Hf. discriminate. }
    rewrite !lookup_insert_ne by assumption. apply lookup_singleton_eq.
Qed.

(** ** Orthogonal Procrustes distance *)

Lemma mget_map (m : Matrix) (f : R -> R) (i j : nat) :
  f 0 = 0 ->
  mget (mkMatrix (nrows m) (ncols m) (map f (entries m))) i j = f (mget m i j).
Proof.
  intros Hf. unfold mget. simpl.
  transitivity (nth (i * ncols m + j) (map f (entries m)) (f 0)).
  - rewrite Hf. reflexivity.
  - apply map_nth.
Qed.

Lemma nonzero_centered_norm (x : Matrix) :
  nonzero_centered x -> 0 < centered_norm_sq x.
Proof.
  intros (i & j & Hi & Hj & Hne). unfold centered_norm_sq.
  assert (Hnn : 0 <= sum_n (nrows x) (fun i =>
            sum_n (ncols x) (fun j => centered x i j * centered x i j))).
  { apply sum_n_nonneg. intros. apply sum_n_nonneg. intros. apply Rle_0_sqr. }
  destruct (Req_dec (sum_n (nrows x) (fun i =>
              sum_n (ncols x) (fun j => centered x i j * centered x i j))) 0)
    as [Hz|Hnz]; [|lra].
  exfalso. apply Hne.
  assert (Hrow : sum_n (ncols x) (fun j => centered x i j * centered x i j) = 0).
  { destruct (Req_dec (sum_n (ncols x) (fun j => centered x i j * centered x i j)) 0)
      as [E|E]; [exact E|].
    assert (Hp : 0 < sum_n (ncols x) (fun j => centered x i j * centered x i j)).
    { assert (0 <= sum_n (ncols x) (fun j => centered x i j * centered x i j))
        by (apply sum_n_nonneg; intros; apply Rle_0_sqr). lra. }
    assert (Hle : sum_n (nrows x) (fun i0 => if decide (i0 = i)
                    then sum_n (ncols x) (fun j => centered x i0 j * centered x i0 j)
                    else 0)
                  <= sum_n (nrows x) (fun i =>
                       sum_n (ncols x) (fun j => centered x i j * centered x i j))).
    { apply sum_n_le. intros i0 _. destruct (decide (i0 = i)); [lra|].
      apply sum_n_nonneg. intros. apply Rle_0_sqr. }
    rewrite (sum_n_delta (nrows x) i
               (fun i0 => sum_n (ncols x) (fun j => centered x i0 j * centered x i0 j)))
      in Hle by exact Hi.
    lra. }
  apply (sum_n_sq_zero (ncols x) (centered x i) Hrow j Hj).
Qed.

(** The normalization of a matrix that is not zero after centering: the
    centered entries over their Frobenius norm. *)
Lemma _matrix_normalize_Ok (x : Matrix) :
  0 < centered_norm_sq x ->
  exists xs,
    _matrix_normalize x 0 = Ok xs
    /\ nrows xs = nrows x /\ ncols xs = ncols x
    /\ forall i j, (i < nrows x)%nat -> (j < ncols x)%nat ->
         mget xs i j = centered x i j / sqrt (centered_norm_sq x).
Proof.
  intros Hpos. unfold _matrix_normalize. rewrite _zero_mean_rows, bind_Ok.
  set (xc := mk_mat (nrows x) (ncols x) (fun i j =>
                mget x i j - sum_n (nrows x) (fun k => mget x k j) / INR (nrows x))).
  assert (Hxc : forall i j, (i < nrows x)%nat -> (j < ncols x)%nat ->
                  mget xc i j = centered x i j).
  { intros i j Hi Hj. unfold xc. rewrite mget_mk_mat by assumption. reflexivity. }
  assert (Hfro : frobenius xc = sqrt (centered_norm_sq x)).
  { unfold frobenius, centered_norm_sq. f_equal. simpl.
    apply sum_n_ext2. intros i j Hi Hj. rewrite Hxc by assumption. reflexivity. }
  assert (Hc : sqrt (centered_norm_sq x) <> 0).
  { pose proof (sqrt_lt_R0 _ Hpos). lra. }
  exists (mkMatrix (nrows xc) (ncols xc)
            (map (fun a => a / frobenius xc) (entries xc))).
  split.
  - unfold mdiv. destruct (entries xc); [reflexivity|].
    destruct (decide (frobenius xc = 0)) as [E|_]; [|reflexivity].
    rewrite Hfro in E. contradiction.
  - split; [reflexivity|]. split; [reflexivity|].
    intros i j Hi Hj.
    rewrite (mget_map xc (fun a => a / frobenius xc)) by (unfold Rdiv; ring).
    rewrite Hxc, Hfro by assumption. reflexivity.
Qed.

Lemma normalized_unit (x : Matrix) (xs : nat -> nat -> R) :
  0 < centered_norm_sq x ->
  (forall i j, (i < nrows x)%nat -> (j < ncols x)%nat ->
     xs i j = centered x i j / sqrt (centered_norm_sq x)) ->
  sum_n (nrows x) (fun i => sum_n (ncols x) (fun j => xs i j * xs i j)) = 1.
Proof.
  intros Hpos Hxs.
  rewrite (sum_n_ext2 _ _ _ (fun i j =>
             / centered_norm_sq x * (centered x i j * centered x i j))).
  2:{ intros i j Hi Hj. rewrite Hxs by assumption.
      rewrite <- (sqrt_sqrt (centered_norm_sq x)) at 3 by lra.
      pose proof (sqrt_lt_R0 _ Hpos). field. lra. }
  rewrite (sum_n_ext _ _ (fun i => / centered_norm_sq x
             * sum_n (ncols x) (fun j => centered x i j * centered x i j))).
  2:{ intros i _. rewrite sum_n_scal_l. reflexivity. }
  rewrite sum_n_scal_l. fold (centered_norm_sq x). field. lra.
Qed.

(** The hypotheses of the lemmas on sums of singular values, from a
    decomposition of a matrix. *)
Lemma is_svd_sums (m u : Matrix) (s : Vector) (v : Matrix) :
  is_svd m u s v ->
  let k := Nat.min (nrows m) (ncols m) in
  (forall p q, (p < k)%nat -> (q < k)%nat ->
     sum_n (nrows m) (fun a => mget u a p * mget u a q)
     = if decide (p = q) then 1 else 0)
  /\ (forall p q, (p < k)%nat -> (q < k)%nat ->
        sum_n (ncols m) (fun b => mget v b p * mget v b q)
        = if decide (p = q) then 1 else 0)
  /\ (forall p, (p < k)%nat -> 0 <= vget s p)
  /\ (forall a b, (a < nrows m)%nat -> (b < ncols m)%nat ->
        mget m a b = sum_n k (fun p => mget u a p * vget s p * mget v b p))
  /\ vsum s = sum_n k (vget s).
Proof.
  intros (Hru & Hcu & Hls & Hrv & Hcv & Hou & Hov & Hs & _ & Hm). simpl.
  unfold orthonormal_columns in Hou, Hov.
  rewrite Hru, Hcu in Hou. rewrite Hrv, Hcv in Hov.
  repeat split; try assumption.
  unfold vsum. rewrite Hls. reflexivity.
Qed.

(** The nuclear norm of [xs^T ys] is 1 when [xs] has unit Frobenius norm and
    [ys] is [xs] times an orthogonal matrix [G]. *)
Lemma rotated_nuclear_norm (n d : nat) (xs ys G : nat -> nat -> R)
    (m u : Matrix) (s : Vector) (v : Matrix) :
  sum_n n (fun i => sum_n d (fun a => xs i a * xs i a)) = 1 ->
  (forall p q, (p < d)%nat -> (q < d)%nat ->
     sum_n d (fun a => G a p * G a q) = if decide (p = q) then 1 else 0) ->
  (forall p q, (p < d)%nat -> (q < d)%nat ->
     sum_n d (fun b => G p b * G q b) = if decide (p = q) then 1 else 0) ->
  (forall i b, (i < n)%nat -> (b < d)%nat ->
     ys i b = sum_n d (fun c => xs i c * G c b)) ->
  nrows m = d -> ncols m = d ->
  (forall a b, (a < d)%nat -> (b < d)%nat ->
     mget m a b = sum_n n (fun i => xs i a * ys i b)) ->
  is_svd m u s v ->
  vsum s = 1.
Proof.
  intros Hunit HGc HGr Hys Hrm Hcm Hm Hsvd.
  destruct (is_svd_sums m u s v Hsvd) as (HU & HV & Hs & HM & ->).
  rewrite Hrm, Hcm in *. rewrite Nat.min_id in *.
  assert (Hyunit : sum_n n (fun i => sum_n d (fun b => ys i b * ys i b)) = 1).
  { rewrite <- Hunit. apply sum_n_ext. intros i Hi.
    rewrite (sum_n_ext d _ (fun b => sum_n d (fun c => xs i c * G c b)
                                     * sum_n d (fun c => xs i c * G c b))).
    2:{ intros b Hb. rewrite Hys by assumption. reflexivity. }
    apply (norm_combination d d (fun b c => G c b) (xs i)).
    intros p q Hp Hq. apply HGr; assumption. }
  apply Rle_antisym.
  - pose proof (singular_values_upper d d d (mget m) (mget u) (mget v) (vget s)
                  HU HV HM n xs ys Hm) as Hup.
    rewrite Hunit, Hyunit in Hup. lra.
  - rewrite <- (singular_values_lower d d d (mget m) (mget u) (mget v) (vget s)
                  Hs HM G).
    + (* the inner product of [m] and [G] is the trace of [xs^T xs] *)
      right. rewrite <- Hunit. rewrite (sum_n_swap n d).
      apply sum_n_ext. intros a Ha.
      rewrite (sum_n_ext d _ (fun b => sum_n n (fun i => sum_n d (fun c =>
                 (xs i a * xs i c) * (G c b * G a b))))).
      2:{ intros b Hb. rewrite Hm by assumption. rewrite <- sum_n_scal_r.
          apply sum_n_ext. intros i Hi. rewrite Hys by assumption.
          rewrite <- sum_n_scal_l, <- sum_n_scal_r.
          apply sum_n_ext. intros. ring. }
      rewrite sum_n_swap. apply sum_n_ext. intros i Hi.
      rewrite sum_n_swap.
      rewrite (sum_n_ext d _ (fun c =>
                 (xs i a * xs i c) * (if decide (c = a) then 1 else 0))).
      2:{ intros c Hc. rewrite sum_n_scal_l, HGr by assumption. reflexivity. }
      rewrite (sum_n_ext d _ (fun c =>
                 if decide (c = a) then xs i a * xs i c else 0)).
      2:{ intros c _. destruct (decide (c = a)); ring. }
      rewrite (sum_n_delta d a (fun c => xs i a * xs i c)) by assumption.
      reflexivity.
    + (* [u_p^T G v_p <= 1] *)
      intros p Hp.
      rewrite (sum_n_ext d _ (fun a =>
                 mget u a p * sum_n d (fun b => mget v b p * G a b))).
      2:{ intros a _. rewrite <- sum_n_scal_l. apply sum_n_ext. intros. ring. }
      pose proof (inner_le_mean d (fun a => mget u a p)
                    (fun a => sum_n d (fun b => mget v b p * G a b))) as Hin.
      cbv beta in Hin.
      rewrite (HU p p Hp Hp) in Hin.
      rewrite (norm_combination d d G (fun b => mget v b p) HGc) in Hin.
      rewrite (HV p p Hp Hp) in Hin.
      destruct (decide (p = p)); [lra|contradiction].
Qed.

Section Procrustes.
Context `{LinearAlgebraPrimitives}.

(** The state of [orthogonal_procrustes_distance] before the nuclear norm is
    taken. *)
Lemma opd_unfold (x y : Matrix) :
  0 < centered_norm_sq x -> 0 < centered_norm_sq y -> nrows x = nrows y ->
  exists m,
    normalized_cross x y = Ok m
    /\ nrows m = ncols x /\ ncols m = ncols y
    /\ (forall a b, (a < ncols x)%nat -> (b < ncols y)%nat ->
          mget m a b
          = sum_n (nrows x) (fun i =>
              (centered x i a / sqrt (centered_norm_sq x))
              * (centered y i b / sqrt (centered_norm_sq y))))
    /\ orthogonal_procrustes_distance x y
       = (n ← nuclear_norm m; Ok (1 - n)).
Proof.
  intros Hx Hy Hr.
  destruct (_matrix_normalize_Ok x Hx) as (xs & Exs & Hrx & Hcx & Hxs).
  destruct (_matrix_normalize_Ok y Hy) as (ys & Eys & Hry & Hcy & Hys).
  unfold normalized_cross, orthogonal_procrustes_distance.
  rewrite Exs, Eys, !bind_Ok.
  rewrite matmul_Ok by (simpl; congruence). rewrite bind_Ok.
  eexists. split; [reflexivity|].
  split; [simpl; exact Hcx|]. split; [simpl; exact Hcy|].
  split; [|reflexivity].
  intros a b Ha Hb. rewrite mget_mk_mat by (simpl; lia).
  simpl ncols. rewrite Hrx. apply sum_n_ext. intros i Hi.
  rewrite mget_transpose by lia. rewrite Hxs, Hys by lia. reflexivity.
Qed.

Lemma opd_value (x y m : Matrix) (r : R) :
  orthogonal_procrustes_distance x y = (n ← nuclear_norm m; Ok (1 - n)) ->
  nuclear_norm m = Ok r ->
  orthogonal_procrustes_distance x y = Ok (1 - r).
Proof. intros -> ->. reflexivity. Qed.

(** The centered entries of [x @ rot]. *)
Lemma centered_matmul (x rot xr : Matrix) :
  matmul x rot = Ok xr ->
  nrows xr = nrows x /\ ncols xr = ncols rot
  /\ forall i j, (i < nrows x)%nat -> (j < ncols rot)%nat ->
       centered xr i j = sum_n (ncols x) (fun c => centered x i c * mget rot c j).
Proof.
  unfold matmul. destruct (decide _) as [E|]; [|discriminate].
  intros Hm. injection Hm as <-. split; [reflexivity|]. split; [reflexivity|].
  intros i j Hi Hj. unfold centered at 1. simpl nrows.
  rewrite mget_mk_mat by assumption.
  rewrite (sum_n_ext (nrows x) _ (fun k =>
             sum_n (ncols x) (fun c => mget x k c * mget rot c j))).
  2:{ intros k Hk. rewrite mget_mk_mat by assumption. reflexivity. }
  rewrite sum_n_swap.
  unfold Rdiv. rewrite <- sum_n_scal_r, <- sum_n_minus.
  apply sum_n_ext. intros c _. unfold centered. cbv beta.
  rewrite sum_n_scal_r. unfold Rdiv. ring.
Qed.

(** C5. For [x] that is not zero after the centering of its columns,
    [orthogonal_procrustes_distance x x] is 0, and so is the distance
    between [x] and [x @ rot] for an orthogonal [rot]; for every [y] with
    the row count of [x] that is not zero after centering, the distance
    between [x] and [y] is in [0, 1]. The nuclear norm that torch returns is
    taken to be the sum of the singular values of the matrix it is given. *)
Theorem opd_properties (x y rot xr : Matrix) :
  nonzero_centered x ->
  nonzero_centered y ->
  nrows x = nrows y ->
  orthogonal rot ->
  nrows rot = ncols x ->
  matmul x rot = Ok xr ->
  nuclear_norm_correct_at (normalized_cross x x) ->
  nuclear_norm_correct_at (normalized_cross x xr) ->
  nuclear_norm_correct_at (normalized_cross x y) ->
  orthogonal_procrustes_distance x x = Ok 0
  /\ orthogonal_procrustes_distance x xr = Ok 0
  /\ exists d, orthogonal_procrustes_distance x y = Ok d /\ 0 <= d <= 1.
Proof.
  intros Hnx Hny Hr (Hsq & Hoc & Hor) Hrot Hxr Nxx Nxr Nxy.
  pose proof (nonzero_centered_norm x Hnx) as Hx.
  pose proof (nonzero_centered_norm y Hny) as Hy.
  set (xs := fun i a => centered x i a / sqrt (centered_norm_sq x)).
  assert (Hunit : sum_n (nrows x) (fun i => sum_n (ncols x) (fun a => xs i a * xs i a)) = 1).
  { apply normalized_unit; [exact Hx|reflexivity]. }
  split; [|split].
  - (* x against itself: the rotation is the identity *)
    destruct (opd_unfold x x Hx Hx eq_refl) as (m & Em & Hrm & Hcm & Hm & Eo).
    destruct (Nxx m Em) as (r & Er & u & s & v & Hsvd & ->).
    rewrite (opd_value x x m _ Eo Er). f_equal.
    rewrite (rotated_nuclear_norm (nrows x) (ncols x) xs xs
               (fun a b => if decide (a = b) then 1 else 0) m u s v);
      try assumption; [lra|..].
    + intros p q Hp Hq.
      rewrite (sum_n_ext _ _ (fun a => if decide (a = p)
                 then (if decide (a = q) then 1 else 0) else 0)).
      2:{ intros a _. destruct (decide (a = p)); ring. }
      rewrite (sum_n_delta _ p (fun a => if decide (a = q) then 1 else 0)) by exact Hp.
      reflexivity.
    + intros p q Hp Hq.
      rewrite (sum_n_ext _ _ (fun b => if decide (b = p)
                 then (if decide (q = b) then 1 else 0) else 0)).
      2:{ intros b _. destruct (decide (p = b)) as [->|Hne].
          - destruct (decide (b = b)); [ring|contradiction].
          - destruct (decide (b = p)); [congruence|ring]. }
      rewrite (sum_n_delta _ p (fun b => if decide (q = b) then 1 else 0)) by exact Hp.
      destruct (decide (q = p)) as [->|Hne].
      * destruct (decide (p = p)); [reflexivity|contradiction].
      * destruct (decide (p = q)); [congruence|reflexivity].
    + intros i b Hi Hb. symmetry.
      rewrite (sum_n_ext _ _ (fun c => if decide (c = b) then xs i c else 0)).
      2:{ intros c _. destruct (decide (c = b)); ring. }
      apply sum_n_delta. exact Hb.
  - (* x against x @ rot *)
    destruct (centered_matmul x rot xr Hxr) as (Hrxr & Hcxr & Hcen).
    assert (Hd : ncols rot = ncols x) by congruence.
    rewrite Hd in Hcen, Hcxr.
    assert (Hrows : forall p q, (p < ncols x)%nat -> (q < ncols x)%nat ->
              sum_n (ncols x) (fun b => mget rot p b * mget rot q b)
              = if decide (p = q) then 1 else 0).
    { intros p q Hp Hq. specialize (Hor p q).
      unfold transpose in Hor. simpl in Hor. rewrite Hrot, Hd in Hor.
      rewrite <- Hor by assumption. apply sum_n_ext. intros b Hb.
      rewrite !mget_mk_mat by lia. reflexivity. }
    assert (Hcols : forall p q, (p < ncols x)%nat -> (q < ncols x)%nat ->
              sum_n (ncols x) (fun a => mget rot a p * mget rot a q)
              = if decide (p = q) then 1 else 0).
    { intros p q Hp Hq. specialize (Hoc p q). rewrite Hrot, Hd in Hoc.
      apply Hoc; assumption. }
    assert (Hnorm : centered_norm_sq xr = centered_norm_sq x).
    { unfold centered_norm_sq. rewrite Hrxr, Hcxr. apply sum_n_ext. intros i Hi.
      rewrite (sum_n_ext _ _ (fun j =>
                 sum_n (ncols x) (fun c => centered x i c * mget rot c j)
                 * sum_n (ncols x) (fun c => centered x i c * mget rot c j))).
      2:{ intros j Hj. rewrite Hcen by assumption. reflexivity. }
      apply (norm_combination (ncols x) (ncols x) (fun j c => mget rot c j)
               (centered x i)).
      intros p q Hp Hq. apply Hrows; assumption. }
    assert (Hxr' : 0 < centered_norm_sq xr) by (rewrite Hnorm; exact Hx).
    destruct (opd_unfold x xr Hx Hxr' (eq_sym Hrxr))
      as (m & Em & Hrm & Hcm & Hm & Eo).
    destruct (Nxr m Em) as (r & Er & u & s & v & Hsvd & ->).
    rewrite (opd_value x xr m _ Eo Er). f_equal.
    rewrite (rotated_nuclear_norm (nrows x) (ncols x) xs
               (fun i b => centered xr i b / sqrt (centered_norm_sq xr))
               (mget rot) m u s v);
      try assumption; [lra| |congruence|].
    + intros i b Hi Hb. rewrite Hcen, Hnorm by assumption.
      unfold Rdiv. rewrite <- sum_n_scal_r. apply sum_n_ext. intros c _.
      unfold xs, Rdiv. ring.
    + intros a b Ha Hb. rewrite Hcxr in Hm. apply Hm; assumption.
  - (* x against y *)
    destruct (opd_unfold x y Hx Hy Hr) as (m & Em & Hrm & Hcm & Hm & Eo).
    destruct (Nxy m Em) as (r & Er & u & s & v & Hsvd & ->).
    rewrite (opd_value x y m _ Eo Er). eexists. split; [reflexivity|].
    destruct (is_svd_sums m u s v Hsvd) as (HU & HV & Hs & HM & ->).
    rewrite Hrm, Hcm in *.
    pose proof (singular_values_nonneg _ (vget s) Hs) as Hlow.
    pose proof (singular_values_upper _ _ _ (mget m) (mget u) (mget v) (vget s)
                  HU HV HM (nrows x) xs
                  (fun i b => centered y i b / sqrt (centered_norm_sq y)) Hm) as Hup.
    rewrite Hunit in Hup.
    rewrite Hr in Hup at 1.
    rewrite (normalized_unit y _ Hy) in Hup by reflexivity.
    lra.
Qed.

End Procrustes.

(** ** Projection-weighted CCA *)

Lemma vget_map (v : Vector) (f : R -> R) (i : nat) :
  f 0 = 0 -> vget (map f v) i = f (vget v i).
Proof.
  intros Hf. unfold vget.
  transitivity (nth i (map f v) (f 0)); [rewrite Hf; reflexivity|apply map_nth].
Qed.

Lemma mk_vec_ext (n : nat) (f g : nat -> R) :
  (forall i, (i < n)%nat -> f i = g i) -> mk_vec n f = mk_vec n g.
Proof.
  intros Hfg. unfold mk_vec. apply map_ext_in. intros i Hi.
  apply in_seq in Hi. apply Hfg. lia.
Qed.

Lemma reciprocal_Ok (s : Vector) :
  (forall q, (q < length s)%nat -> vget s q <> 0) ->
  reciprocal s = Ok (map Rinv s).
Proof.
  intros Hs. unfold reciprocal.
  destruct (decide (Exists (fun a => a = 0) s)) as [Hex|_]; [|reflexivity].
  exfalso. apply List.Exists_exists in Hex as (a & Hin & Ha).
  apply (In_nth _ _ 0) in Hin as (q & Hq & Hnth).
  apply (Hs q Hq). unfold vget. congruence.
Qed.

Lemma Rabs_of_sign (v : R) : v * v = 1 -> Rabs v = 1.
Proof.
  intros Hv. unfold Rabs. destruct (Rcase_abs v); nra.
Qed.

Lemma vdiv_Ok (v : Vector) (c : R) :
  c <> 0 -> vdiv v c = Ok (map (fun a => a / c) v).
Proof.
  intros Hc. unfold vdiv. destruct v; [reflexivity|].
  destruct (decide (c = 0)); [contradiction|reflexivity].
Qed.

Lemma dot_Ok (u v : Vector) :
  length u = length v ->
  dot u v = Ok (sum_n (length u) (fun k => vget u k * vget v k)).
Proof. intros E. unfold dot. destruct (decide _); [reflexivity|contradiction]. Qed.

Lemma scale_cols_Ok (v : Matrix) (s : Vector) :
  ncols v = length s ->
  scale_cols v s
  = Ok (mk_mat (nrows v) (ncols v) (fun i j => mget v i j * vget s j)).
Proof.
  intros E. unfold scale_cols. destruct (decide _); [reflexivity|contradiction].
Qed.

(** Rewriting of the shape of a matrix in a hypothesis. *)
Ltac shapes_in Er Ec F :=
  repeat first [rewrite Er in F | rewrite Ec in F].

Section ProjectionWeighted.
Context `{LinearAlgebraPrimitives}.

Lemma cca_svd_unfold (x y : Matrix) :
  nrows x = nrows y ->
  cca x y "svd" = (xc ← _zero_mean x 0; yc ← _zero_mean y 0; cca_by_svd xc yc).
Proof.
  intros Hr. unfold cca, py_assert.
  rewrite (bool_decide_eq_true_2 _ Hr). reflexivity.
Qed.


(** PWCCA of two matrices whose centered columns are orthogonal, with norms
    [cx] and [cy], and aligned: column [j] of [x] correlates with column [j]
    of [y] only, with correlation [rho j]. The canonical correlations are
    [rho] and the weights are those of the columns of [x]. *)
Lemma pwcca_aligned (x y : Matrix) (cx cy rho : nat -> R) :
  nrows y = nrows x ->
  (ncols x <= nrows x)%nat ->
  (ncols y <= nrows x)%nat ->
  (forall b b', (b < ncols x)%nat -> (b' < ncols x)%nat ->
     sum_n (nrows x) (fun i => centered x i b * centered x i b')
     = if decide (b = b') then cx b * cx b else 0) ->
  (forall b, (b < ncols x)%nat -> 0 < cx b) ->
  (forall b b', (b < b')%nat -> (b' < ncols x)%nat -> cx b' < cx b) ->
  (forall b b', (b < ncols y)%nat -> (b' < ncols y)%nat ->
     sum_n (nrows x) (fun i => centered y i b * centered y i b')
     = if decide (b = b') then cy b * cy b else 0) ->
  (forall b, (b < ncols y)%nat -> 0 < cy b) ->
  (forall b b', (b < b')%nat -> (b' < ncols y)%nat -> cy b' < cy b) ->
  (forall b q, (b < ncols x)%nat -> (q < ncols y)%nat ->
     sum_n (nrows x) (fun i => centered x i b * centered y i q)
     = if decide (b = q) then rho b * cx b * cy q else 0) ->
  (forall j, (j < Nat.min (ncols x) (ncols y))%nat -> 0 < rho j) ->
  (forall j j', (j < j')%nat -> (j' < Nat.min (ncols x) (ncols y))%nat ->
     rho j' < rho j) ->
  svd_correct_for_cca x y ->
  sum_n (Nat.min (ncols x) (ncols y)) (column_weight x cx) <> 0 ->
  pwcca_distance x y "svd"
  = Ok (1 - sum_n (Nat.min (ncols x) (ncols y)) (fun j =>
            column_weight x cx j
            / sum_n (Nat.min (ncols x) (ncols y)) (column_weight x cx)
            * rho j)).
Proof.
  intros Hry HD1 HD2 Hgx Hcx Hdx Hgy Hcy Hdy Hcross Hrho Hrdec Hsvd HW.
  set (N := nrows x) in *. set (D1 := ncols x) in *. set (D2 := ncols y) in *.
  set (K := Nat.min D1 D2) in *.
  unfold pwcca_distance. rewrite cca_svd_unfold by (symmetry; exact Hry).
  destruct (Hsvd _ _ (_zero_mean_rows x) (_zero_mean_rows y))
    as (u1 & s1 & v1 & u2 & s2 & v2 & E1 & S1 & E2 & S2 & Huu).
  rewrite !_zero_mean_rows, !bind_Ok.
  set (xc := mk_mat (nrows x) (ncols x) _) in *.
  set (yc := mk_mat (nrows y) (ncols y) _) in *.
  assert (Hxc : forall i j, (i < N)%nat -> (j < D1)%nat -> mget xc i j = centered x i j).
  { intros i j Hi Hj. unfold xc. rewrite mget_mk_mat by assumption. reflexivity. }
  assert (Hyc : forall i j, (i < N)%nat -> (j < D2)%nat -> mget yc i j = centered y i j).
  { intros i j Hi Hj. unfold yc. rewrite mget_mk_mat by (rewrite ?Hry; assumption).
    reflexivity. }
  (* the decompositions of the centered matrices *)
  destruct (tall_svd_facts xc u1 s1 v1 cx S1) as (Fs1 & Fv1 & Fe1 & Fu1);
    try assumption.
  { intros b b' Hb Hb'. rewrite <- Hgx by assumption.
    apply sum_n_ext. intros i Hi. rewrite !Hxc by assumption. reflexivity. }
  destruct (tall_svd_facts yc u2 s2 v2 cy S2) as (Fs2 & Fv2 & Fe2 & Fu2);
    try assumption.
  { unfold yc. simpl. rewrite Hry. exact HD2. }
  { intros b b' Hb Hb'. unfold yc at 1. simpl nrows. rewrite Hry.
    rewrite <- Hgy by assumption.
    apply sum_n_ext. intros i Hi. rewrite !Hyc by assumption. reflexivity. }
  assert (Hnxc : nrows xc = N) by reflexivity.
  assert (Hcxc : ncols xc = D1) by reflexivity.
  assert (Hnyc : nrows yc = N) by exact Hry.
  assert (Hcyc : ncols yc = D2) by reflexivity.
  destruct S1 as (Hru1 & Hcu1 & Hls1 & Hrv1 & Hcv1 & _).
  destruct S2 as (Hru2 & Hcu2 & Hls2 & Hrv2 & Hcv2 & _).
  shapes_in Hnxc Hcxc Hru1; shapes_in Hnxc Hcxc Hcu1; shapes_in Hnxc Hcxc Hls1;
  shapes_in Hnxc Hcxc Hrv1; shapes_in Hnxc Hcxc Hcv1; shapes_in Hnxc Hcxc Fs1;
  shapes_in Hnxc Hcxc Fv1; shapes_in Hnxc Hcxc Fe1; shapes_in Hnxc Hcxc Fu1.
  shapes_in Hnyc Hcyc Hru2; shapes_in Hnyc Hcyc Hcu2; shapes_in Hnyc Hcyc Hls2;
  shapes_in Hnyc Hcyc Hrv2; shapes_in Hnyc Hcyc Hcv2; shapes_in Hnyc Hcyc Fs2;
  shapes_in Hnyc Hcyc Fv2; shapes_in Hnyc Hcyc Fe2; shapes_in Hnyc Hcyc Fu2.
  rewrite (Nat.min_r N D1 HD1) in Hcu1, Hls1, Hcv1.
  rewrite (Nat.min_r N D2 HD2) in Hcu2, Hls2, Hcv2.
  unfold cca_by_svd. rewrite E1, E2, !bind_Ok.
  cbv beta iota.
  rewrite matmul_Ok by (simpl; congruence). rewrite bind_Ok.
  set (uu := mk_mat (nrows (transpose u1)) (ncols u2) _).
  destruct (Huu uu) as (u & d & v & E3 & S3).
  { apply matmul_Ok. simpl. congruence. }
  rewrite E3, bind_Ok. cbv beta iota.
  assert (Hruu : nrows uu = D1) by (simpl; exact Hcu1).
  assert (Hcuu : ncols uu = D2) by (simpl; exact Hcu2).
  assert (Euu : forall b q, (b < nrows uu)%nat -> (q < ncols uu)%nat ->
            mget uu b q
            = if decide (b = q) then mget v1 b b * mget v2 q q * rho b else 0).
  { intros b q Hb Hq. rewrite Hruu in Hb. rewrite Hcuu in Hq.
    unfold uu. rewrite mget_mk_mat by (simpl; lia).
    simpl ncols. rewrite Hru1.
    rewrite (sum_n_ext N _ (fun i =>
               (mget v1 b b * mget v2 q q / (cx b * cy q))
               * (centered x i b * centered y i q))).
    2:{ intros i Hi. rewrite mget_transpose by lia.
        rewrite Fu1, Fu2, Hxc, Hyc by assumption.
        pose proof (Hcx b Hb). pose proof (Hcy q Hq). field. lra. }
    rewrite sum_n_scal_l, Hcross by assumption.
    destruct (decide (b = q)); [|ring].
    pose proof (Hcx b Hb). pose proof (Hcy q Hq). field. lra. }
  destruct (cross_svd_facts uu u d v (fun b => mget v1 b b) (fun q => mget v2 q q)
              rho S3 Euu) as (Fd & Fu & Fue).
  { intros b Hb. apply Fe1. lia. }
  { intros q Hq. apply Fe2. lia. }
  { rewrite Hruu, Hcuu. exact Hrho. }
  { rewrite Hruu, Hcuu. exact Hrdec. }
  shapes_in Hruu Hcuu Fd; shapes_in Hruu Hcuu Fu; shapes_in Hruu Hcuu Fue.
  fold K in Fd, Fu, Fue.
  destruct S3 as (Hru & Hcu & Hld & Hrv & Hcv & _).
  shapes_in Hruu Hcuu Hru; shapes_in Hruu Hcuu Hcu; shapes_in Hruu Hcuu Hld;
  shapes_in Hruu Hcuu Hrv; shapes_in Hruu Hcuu Hcv.
  fold K in Hcu, Hld, Hcv.
  (* the coefficients [a] and [b] *)
  rewrite (reciprocal_Ok s1).
  2:{ intros q Hq. rewrite Hls1 in Hq. rewrite Fs1 by exact Hq.
      pose proof (Hcx q Hq). lra. }
  rewrite (reciprocal_Ok s2).
  2:{ intros q Hq. rewrite Hls2 in Hq. rewrite Fs2 by exact Hq.
      pose proof (Hcy q Hq). lra. }
  rewrite !bind_Ok.
  rewrite !scale_cols_Ok by (rewrite length_map; congruence).
  rewrite !bind_Ok.
  rewrite (matmul_Ok _ u) by (cbn [ncols nrows mk_mat]; congruence).
  rewrite (matmul_Ok _ v) by (cbn [ncols nrows mk_mat]; congruence).
  unfold detach. rewrite !bind_Ok. cbv beta iota.
  set (a := mk_mat _ (ncols u) _).
  assert (Ea : forall b j, (b < D1)%nat -> (j < K)%nat ->
            mget a b j = mget v1 b b / cx b * mget u b j).
  { intros b j Hb Hj. unfold a. rewrite mget_mk_mat by (simpl; lia).
    simpl ncols. rewrite Hcv1.
    rewrite (sum_n_single D1 b); [|exact Hb|].
    - rewrite mget_mk_mat by lia.
      rewrite (vget_map s1 Rinv b Rinv_0), Fs1 by exact Hb. reflexivity.
    - intros p Hp Hne. cbv beta. rewrite mget_mk_mat by lia.
      rewrite (Fv1 b p Hb Hp) by congruence. ring. }
  (* the projection of [x] *)
  rewrite matmul_Ok
    by (unfold a; cbn [ncols nrows mk_mat]; rewrite Hrv1; reflexivity).
  rewrite bind_Ok.
  set (xa := mk_mat (nrows x) (ncols a) _).
  assert (Hka : ncols a = K) by exact Hcu.
  assert (HK1 : (K <= D1)%nat) by apply Nat.le_min_l.
  assert (Exa : forall i j, (i < N)%nat -> (j < K)%nat ->
            Rabs (mget xa i j) = Rabs (mget x i j) / cx j).
  { intros i j Hi Hj. unfold xa. rewrite mget_mk_mat by (rewrite ?Hka; assumption).
    fold D1. rewrite (sum_n_single D1 j); [|lia|].
    - rewrite Ea by lia.
      pose proof (Hcx j ltac:(lia)) as Hc.
      replace (mget x i j * (mget v1 j j / cx j * mget u j j))
        with (mget x i j * mget v1 j j * mget u j j * / cx j) by (field; lra).
      rewrite !Rabs_mult.
      rewrite (Rabs_of_sign _ (Fe1 j ltac:(lia))), (Rabs_of_sign _ (Fue j Hj)).
      rewrite (Rabs_pos_eq (/ cx j)) by (left; apply Rinv_0_lt_compat, Hc).
      unfold Rdiv. ring.
    - intros b Hb Hne. cbv beta. rewrite Ea by assumption.
      rewrite (Fu b j) by assumption. ring. }
  assert (Ealpha : mk_vec (ncols xa)
                     (fun j => sum_n (nrows xa) (fun i => Rabs (mget xa i j)))
                   = mk_vec K (column_weight x cx)).
  { change (ncols xa) with (ncols a). change (nrows xa) with N.
    rewrite Hka. apply mk_vec_ext. intros j Hj.
    unfold column_weight. fold N. unfold Rdiv. rewrite <- sum_n_scal_r.
    apply sum_n_ext. intros i Hi. rewrite Exa by assumption. reflexivity. }
  rewrite Ealpha. rewrite vsum_mk_vec.
  rewrite (vdiv_Ok _ _ HW), bind_Ok.
  rewrite dot_Ok by (rewrite length_map, length_mk_vec; congruence).
  rewrite bind_Ok. f_equal. f_equal.
  rewrite length_map, length_mk_vec. apply sum_n_ext. intros j Hj.
  rewrite (vget_map _ (fun a0 => a0 / sum_n K (column_weight x cx))) by (unfold Rdiv; ring).
  rewrite vget_mk_vec, Fd by assumption. reflexivity.
Qed.

End ProjectionWeighted.

(** *** The sample on which the two directions differ *)

(** Case analysis on an index below a bound. *)
Ltac cases_below i :=
  repeat (destruct i as [|i]; [|try (exfalso; simpl in *; lia)]).

Ltac eval_abs :=
  repeat match goal with
         | |- context [Rabs ?v] =>
             first [ rewrite (Rabs_pos_eq v) by lra
                   | rewrite (Rabs_left v) by lra ]
         end.

Lemma asym_gram_x (b b' : nat) :
  (b < 2)%nat -> (b' < 2)%nat ->
  sum_n 8 (fun i => centered asym_x i b * centered asym_x i b')
  = if decide (b = b') then asym_cx b * asym_cx b else 0.
Proof.
  intros Hb Hb'. cases_below b; cases_below b';
    unfold centered, mget, asym_x; simpl; lra.
Qed.

Lemma asym_gram_y (b b' : nat) :
  (b < 3)%nat -> (b' < 3)%nat ->
  sum_n 8 (fun i => centered asym_y i b * centered asym_y i b')
  = if decide (b = b') then asym_cy b * asym_cy b else 0.
Proof.
  intros Hb Hb'. cases_below b; cases_below b';
    unfold centered, mget, asym_y; simpl; lra.
Qed.

Lemma asym_cross (b q : nat) :
  (b < 2)%nat -> (q < 3)%nat ->
  sum_n 8 (fun i => centered asym_x i b * centered asym_y i q)
  = if decide (b = q) then asym_rho b * asym_cx b * asym_cy q else 0.
Proof.
  intros Hb Hq. cases_below b; cases_below q;
    unfold centered, mget, asym_x, asym_y; simpl; lra.
Qed.

Lemma asym_weights_x :
  column_weight asym_x asym_cx 0 = 2 /\ column_weight asym_x asym_cx 1 = 2.
Proof.
  unfold column_weight, mget, asym_x. simpl. split; eval_abs; lra.
Qed.

Lemma asym_weights_y :
  column_weight asym_y asym_cy 0 = 2 /\ column_weight asym_y asym_cy 1 = 14 / 5.
Proof.
  unfold column_weight, mget, asym_y. simpl. split; eval_abs; lra.
Qed.

Section Asymmetry.
Context `{LinearAlgebraPrimitives}.

(** C7. PWCCA is not symmetric: on [asym_x], with two neurons, and [asym_y],
    with three, whenever [_svd] returns singular value decompositions of the
    matrices that CCA hands to it, [pwcca_distance asym_x asym_y] is 1/5 and
    [pwcca_distance asym_y asym_x] is 7/30. *)
Theorem pwcca_asymmetric :
  svd_correct_for_cca asym_x asym_y ->
  svd_correct_for_cca asym_y asym_x ->
  nrows asym_x = nrows asym_y
  /\ ncols asym_x <> ncols asym_y
  /\ pwcca_distance asym_x asym_y "svd" = Ok (1 / 5)
  /\ pwcca_distance asym_y asym_x "svd" = Ok (7 / 30)
  /\ pwcca_distance asym_x asym_y "svd" <> pwcca_distance asym_y asym_x "svd".
Proof.
  intros Hxy Hyx.
  destruct asym_weights_x as [Wx0 Wx1]. destruct asym_weights_y as [Wy0 Wy1].
  assert (Exy : pwcca_distance asym_x asym_y "svd" = Ok (1 / 5)).
  { rewrite (pwcca_aligned asym_x asym_y asym_cx asym_cy asym_rho);
      try (simpl; lia); try assumption.
    - f_equal. simpl. rewrite Wx0, Wx1. lra.
    - exact asym_gram_x.
    - intros b Hb. simpl in Hb. cases_below b; simpl; lra.
    - intros b b' Hlt Hb'. simpl in Hb'. cases_below b'; cases_below b; try (exfalso; lia); simpl; lra.
    - exact asym_gram_y.
    - intros b Hb. simpl in Hb. cases_below b; simpl; lra.
    - intros b b' Hlt Hb'. simpl in Hb'. cases_below b'; cases_below b; try (exfalso; lia); simpl; lra.
    - exact asym_cross.
    - intros j Hj. simpl in Hj. cases_below j; simpl; lra.
    - intros j j' Hlt Hj'. simpl in Hj'. cases_below j'; cases_below j; try (exfalso; lia); simpl; lra.
    - simpl. rewrite Wx0, Wx1. lra. }
  assert (Eyx : pwcca_distance asym_y asym_x "svd" = Ok (7 / 30)).
  { rewrite (pwcca_aligned asym_y asym_x asym_cy asym_cx asym_rho);
      try (simpl; lia); try assumption.
    - f_equal. simpl. rewrite Wy0, Wy1. lra.
    - exact asym_gram_y.
    - intros b Hb. simpl in Hb. cases_below b; simpl; lra.
    - intros b b' Hlt Hb'. simpl in Hb'. cases_below b'; cases_below b; try (exfalso; lia); simpl; lra.
    - exact asym_gram_x.
    - intros b Hb. simpl in Hb. cases_below b; simpl; lra.
    - intros b b' Hlt Hb'. simpl in Hb'. cases_below b'; cases_below b; try (exfalso; lia); simpl; lra.
    - intros b q Hb Hq. simpl in Hb, Hq.
      rewrite (sum_n_ext _ _ (fun i => centered asym_x i q * centered asym_y i b))
        by (intros; ring).
      change (nrows asym_y) with 8%nat. rewrite asym_cross by assumption.
      destruct (decide (q = b)) as [->|Hne].
      + destruct (decide (b = b)); [ring|contradiction].
      + destruct (decide (b = q)); [congruence|reflexivity].
    - intros j Hj. simpl in Hj. cases_below j; simpl; lra.
    - intros j j' Hlt Hj'. simpl in Hj'. cases_below j'; cases_below j; try (exfalso; lia); simpl; lra.
    - simpl. rewrite Wy0, Wy1. lra. }
  split; [reflexivity|]. split; [simpl; lia|].
  split; [exact Exy|]. split; [exact Eyx|].
  rewrite Exy, Eyx. intros E. injection E as E. lra.
Qed.

End Asymmetry.

Lemma hook_buffer_lifecycle_witness :
  let self := mkSimilarityHook "fc" (fun _ _ => Ok 0) false None
                (Some (mkTensor [1%nat; 2%nat] [1; 2])) in
  let output := mkTensor [2%nat; 2%nat] [3; 4; 5; 6] in
  (hook self output Cpu).2 = Ok tt
  /\ _hooked_tensors (hook self output Cpu).1
     = Some (mkTensor [3%nat; 2%nat] [1; 2; 3; 4; 5; 6]).
Proof.
  intros self output.
  destruct (hook_buffer_lifecycle (H := failing_primitives) self output Cpu)
    as (_ & Hc & _).
  - left. reflexivity.
  - left. reflexivity.
  - simpl in Hc. apply Hc. reflexivity.
Defined.

Lemma distance_filter_rank4_returns_none_witness :
  let t := mkTensor [1%nat; 1%nat; 1%nat; 2%nat] [1; 2] in
  let h := mkSimilarityHook "conv1"
             (orthogonal_procrustes_distance (H := failing_primitives)) false
             (Some Cpu) (Some t) in
  distance (H := failing_primitives) h h (Some "avg_pool") None "filter"
  = Ok PyNone.
Proof.
  intros t h.
  apply (distance_filter_rank4_returns_none (H := failing_primitives) h h t t);
    reflexivity.
Defined.


Lemma linear_cka_debiased_formula_witness :
  let x := mkMatrix 4 1 [1; -1; 0; 0] in
  linear_cka_distance x x true = Ok (debiased_cka_spec x x).
Proof.
  intros x. apply linear_cka_debiased_formula.
  - reflexivity.
  - simpl. lia.
  - replace (corrected x x (gram_sq x x x)) with (2 / 3); [lra|].
    unfold corrected, gram_sq, row_sums, centered, mget, x. simpl. lra.
Defined.

Lemma debiased_cka_division_by_zero_witness :
  let x := mkMatrix 3 1 [1; 3; 4] in
  let y := mkMatrix 3 1 [2; 5; 7] in
  divided_by_zero
    (linear_cka_distance (mkMatrix 2 1 [1; 3]) (mkMatrix 2 1 [2; 5]) true)
  /\ linear_cka_distance x y true
     = (q ← tdiv (corrected x y (gram_sq x y x))
                 (corrected x y (gram_sq x x x) * corrected x y (gram_sq x y y));
        Ok (1 - q)).
Proof.
  intros x y. split.
  - apply (debiased_cka_division_by_zero
             (mkMatrix 2 1 [1; 3]) (mkMatrix 2 1 [2; 5]));
      simpl; auto.
  - apply (debiased_cka_division_by_zero x y); simpl; auto.
Defined.

(** *** A run of the distance on sample activations *)

Ltac two_cases p Hp :=
  destruct p as [|[|p]]; [| |exfalso; simpl in Hp; lia].

(** A decomposition of a 2 x 2 matrix from explicit factors. *)
Lemma svd_2x2 (m u v : Matrix) (s0 s1 : R) :
  nrows m = 2%nat -> ncols m = 2%nat ->
  nrows u = 2%nat -> ncols u = 2%nat -> nrows v = 2%nat -> ncols v = 2%nat ->
  mget u 0 0 * mget u 0 0 + mget u 1 0 * mget u 1 0 = 1 ->
  mget u 0 1 * mget u 0 1 + mget u 1 1 * mget u 1 1 = 1 ->
  mget u 0 0 * mget u 0 1 + mget u 1 0 * mget u 1 1 = 0 ->
  mget v 0 0 * mget v 0 0 + mget v 1 0 * mget v 1 0 = 1 ->
  mget v 0 1 * mget v 0 1 + mget v 1 1 * mget v 1 1 = 1 ->
  mget v 0 0 * mget v 0 1 + mget v 1 0 * mget v 1 1 = 0 ->
  0 <= s1 -> s1 <= s0 ->
  (forall a b, (a < 2)%nat -> (b < 2)%nat ->
     mget m a b = mget u a 0 * s0 * mget v b 0 + mget u a 1 * s1 * mget v b 1) ->
  is_svd m u [s0; s1] v.
Proof.
  intros Hrm Hcm Hru Hcu Hrv Hcv U00 U11 U01 V00 V11 V01 Hs1 Hs Hm.
  unfold is_svd. rewrite Hrm, Hcm. simpl Nat.min.
  repeat split; try assumption; try reflexivity.
  - intros p q Hp Hq. rewrite Hcu in Hp, Hq. rewrite Hru. simpl.
    two_cases p Hp; two_cases q Hq;
      (destruct (decide _) as [E|E];
       [try discriminate E|try (exfalso; apply E; reflexivity)]);
      simpl; lra.
  - intros p q Hp Hq. rewrite Hcv in Hp, Hq. rewrite Hrv. simpl.
    two_cases p Hp; two_cases q Hq;
      (destruct (decide _) as [E|E];
       [try discriminate E|try (exfalso; apply E; reflexivity)]);
      simpl; lra.
  - intros p Hp. two_cases p Hp; unfold vget; simpl; lra.
  - intros p q Hpq Hq.
    two_cases q Hq; two_cases p Hpq; try (exfalso; lia); unfold vget; simpl; lra.
  - intros a b Ha Hb. rewrite (Hm a b Ha Hb). unfold vget. simpl. lra.
Qed.

(** The entries of the cross product of two matrices that are centered and
    of unit norm as they are. *)
Lemma cross_entries (x y m : Matrix) :
  centered_norm_sq x = 1 -> centered_norm_sq y = 1 -> nrows x = nrows y ->
  normalized_cross x y = Ok m ->
  nrows m = ncols x /\ ncols m = ncols y
  /\ forall a b, (a < ncols x)%nat -> (b < ncols y)%nat ->
       mget m a b = sum_n (nrows x) (fun i => centered x i a * centered y i b).
Proof.
  intros Hx Hy Hr Em.
  destruct (opd_unfold (H := failing_primitives) x y)
    as (m' & Em' & Hrm & Hcm & Hm & _); [lra|lra|exact Hr|].
  rewrite Em in Em'. injection Em' as <-.
  split; [exact Hrm|]. split; [exact Hcm|].
  intros a b Ha Hb. rewrite Hm by assumption. rewrite Hx, Hy, sqrt_1.
  apply sum_n_ext. intros. field.
Qed.

Lemma sample_x_unit : centered_norm_sq sample_x = 1.
Proof. unfold centered_norm_sq, centered, mget, sample_x. simpl. lra. Qed.

Lemma sample_y_unit : centered_norm_sq sample_y = 1.
Proof. unfold centered_norm_sq, centered, mget, sample_y. simpl. lra. Qed.

Lemma sample_xr_unit : centered_norm_sq sample_xr = 1.
Proof. unfold centered_norm_sq, centered, mget, sample_xr. simpl. lra. Qed.

Lemma sample_xr_product : matmul sample_x sample_rot = Ok sample_xr.
Proof.
  unfold matmul. simpl. unfold mk_mat, sample_xr, mget. simpl. f_equal. f_equal.
  repeat f_equal; lra.
Qed.

Ltac cross_entry Hm x y :=
  rewrite Hm by (simpl; lia); unfold centered, mget, x, y; simpl; lra.

Lemma sample_nuclear_norm_xx :
  nuclear_norm_correct_at (H := monomial_primitives)
    (normalized_cross sample_x sample_x).
Proof.
  intros m Em.
  destruct (cross_entries sample_x sample_x m sample_x_unit sample_x_unit eq_refl Em)
    as (Hrm & Hcm & Hm).
  assert (H00 : mget m 0 0 = 1 / 2) by cross_entry Hm sample_x sample_x.
  assert (H01 : mget m 0 1 = 0) by cross_entry Hm sample_x sample_x.
  assert (H10 : mget m 1 0 = 0) by cross_entry Hm sample_x sample_x.
  assert (H11 : mget m 1 1 = 1 / 2) by cross_entry Hm sample_x sample_x.
  eexists. split; [reflexivity|].
  exists (eye 2), [1 / 2; 1 / 2], (eye 2). split.
  - apply svd_2x2; try assumption; try reflexivity;
      try (unfold eye, mk_mat, mget; simpl; lra).
    intros a b Ha Hb. two_cases a Ha; two_cases b Hb;
      rewrite ?H00, ?H01, ?H10, ?H11; unfold eye, mk_mat, mget; simpl; lra.
  - rewrite H00, H01, H10, H11. unfold vsum, vget. simpl. lra.
Qed.

Lemma sample_nuclear_norm_xr :
  nuclear_norm_correct_at (H := monomial_primitives)
    (normalized_cross sample_x sample_xr).
Proof.
  intros m Em.
  destruct (cross_entries sample_x sample_xr m sample_x_unit sample_xr_unit eq_refl Em)
    as (Hrm & Hcm & Hm).
  assert (H00 : mget m 0 0 = 0) by cross_entry Hm sample_x sample_xr.
  assert (H01 : mget m 0 1 = 1 / 2) by cross_entry Hm sample_x sample_xr.
  assert (H10 : mget m 1 0 = 1 / 2) by cross_entry Hm sample_x sample_xr.
  assert (H11 : mget m 1 1 = 0) by cross_entry Hm sample_x sample_xr.
  eexists. split; [reflexivity|].
  exists (eye 2), [1 / 2; 1 / 2], sample_rot. split.
  - apply svd_2x2; try assumption; try reflexivity;
      try (unfold eye, sample_rot, mk_mat, mget; simpl; lra).
    intros a b Ha Hb. two_cases a Ha; two_cases b Hb;
      rewrite ?H00, ?H01, ?H10, ?H11; unfold eye, sample_rot, mk_mat, mget;
      simpl; lra.
  - rewrite H00, H01, H10, H11. unfold vsum, vget. simpl. lra.
Qed.

Lemma sample_nuclear_norm_xy :
  nuclear_norm_correct_at (H := monomial_primitives)
    (normalized_cross sample_x sample_y).
Proof.
  intros m Em.
  destruct (cross_entries sample_x sample_y m sample_x_unit sample_y_unit eq_refl Em)
    as (Hrm & Hcm & Hm).
  assert (H00 : mget m 0 0 = 1 / 2) by cross_entry Hm sample_x sample_y.
  assert (H01 : mget m 0 1 = 0) by cross_entry Hm sample_x sample_y.
  assert (H10 : mget m 1 0 = 0) by cross_entry Hm sample_x sample_y.
  assert (H11 : mget m 1 1 = 0) by cross_entry Hm sample_x sample_y.
  eexists. split; [reflexivity|].
  exists (eye 2), [1 / 2; 0], (eye 2). split.
  - apply svd_2x2; try assumption; try reflexivity;
      try (unfold eye, mk_mat, mget; simpl; lra).
    intros a b Ha Hb. two_cases a Ha; two_cases b Hb;
      rewrite ?H00, ?H01, ?H10, ?H11; unfold eye, mk_mat, mget; simpl; lra.
  - rewrite H00, H01, H10, H11. unfold vsum, vget. simpl. lra.
Qed.

Lemma sample_rot_orthogonal : orthogonal sample_rot.
Proof.
  split; [reflexivity|].
  split; intros p q Hp Hq; simpl in Hp, Hq;
    two_cases p Hp; two_cases q Hq;
    (destruct (decide _) as [E|E];
     [try discriminate E|try (exfalso; apply E; reflexivity)]);
    unfold transpose, sample_rot, mk_mat, mget; simpl; lra.
Qed.

Lemma opd_properties_witness :
  orthogonal_procrustes_distance (H := monomial_primitives) sample_x sample_x = Ok 0
  /\ orthogonal_procrustes_distance (H := monomial_primitives) sample_x sample_xr
     = Ok 0
  /\ exists d,
       orthogonal_procrustes_distance (H := monomial_primitives) sample_x sample_y
       = Ok d /\ 0 <= d <= 1.
Proof.
  apply (opd_properties (H := monomial_primitives)
           sample_x sample_y sample_rot sample_xr).
  - exists 0%nat, 0%nat. split; [simpl; lia|]. split; [simpl; lia|].
    unfold centered, mget, sample_x. simpl. lra.
  - exists 0%nat, 0%nat. split; [simpl; lia|]. split; [simpl; lia|].
    unfold centered, mget, sample_y. simpl. lra.
  - reflexivity.
  - exact sample_rot_orthogonal.
  - reflexivity.
  - exact sample_xr_product.
  - exact sample_nuclear_norm_xx.
  - exact sample_nuclear_norm_xr.
  - exact sample_nuclear_norm_xy.
Defined.

(** The decompositions that [asym_primitives] returns are decompositions of
    the matrices that CCA hands to [_svd] on the sample. *)
Lemma asym_svd_x (xc : Matrix) :
  _zero_mean asym_x 0 = Ok xc -> is_svd xc asym_u1 [4; 2] (eye 2).
Proof.
  rewrite _zero_mean_rows. intros E. injection E as <-.
  unfold is_svd. cbn [nrows ncols mk_mat asym_x asym_u1 eye Nat.min length].
  repeat split.
  - intros p q Hp Hq. cbn [ncols nrows] in *.
    cases_below p; cases_below q; unfold mget; simpl; lra.
  - intros p q Hp Hq. cbn [ncols nrows mk_mat] in *.
    cases_below p; cases_below q; unfold mget; simpl; lra.
  - intros p Hp. cases_below p; unfold vget; simpl; lra.
  - intros p q Hpq Hq. cases_below q; cases_below p; try (exfalso; lia);
      unfold vget; simpl; lra.
  - intros a b Ha Hb. rewrite mget_mk_mat by assumption.
    cases_below a; cases_below b; unfold mget, vget; simpl; lra.
Qed.

Lemma asym_svd_y (yc : Matrix) :
  _zero_mean asym_y 0 = Ok yc -> is_svd yc asym_u2 [12; 10; 2] (eye 3).
Proof.
  rewrite _zero_mean_rows. intros E. injection E as <-.
  unfold is_svd. cbn [nrows ncols mk_mat asym_y asym_u2 eye Nat.min length].
  repeat split.
  - intros p q Hp Hq. cbn [ncols nrows] in *.
    cases_below p; cases_below q; unfold mget; simpl; lra.
  - intros p q Hp Hq. cbn [ncols nrows mk_mat] in *.
    cases_below p; cases_below q; unfold mget; simpl; lra.
  - intros p Hp. cases_below p; unfold vget; simpl; lra.
  - intros p q Hpq Hq. cases_below q; cases_below p; try (exfalso; lia);
      unfold vget; simpl; lra.
  - intros a b Ha Hb. rewrite mget_mk_mat by assumption.
    cases_below a; cases_below b; unfold mget, vget; simpl; lra.
Qed.

Lemma asym_svd_cross_xy (uu : Matrix) :
  matmul (transpose asym_u1) asym_u2 = Ok uu ->
  is_svd uu (eye 2) [1; 3 / 5] asym_e32.
Proof.
  rewrite matmul_Ok by reflexivity. intros E. injection E as <-.
  unfold is_svd.
  cbn [nrows ncols mk_mat transpose asym_u1 asym_u2 asym_e32 eye Nat.min length].
  repeat split.
  - intros p q Hp Hq. cbn [ncols nrows mk_mat] in *.
    cases_below p; cases_below q; unfold mget; simpl; lra.
  - intros p q Hp Hq. cbn [ncols nrows] in *.
    cases_below p; cases_below q; unfold mget; simpl; lra.
  - intros p Hp. cases_below p; unfold vget; simpl; lra.
  - intros p q Hpq Hq. cases_below q; cases_below p; try (exfalso; lia);
      unfold vget; simpl; lra.
  - intros a b Ha Hb. rewrite mget_mk_mat by assumption.
    cases_below a; cases_below b; unfold mget, vget; simpl;
      unfold mget, asym_u1, asym_u2; simpl; lra.
Qed.

Lemma asym_svd_cross_yx (uu : Matrix) :
  matmul (transpose asym_u2) asym_u1 = Ok uu ->
  is_svd uu asym_e32 [1; 3 / 5] (eye 2).
Proof.
  rewrite matmul_Ok by reflexivity. intros E. injection E as <-.
  unfold is_svd.
  cbn [nrows ncols mk_mat transpose asym_u1 asym_u2 asym_e32 eye Nat.min length].
  repeat split.
  - intros p q Hp Hq. cbn [ncols nrows] in *.
    cases_below p; cases_below q; unfold mget; simpl; lra.
  - intros p q Hp Hq. cbn [ncols nrows mk_mat] in *.
    cases_below p; cases_below q; unfold mget; simpl; lra.
  - intros p Hp. cases_below p; unfold vget; simpl; lra.
  - intros p q Hpq Hq. cases_below q; cases_below p; try (exfalso; lia);
      unfold vget; simpl; lra.
  - intros a b Ha Hb. rewrite mget_mk_mat by assumption.
    cases_below a; cases_below b; unfold mget, vget; simpl;
      unfold mget, asym_u1, asym_u2; simpl; lra.
Qed.

Lemma asym_svd_correct_xy :
  svd_correct_for_cca (H := asym_primitives) asym_x asym_y.
Proof.
  intros xc yc Ex Ey.
  exists asym_u1, [4; 2], (eye 2), asym_u2, [12; 10; 2], (eye 3).
  split; [|split; [exact (asym_svd_x xc Ex)|]].
  { rewrite _zero_mean_rows in Ex. injection Ex as <-. reflexivity. }
  split; [|split; [exact (asym_svd_y yc Ey)|]].
  { rewrite _zero_mean_rows in Ey. injection Ey as <-. reflexivity. }
  intros uu Euu. exists (eye 2), [1; 3 / 5], asym_e32.
  split; [|exact (asym_svd_cross_xy uu Euu)].
  rewrite matmul_Ok in Euu by reflexivity. injection Euu as <-. reflexivity.
Qed.

Lemma asym_svd_correct_yx :
  svd_correct_for_cca (H := asym_primitives) asym_y asym_x.
Proof.
  intros yc xc Ey Ex.
  exists asym_u2, [12; 10; 2], (eye 3), asym_u1, [4; 2], (eye 2).
  split; [|split; [exact (asym_svd_y yc Ey)|]].
  { rewrite _zero_mean_rows in Ey. injection Ey as <-. reflexivity. }
  split; [|split; [exact (asym_svd_x xc Ex)|]].
  { rewrite _zero_mean_rows in Ex. injection Ex as <-. reflexivity. }
  intros uu Euu. exists asym_e32, [1; 3 / 5], (eye 2).
  split; [|exact (asym_svd_cross_yx uu Euu)].
  rewrite matmul_Ok in Euu by reflexivity. injection Euu as <-. reflexivity.
Qed.

Lemma pwcca_asymmetric_witness :
  pwcca_distance (H := asym_primitives) asym_x asym_y "svd" = Ok (1 / 5)
  /\ pwcca_distance (H := asym_primitives) asym_y asym_x "svd" = Ok (7 / 30).
Proof.
  destruct (pwcca_asymmetric (H := asym_primitives)
              asym_svd_correct_xy asym_svd_correct_yx)
    as (_ & _ & Exy & Eyx & _).
  split; assumption.
Defined.

(* ================================================================== *)
(** * Further properties of similarity.py *)
(* ================================================================== *)

(** ** Errors of the distance functions *)

Lemma _zero_mean_Ok (x : Matrix) :
  exists c, _zero_mean x 0 = Ok c /\ nrows c = nrows x /\ ncols c = ncols x.
Proof. eexists. split; [reflexivity|]. split; reflexivity. Qed.

Lemma mdiv_shape (m : Matrix) (c : R) :
  exists q, (mdiv m c = Ok q \/ mdiv m c = NonFinite q)
            /\ nrows q = nrows m /\ ncols q = ncols m.
Proof.
  exists (mkMatrix (nrows m) (ncols m) (map (fun a => a / c) (entries m))).
  split; [|split; reflexivity]. unfold mdiv.
  destruct (entries m); [left; reflexivity|].
  destruct (decide (c = 0)); [right|left]; reflexivity.
Qed.

Lemma _matrix_normalize_shape (x : Matrix) :
  exists q, (_matrix_normalize x 0 = Ok q \/ _matrix_normalize x 0 = NonFinite q)
            /\ nrows q = nrows x /\ ncols q = ncols x.
Proof.
  unfold _matrix_normalize.
  destruct (_zero_mean_Ok x) as (c & -> & Hr & Hc). rewrite bind_Ok.
  destruct (mdiv_shape c (frobenius c)) as (q & Hq & Hqr & Hqc).
  exists q. split; [exact Hq|]. split; congruence.
Qed.

(** X1. [cca] accepts the backends 'svd' and 'qr' only: with equal row
    counts, any other backend string makes [cca], and [pwcca_distance] which
    calls it first, raise [ValueError], whatever the decompositions do. *)
Theorem cca_unknown_backend_raises `{LinearAlgebraPrimitives}
    (x y : Matrix) (backend : string) :
  nrows x = nrows y -> backend <> "svd" -> backend <> "qr" ->
  cca x y backend = Raise ValueError
  /\ pwcca_distance x y backend = Raise ValueError.
Proof.
  intros Hr Hs Hq.
  assert (Hc : cca x y backend = Raise ValueError).
  { unfold cca, py_assert. rewrite (bool_decide_eq_true_2 _ Hr), bind_Ok.
    rewrite (bool_decide_eq_false_2 _ Hs), (bool_decide_eq_false_2 _ Hq).
    reflexivity. }
  split; [exact Hc|]. unfold pwcca_distance. rewrite Hc. reflexivity.
Qed.

Lemma cca_unknown_backend_raises_witness :
  let x := mkMatrix 2 1 [1; 2] in
  cca (H := failing_primitives) x x "SVD" = Raise ValueError
  /\ pwcca_distance (H := failing_primitives) x x "SVD" = Raise ValueError.
Proof.
  intros x.
  apply (cca_unknown_backend_raises (H := failing_primitives) x x "SVD");
    [reflexivity|discriminate|discriminate].
Defined.

Lemma linear_cka_rows_differ (x y : Matrix) (reduce_bias : bool) :
  nrows x <> nrows y ->
  linear_cka_distance x y reduce_bias = Raise ValueError.
Proof.
  intros Hne. unfold linear_cka_distance.
  destruct (_zero_mean_Ok x) as (cx & -> & Hrx & _).
  destruct (_zero_mean_Ok y) as (cy & -> & Hry & _).
  rewrite !bind_Ok.
  destruct (decide (nrows cx <> nrows cy)) as [_|E]; [reflexivity|].
  exfalso. apply E. congruence.
Qed.

(** X2. Differing row counts are rejected by both distances that do not go
    through [cca]. [linear_cka_distance] checks them itself and raises
    [ValueError], with and without the bias reduction.
    [orthogonal_procrustes_distance] has no check of its own (the call of
    [_check_shape_equal] is commented out): both inputs are normalized and
    the product [x.t() @ y] raises [RuntimeError]; the nuclear norm is never
    asked for. *)
Theorem row_mismatch_raises `{LinearAlgebraPrimitives} (x y : Matrix)
    (reduce_bias : bool) :
  nrows x <> nrows y ->
  linear_cka_distance x y reduce_bias = Raise ValueError
  /\ orthogonal_procrustes_distance x y = Raise RuntimeError.
Proof.
  intros Hne. split; [apply linear_cka_rows_differ, Hne|].
  unfold orthogonal_procrustes_distance.
  destruct (_matrix_normalize_shape x) as (qx & Hx & Hrx & _).
  destruct (_matrix_normalize_shape y) as (qy & Hy & Hry & _).
  assert (Hm : matmul (transpose qx) qy = Raise RuntimeError).
  { unfold matmul. destruct (decide _) as [E|_]; [|reflexivity].
    exfalso. apply Hne. simpl in E. congruence. }
  destruct Hx as [-> | ->], Hy as [-> | ->]; simpl; rewrite Hm; reflexivity.
Qed.

Lemma row_mismatch_raises_witness :
  linear_cka_distance (mkMatrix 2 1 [1; 2]) (mkMatrix 3 1 [1; 2; 4]) true
  = Raise ValueError
  /\ orthogonal_procrustes_distance (H := monomial_primitives)
       (mkMatrix 2 1 [1; 2]) (mkMatrix 3 1 [1; 2; 4]) = Raise RuntimeError.
Proof.
  apply (row_mismatch_raises (H := monomial_primitives)). simpl. lia.
Defined.

(** ** Centering and normalization *)

Lemma centered_column_sum (x : Matrix) (j : nat) :
  sum_n (nrows x) (fun i => centered x i j) = 0.
Proof.
  unfold centered. rewrite sum_n_minus, sum_n_const.
  destruct (nrows x) as [|n] eqn:E; [simpl; lra|].
  assert (INR (S n) <> 0) by (apply not_0_INR; lia). field. assumption.
Qed.

(** X3. [_zero_mean(x, dim=0)] always returns, keeps the shape of [x], and
    every column of the result sums to zero; centering a centered matrix
    changes nothing. *)
Theorem zero_mean_centers_columns (x : Matrix) :
  exists c,
    _zero_mean x 0 = Ok c
    /\ nrows c = nrows x /\ ncols c = ncols x
    /\ (forall j, (j < ncols x)%nat -> sum_n (nrows c) (fun i => mget c i j) = 0)
    /\ _zero_mean c 0 = Ok c.
Proof.
  eexists. split; [apply _zero_mean_rows|].
  split; [reflexivity|]. split; [reflexivity|].
  fold (mk_mat (nrows x) (ncols x) (centered x)).
  assert (Hsum : forall j, (j < ncols x)%nat ->
            sum_n (nrows x) (fun i => mget (mk_mat (nrows x) (ncols x) (centered x)) i j) = 0).
  { intros j Hj. rewrite <- (centered_column_sum x j). apply sum_n_ext.
    intros i Hi. apply mget_mk_mat; assumption. }
  split; [exact Hsum|].
  rewrite _zero_mean_rows. f_equal. apply mk_mat_ext. intros i j Hi Hj.
  simpl nrows. rewrite Hsum by exact Hj. rewrite mget_mk_mat by assumption.
  unfold Rdiv. rewrite Rmult_0_l. ring.
Qed.

(** X4. A matrix that is not zero after centering is normalized to a matrix
    of the same shape and of Frobenius norm one. *)
Theorem matrix_normalize_unit_norm (x : Matrix) :
  nonzero_centered x ->
  exists xs,
    _matrix_normalize x 0 = Ok xs
    /\ nrows xs = nrows x /\ ncols xs = ncols x
    /\ frobenius xs = 1.
Proof.
  intros Hx. pose proof (nonzero_centered_norm x Hx) as Hpos.
  destruct (_matrix_normalize_Ok x Hpos) as (xs & E & Hr & Hc & Hxs).
  exists xs. split; [exact E|]. split; [exact Hr|]. split; [exact Hc|].
  unfold frobenius. rewrite Hr, Hc.
  rewrite (normalized_unit x (mget xs) Hpos Hxs). apply sqrt_1.
Qed.

Lemma matrix_normalize_unit_norm_witness :
  exists xs,
    _matrix_normalize (mkMatrix 2 1 [1; 3]) 0 = Ok xs
    /\ nrows xs = 2%nat /\ ncols xs = 1%nat /\ frobenius xs = 1.
Proof.
  apply (matrix_normalize_unit_norm (mkMatrix 2 1 [1; 3])).
  exists 0%nat, 0%nat. split; [simpl; lia|]. split; [simpl; lia|].
  unfold centered, mget. simpl. lra.
Defined.

(** X5. A matrix whose rows are all equal (a single data point among them)
    is zero after centering: [_matrix_normalize] divides by a zero norm and
    returns [nan] entries. *)
Theorem matrix_normalize_constant_rows (x : Matrix) :
  (0 < nrows x)%nat -> (0 < ncols x)%nat ->
  (forall i j, (i < nrows x)%nat -> (j < ncols x)%nat -> mget x i j = mget x 0 j) ->
  exists q, _matrix_normalize x 0 = NonFinite q.
Proof.
  intros Hn Hd Hconst. unfold _matrix_normalize. rewrite _zero_mean_rows, bind_Ok.
  set (c := mk_mat (nrows x) (ncols x) _).
  assert (Hz : frobenius c = 0).
  { apply frobenius_zero. intros i j Hi Hj. unfold c in *. simpl in Hi, Hj.
    rewrite mget_mk_mat by assumption.
    rewrite (sum_n_ext _ _ (fun _ => mget x 0 j)).
    2:{ intros k Hk. apply Hconst; assumption. }
    rewrite sum_n_const, (Hconst i j) by assumption.
    assert (INR (nrows x) <> 0) by (apply not_0_INR; lia). field. assumption. }
  unfold mdiv. rewrite Hz.
  pose proof (wf_mk_mat (nrows x) (ncols x)
                (fun i j => mget x i j
                   - sum_n (nrows x) (fun k => mget x k j) / INR (nrows x))) as Hwf.
  fold c in Hwf. unfold wf_matrix in Hwf.
  destruct (entries c) as [|e es] eqn:E.
  { exfalso. simpl in Hwf. unfold c in Hwf. simpl in Hwf. nia. }
  destruct (decide (0 = 0)) as [_|F]; [|contradiction].
  eexists. reflexivity.
Qed.

Lemma matrix_normalize_constant_rows_witness :
  exists q, _matrix_normalize (mkMatrix 1 2 [5; 7]) 0 = NonFinite q.
Proof.
  apply (matrix_normalize_constant_rows (mkMatrix 1 2 [5; 7])).
  - simpl. lia.
  - simpl. lia.
  - intros i j Hi Hj. simpl in Hi. replace i with 0%nat by lia. reflexivity.
Defined.

(** ** Linear CKA *)

Lemma dot_comm (u v : Vector) : dot u v = dot v u.
Proof.
  unfold dot. destruct (decide (length u = length v)) as [E|E];
    destruct (decide (length v = length u)) as [E'|E']; try congruence.
  rewrite E. f_equal. apply sum_n_ext. intros k _. ring.
Qed.

Lemma debiased_swap (z : R) (sx sy : Vector) (qx qy : R) (n : Z) :
  _debiased_dot_product_similarity z sx sy qx qy n
  = _debiased_dot_product_similarity z sy sx qy qx n.
Proof.
  unfold _debiased_dot_product_similarity.
  rewrite (dot_comm sx sy), (Rmult_comm qx qy). reflexivity.
Qed.

(** The correction adds to [z] a term that does not depend on [z], and
    whether it raises or divides by zero does not depend on [z] either. *)
Lemma debiased_cases (sx sy : Vector) (qx qy : R) (n : Z) :
  (exists e, forall z, _debiased_dot_product_similarity z sx sy qx qy n = Raise e)
  \/ (exists k, forall z, _debiased_dot_product_similarity z sx sy qx qy n = Ok (z + k))
  \/ (exists k, forall z,
        _debiased_dot_product_similarity z sx sy qx qy n = NonFinite (z + k)).
Proof.
  unfold _debiased_dot_product_similarity, py_div, dot, tdiv.
  destruct (decide (IZR (n - 2) = 0)); [left; eexists; reflexivity|].
  destruct (decide (length sx = length sy)); [|left; eexists; reflexivity].
  right.
  destruct (decide (IZR ((n - 1) * (n - 2)) = 0)); [right|left];
    exists (qx * qy / IZR ((n - 1) * (n - 2))
            - IZR n / IZR (n - 2)
              * sum_n (length sx) (fun k => vget sx k * vget sy k));
    intros z; simpl; f_equal; ring.
Qed.

Lemma frobenius_cross_comm (a b m1 m2 : Matrix) :
  nrows a = nrows b ->
  matmul (transpose a) b = Ok m1 -> matmul (transpose b) a = Ok m2 ->
  frobenius m1 = frobenius m2.
Proof.
  intros Hr H1 H2.
  rewrite matmul_Ok in H1 by (simpl; congruence).
  rewrite matmul_Ok in H2 by (simpl; congruence).
  injection H1 as <-. injection H2 as <-.
  unfold frobenius. f_equal. simpl. rewrite sum_n_swap.
  apply sum_n_ext2. intros q p Hq Hp. rewrite !mget_mk_mat by assumption.
  simpl in Hq, Hp |- *.
  rewrite Hr. f_equal; apply sum_n_ext; intros i Hi;
    rewrite !mget_transpose by lia; ring.
Qed.

(** X6. Linear CKA does not depend on the order of its arguments, with and
    without the bias reduction, on every input (also those on which it
    raises or divides by zero). *)
Theorem linear_cka_symmetric (x y : Matrix) (reduce_bias : bool) :
  linear_cka_distance x y reduce_bias = linear_cka_distance y x reduce_bias.
Proof.
  destruct (decide (nrows x = nrows y)) as [Hr|Hne].
  2:{ rewrite !linear_cka_rows_differ by congruence. reflexivity. }
  destruct (linear_cka_unfold x y reduce_bias Hr)
    as (xc & yc & yx & xx & yy & Ex & Ey & Hrx & Hry & _ & _ & _ & _
        & Hyx & Hxx & Hyy & ->).
  destruct (linear_cka_unfold y x reduce_bias (eq_sym Hr))
    as (yc' & xc' & xy & yy' & xx' & Ey' & Ex' & _ & _ & _ & _ & _ & _
        & Hxy & Hyy' & Hxx' & ->).
  assert (yc' = yc) by congruence. assert (xc' = xc) by congruence. subst yc' xc'.
  assert (yy' = yy) by congruence. assert (xx' = xx) by congruence. subst yy' xx'.
  assert (Hf : frobenius xy = frobenius yx).
  { apply (frobenius_cross_comm xc yc); [congruence|assumption|assumption]. }
  rewrite Hf. destruct reduce_bias.
  - cbv zeta. rewrite Hr.
    set (sx := einsum_row_sq xc). set (sy := einsum_row_sq yc).
    set (n := Z.of_nat (nrows y)).
    assert (Hs : forall z, _debiased_dot_product_similarity z sy sx (vsum sy) (vsum sx) n
                 = _debiased_dot_product_similarity z sx sy (vsum sx) (vsum sy) n).
    { intros z. apply debiased_swap. }
    rewrite !Hs.
    destruct (debiased_cases sx sy (vsum sx) (vsum sy) n)
      as [(e & He)|[(k & Hk)|(k & Hk)]].
    + rewrite !He. reflexivity.
    + rewrite !Hk, !bind_Ok.
      rewrite (Rmult_comm (frobenius yy ^ 2 + k)). reflexivity.
    + rewrite !Hk. simpl.
      rewrite (Rmult_comm (frobenius yy * (frobenius yy * 1) + k)). reflexivity.
  - rewrite (Rmult_comm (frobenius yy)). reflexivity.
Qed.

Lemma sum_n_nonneg_zero (n : nat) (f : nat -> R) :
  (forall i, (i < n)%nat -> 0 <= f i) -> sum_n n f = 0 ->
  forall i, (i < n)%nat -> f i = 0.
Proof.
  induction n as [|n IH]; simpl; intros Hf Hs i Hi; [lia|].
  assert (0 <= sum_n n f) by (apply sum_n_nonneg; intros; apply Hf; lia).
  assert (0 <= f n) by (apply Hf; lia).
  destruct (decide (i = n)) as [->|Hne]; [lra|].
  apply IH; [intros; apply Hf; lia|lra|lia].
Qed.

(** The Gram matrix of a matrix that is not zero after centering is not
    zero. *)
Lemma gram_norm_positive (x xc xx : Matrix) :
  nonzero_centered x ->
  nrows xc = nrows x -> ncols xc = ncols x ->
  (forall i j, (i < nrows x)%nat -> (j < ncols x)%nat -> mget xc i j = centered x i j) ->
  matmul (transpose xc) xc = Ok xx ->
  0 < frobenius xx.
Proof.
  intros (i & p & Hi & Hp & Hne) Hr Hc Hx Hm.
  rewrite matmul_Ok in Hm by reflexivity. injection Hm as <-.
  set (g := mk_mat _ _ _).
  destruct (frobenius_nonneg g) as [Hlt|Hz]; [exact Hlt|].
  symmetry in Hz. subst g.
  exfalso. apply Hne.
  apply (f_equal (fun r => r ^ 2)) in Hz. rewrite frobenius_sq in Hz.
  simpl in Hz. rewrite Rmult_0_l in Hz. rewrite Hc, Hr in Hz.
  assert (Hrow : sum_n (ncols x) (fun q =>
            mget (mk_mat (ncols x) (ncols x)
                    (fun i j => sum_n (nrows x)
                       (fun k => mget (transpose xc) i k * mget xc k j))) p q
            * mget (mk_mat (ncols x) (ncols x)
                    (fun i j => sum_n (nrows x)
                       (fun k => mget (transpose xc) i k * mget xc k j))) p q) = 0).
  { apply (sum_n_nonneg_zero (ncols x) _) with (i := p) in Hz; [exact Hz| |exact Hp].
    intros p' _. apply sum_n_nonneg. intros. apply Rle_0_sqr. }
  apply (sum_n_sq_zero (ncols x) _ ) with (i := p) in Hrow; [|exact Hp].
  rewrite mget_mk_mat in Hrow by assumption.
  rewrite (sum_n_ext _ _ (fun k => centered x k p * centered x k p)) in Hrow.
  2:{ intros k Hk. rewrite mget_transpose by lia. rewrite Hx by assumption.
      reflexivity. }
  apply (sum_n_sq_zero (nrows x) (fun k => centered x k p) Hrow i Hi).
Qed.

(** X7. Without the bias reduction, the linear CKA distance of a matrix that
    is not zero after centering to itself is 0. *)
Theorem linear_cka_self_distance (x : Matrix) :
  nonzero_centered x -> linear_cka_distance x x false = Ok 0.
Proof.
  intros Hx.
  destruct (linear_cka_unfold x x false eq_refl)
    as (xc & yc & yx & xx & yy & Ex & Ey & Hrx & _ & Hcx & _ & Hxc & _
        & Hyx & Hxx & Hyy & ->).
  assert (yc = xc) by congruence. subst yc.
  assert (yx = xx) by congruence. assert (yy = xx) by congruence. subst yx yy.
  pose proof (gram_norm_positive x xc xx Hx Hrx Hcx Hxc Hxx) as Hpos.
  unfold tdiv. destruct (decide _) as [E|_]; [nra|].
  rewrite bind_Ok. f_equal. field. lra.
Qed.

Lemma linear_cka_self_distance_witness :
  linear_cka_distance (mkMatrix 2 1 [1; 3]) (mkMatrix 2 1 [1; 3]) false = Ok 0.
Proof.
  apply linear_cka_self_distance.
  exists 0%nat, 0%nat. split; [simpl; lia|]. split; [simpl; lia|].
  unfold centered, mget. simpl. lra.
Defined.

(** The squared Frobenius norm of a cross product [b^T a], as the inner
    product of the two Gram matrices over the data points. *)
Lemma gram_identity (n d1 d2 : nat) (a b : nat -> nat -> R) :
  sum_n d1 (fun p => sum_n d2 (fun q =>
    sum_n n (fun i => a i p * b i q) * sum_n n (fun i => a i p * b i q)))
  = sum_n n (fun i => sum_n n (fun j =>
      sum_n d1 (fun p => a i p * a j p) * sum_n d2 (fun q => b i q * b j q))).
Proof.
  transitivity (sum_n d1 (fun p => sum_n d2 (fun q => sum_n n (fun i =>
                  sum_n n (fun j => (a i p * a j p) * (b i q * b j q)))))).
  { apply sum_n_ext2. intros p q _ _. rewrite sum_n_mult.
    apply sum_n_ext2. intros; ring. }
  transitivity (sum_n n (fun i => sum_n n (fun j => sum_n d1 (fun p =>
                  sum_n d2 (fun q => (a i p * a j p) * (b i q * b j q)))))).
  2:{ apply sum_n_ext2. intros i j _ _. rewrite sum_n_mult. reflexivity. }
  transitivity (sum_n d1 (fun p => sum_n n (fun i => sum_n d2 (fun q =>
                  sum_n n (fun j => (a i p * a j p) * (b i q * b j q)))))).
  { apply sum_n_ext. intros p _. apply sum_n_swap. }
  rewrite sum_n_swap. apply sum_n_ext. intros i _.
  transitivity (sum_n d1 (fun p => sum_n n (fun j => sum_n d2 (fun q =>
                  (a i p * a j p) * (b i q * b j q))))).
  { apply sum_n_ext. intros p _. apply sum_n_swap. }
  apply sum_n_swap.
Qed.

Lemma discriminant_bound (A B C : R) :
  (forall t, 0 <= A * t * t + 2 * B * t + C) -> B * B <= A * C.
Proof.
  intros Hq.
  destruct (Req_dec A 0) as [->|HA].
  - assert (B = 0).
    { destruct (Req_dec B 0) as [|HB]; [assumption|exfalso].
      pose proof (Hq (- (C + 1) / (2 * B))) as H1.
      replace (0 * (- (C + 1) / (2 * B)) * (- (C + 1) / (2 * B))
               + 2 * B * (- (C + 1) / (2 * B)) + C) with (-1) in H1
        by (field; lra).
      lra. }
    subst B. lra.
  - assert (0 < A).
    { pose proof (Hq 0) as H0.
      destruct (Rlt_dec 0 A) as [|Hn]; [assumption|]. exfalso.
      assert (HA' : A < 0) by lra.
      pose proof (Hq ((Rabs B + C + 1) / - A + 1)) as H1.
      pose proof (Hq (- ((Rabs B + C + 1) / - A + 1))) as H2.
      pose proof (Rabs_pos B). pose proof (Rle_abs B). pose proof (Rle_abs (- B)).
      rewrite Rabs_Ropp in *.
      set (t := (Rabs B + C + 1) / - A + 1) in *.
      assert (Ht : 1 <= t).
      { unfold t. assert (0 <= (Rabs B + C + 1) / - A); [|lra].
        apply Rmult_le_pos; [lra|]. left. apply Rinv_0_lt_compat. lra. }
      assert (Hat : - A * t >= Rabs B + C + 1).
      { unfold t. field_simplify; [|lra]. lra. }
      nra. }
    pose proof (Hq (- B / A)) as Ht.
    assert (E : A * (- B / A) * (- B / A) + 2 * B * (- B / A) + C
                = (A * C - B * B) / A) by (field; lra).
    rewrite E in Ht.
    assert (0 <= (A * C - B * B) / A * A) by (apply Rmult_le_pos; lra).
    replace ((A * C - B * B) / A * A) with (A * C - B * B) in * by (field; lra).
    lra.
Qed.

Lemma cauchy_schwarz2 (n m : nat) (f g : nat -> nat -> R) :
  sum_n n (fun i => sum_n m (fun j => f i j * g i j))
  * sum_n n (fun i => sum_n m (fun j => f i j * g i j))
  <= sum_n n (fun i => sum_n m (fun j => f i j * f i j))
     * sum_n n (fun i => sum_n m (fun j => g i j * g i j)).
Proof.
  apply discriminant_bound. intros t.
  assert (E : sum_n n (fun i => sum_n m (fun j => f i j * f i j)) * t * t
              + 2 * sum_n n (fun i => sum_n m (fun j => f i j * g i j)) * t
              + sum_n n (fun i => sum_n m (fun j => g i j * g i j))
              = sum_n n (fun i => sum_n m (fun j =>
                  (f i j * t + g i j) * (f i j * t + g i j)))).
  { symmetry.
    transitivity (sum_n n (fun i =>
                    (t * t) * sum_n m (fun j => f i j * f i j)
                    + ((2 * t) * sum_n m (fun j => f i j * g i j)
                       + sum_n m (fun j => g i j * g i j)))).
    { apply sum_n_ext. intros i _.
      transitivity (sum_n m (fun j => (t * t) * (f i j * f i j)
                                      + ((2 * t) * (f i j * g i j) + g i j * g i j))).
      { apply sum_n_ext. intros; ring. }
      rewrite !sum_n_plus, !sum_n_scal_l. reflexivity. }
    rewrite !sum_n_plus, !sum_n_scal_l. ring. }
  rewrite E. apply sum_n_nonneg. intros i _. apply sum_n_nonneg. intros j _.
  apply Rle_0_sqr.
Qed.

Lemma frobenius_gram_inner (n : nat) (a b ac bc m : Matrix) :
  nrows ac = n -> nrows bc = n -> nrows a = n -> nrows b = n ->
  ncols ac = ncols a -> ncols bc = ncols b ->
  (forall i j, (i < n)%nat -> (j < ncols a)%nat -> mget ac i j = centered a i j) ->
  (forall i j, (i < n)%nat -> (j < ncols b)%nat -> mget bc i j = centered b i j) ->
  matmul (transpose ac) bc = Ok m ->
  frobenius m ^ 2
  = sum_n n (fun i => sum_n n (fun j =>
      sum_n (ncols a) (fun p => centered a i p * centered a j p)
      * sum_n (ncols b) (fun q => centered b i q * centered b j q))).
Proof.
  intros Hra Hrb Hna Hnb Hca Hcb Ha Hb Hm.
  rewrite (frobenius_gram n a b ac bc m) by assumption.
  rewrite <- gram_identity. apply sum_n_ext2. intros p q _ _. ring.
Qed.

(** X8. Without the bias reduction, the linear CKA distance of two matrices
    with equal row counts that are not zero after centering is a number
    between 0 and 1. *)
Theorem linear_cka_range (x y : Matrix) :
  nrows x = nrows y -> nonzero_centered x -> nonzero_centered y ->
  exists d, linear_cka_distance x y false = Ok d /\ 0 <= d <= 1.
Proof.
  intros Hr Hx Hy.
  destruct (linear_cka_unfold x y false Hr)
    as (xc & yc & yx & xx & yy & Ex & Ey & Hrx & Hry & Hcx & Hcy & Hxc & Hyc
        & Hyx & Hxx & Hyy & ->).
  assert (Hyc' : forall i j, (i < nrows y)%nat -> (j < ncols y)%nat ->
                   mget yc i j = centered y i j).
  { rewrite <- Hr. exact Hyc. }
  assert (Hry' : nrows yc = nrows y) by congruence.
  pose proof (gram_norm_positive x xc xx Hx Hrx Hcx Hxc Hxx) as Hfx.
  pose proof (gram_norm_positive y yc yy Hy Hry' Hcy Hyc' Hyy) as Hfy.
  pose proof (frobenius_gram_inner (nrows x) y x yc xc yx
                Hry Hrx (eq_sym Hr) eq_refl Hcy Hcx Hyc Hxc Hyx) as Eyx.
  pose proof (frobenius_gram_inner (nrows x) x x xc xc xx
                Hrx Hrx eq_refl eq_refl Hcx Hcx Hxc Hxc Hxx) as Exx.
  pose proof (frobenius_gram_inner (nrows x) y y yc yc yy
                Hry Hry (eq_sym Hr) (eq_sym Hr) Hcy Hcy Hyc Hyc Hyy) as Eyy.
  pose proof (cauchy_schwarz2 (nrows x) (nrows x)
                (fun i j => sum_n (ncols y) (fun q => centered y i q * centered y j q))
                (fun i j => sum_n (ncols x) (fun p => centered x i p * centered x j p)))
    as Hcs.
  cbv beta in Hcs. rewrite <- Eyx, <- Exx, <- Eyy in Hcs.
  assert (Hd : 0 <= frobenius yx ^ 2) by (apply pow2_ge_0).
  set (D := frobenius yx ^ 2) in *.
  set (fx := frobenius xx) in *. set (fy := frobenius yy) in *.
  assert (Hle : D <= fx * fy).
  { destruct (Rle_dec D (fx * fy)) as [|Hn]; [assumption|exfalso].
    assert (0 < fx * fy) by (apply Rmult_lt_0_compat; assumption).
    assert (fx * fy < D) by lra.
    assert ((fx * fy) * (fx * fy) < D * D) by nra.
    nra. }
  assert (Hpos : 0 < fx * fy) by (apply Rmult_lt_0_compat; assumption).
  unfold tdiv. destruct (decide (fx * fy = 0)) as [E|_]; [lra|].
  rewrite bind_Ok. eexists. split; [reflexivity|].
  assert (0 <= D / (fx * fy)).
  { apply Rmult_le_pos; [exact Hd|]. left. apply Rinv_0_lt_compat. exact Hpos. }
  assert (D / (fx * fy) <= 1).
  { apply (Rmult_le_reg_r (fx * fy)); [exact Hpos|].
    replace (D / (fx * fy) * (fx * fy)) with D by (field; lra). lra. }
  lra.
Qed.

Lemma linear_cka_range_witness :
  exists d, linear_cka_distance (mkMatrix 2 1 [1; 3]) (mkMatrix 2 2 [1; 0; 0; 1]) false
            = Ok d /\ 0 <= d <= 1.
Proof.
  apply linear_cka_range.
  - reflexivity.
  - exists 0%nat, 0%nat. split; [simpl; lia|]. split; [simpl; lia|].
    unfold centered, mget. simpl. lra.
  - exists 0%nat, 0%nat. split; [simpl; lia|]. split; [simpl; lia|].
    unfold centered, mget. simpl. lra.
Defined.

(** X9. With the bias reduction the distance of a matrix to itself is not
    0 in general: the three corrected quantities are one and the same number
    [v] (the corrected squared norm of the Gram matrix), and the quotient
    [v / (v * v)] is taken without a square root, so the result is
    [1 - 1 / v]. On four data points [1, -1, 0, 0] it is negative. *)
Theorem linear_cka_debiased_self_distance (x xc xx : Matrix) (v : R) :
  _zero_mean x 0 = Ok xc ->
  matmul (transpose xc) xc = Ok xx ->
  _debiased_dot_product_similarity (frobenius xx ^ 2)
    (einsum_row_sq xc) (einsum_row_sq xc)
    (vsum (einsum_row_sq xc)) (vsum (einsum_row_sq xc)) (Z.of_nat (nrows xc)) = Ok v ->
  v <> 0 ->
  linear_cka_distance x x true = Ok (1 - 1 / v).
Proof.
  intros Ec Em Ev Hv.
  destruct (linear_cka_unfold x x true eq_refl)
    as (xc' & yc & yx & xx' & yy & Ex & Ey & Hrx & _ & _ & _ & _ & _
        & Hyx & Hxx & Hyy & ->).
  assert (xc' = xc) by congruence. subst xc'.
  assert (yc = xc) by congruence. subst yc.
  assert (yx = xx) by congruence. assert (xx' = xx) by congruence.
  assert (yy = xx) by congruence. subst yx xx' yy.
  cbv zeta. rewrite <- Hrx, Ev, !bind_Ok.
  unfold tdiv. destruct (decide (v * v = 0)) as [E|_]; [nra|].
  rewrite bind_Ok. f_equal. field. exact Hv.
Qed.

Lemma linear_cka_debiased_self_distance_witness :
  linear_cka_distance (mkMatrix 4 1 [1; -1; 0; 0]) (mkMatrix 4 1 [1; -1; 0; 0]) true
  = Ok (1 - 1 / (2 / 3)).
Proof.
  eapply (linear_cka_debiased_self_distance (mkMatrix 4 1 [1; -1; 0; 0])).
  - reflexivity.
  - apply matmul_Ok. reflexivity.
  - rewrite debiased_Ok; [|simpl; lia|simpl; lia|reflexivity].
    f_equal. rewrite frobenius_sq.
    unfold einsum_row_sq, vsum, mk_vec, vget, mget, transpose, mk_mat. simpl.
    unfold mget. simpl.
    change (Z.of_nat 4) with 4%Z. change (4 - 2)%Z with 2%Z.
    change ((4 - 1) * 2)%Z with 6%Z. lra.
  - lra.
Defined.

(** ** SVD reduction *)

Lemma mass_share_total (diag : Vector) :
  vsum (map Rabs diag) <> 0 -> mass_share diag (length diag) = 1.
Proof.
  intros Hfull. unfold mass_share, vsum in *. rewrite length_map in *.
  field. exact Hfull.
Qed.

(** X10. [_svd_reduction] keeps every direction only when [accept_rate]
    exceeds 1: the last cumulative ratio is 1 and is compared with a strict
    [<], so with [accept_rate <= 1] (1.0 among them) at least the last
    direction is dropped. *)
Theorem svd_reduction_num_full_rank (diag : Vector) (accept_rate : R) :
  vsum (map Rabs diag) <> 0 ->
  (accept_rate <= 1 -> (_svd_reduction_num diag accept_rate < length diag)%nat)
  /\ (1 < accept_rate -> _svd_reduction_num diag accept_rate = length diag).
Proof.
  intros Hfull.
  destruct (_svd_reduction_num_spec diag accept_rate Hfull) as (Hle & H1 & H2).
  pose proof (mass_share_total diag Hfull) as Htot.
  assert (Hpos : 0 < vsum (map Rabs diag)).
  { pose proof (vsum_abs_nonneg diag). lra. }
  set (num := _svd_reduction_num diag accept_rate) in *.
  split; intros Ha.
  - destruct (decide (num < length diag)%nat) as [|Hn]; [assumption|exfalso].
    assert (Hnum : num = length diag) by lia.
    destruct num as [|k] eqn:E.
    + rewrite <- Hnum in Htot. unfold mass_share in Htot. simpl in Htot.
      unfold Rdiv in Htot. rewrite Rmult_0_l in Htot. lra.
    + assert (mass_share diag (S k) < accept_rate) by (apply H1; lia).
      rewrite Hnum in *. lra.
  - destruct (decide (num = length diag)) as [|Hn]; [assumption|exfalso].
    assert (Hlt : (num < length diag)%nat) by lia.
    specialize (H2 Hlt).
    assert (mass_share diag (S num) <= mass_share diag (length diag)).
    { apply mass_share_mono; [exact Hpos|lia]. }
    lra.
Qed.

Lemma svd_reduction_num_full_rank_witness :
  (_svd_reduction_num [3; 1]%R 1%R < 2)%nat.
Proof.
  assert (Hfull : vsum (map Rabs [3; 1]) = 4).
  { unfold vsum, vget. simpl. rewrite !Rabs_pos_eq by lra. lra. }
  apply (svd_reduction_num_full_rank [3; 1] 1).
  - rewrite Hfull. lra.
  - lra.
Defined.

(** X11. When [accept_rate] is at most the share of the first singular value
    of [x], [_svd_reduction] leaves [x] with no column, the divisor
    [min(x.size(1), y.size(1))] of [svcca_distance] is 0, and the call never
    returns a finite distance: it raises or returns [nan]. *)
Theorem svcca_small_accept_rate_not_finite `{LinearAlgebraPrimitives}
    (x y : Matrix) (accept_rate : R) (backend : string)
    (l : Matrix) (d : Vector) (r : Matrix) :
  _svd x = Ok (l, d, r) ->
  vsum (map Rabs d) <> 0 ->
  accept_rate <= mass_share d 1 ->
  match svcca_distance x y accept_rate backend with
  | Ok _ => False
  | NonFinite _ | Raise _ => True
  end.
Proof.
  intros Hsvd Hfull Ha.
  assert (E : _svd_reduction x accept_rate = matmul x (take_cols r 0)).
  { unfold _svd_reduction. rewrite Hsvd, bind_Ok.
    rewrite (svd_reduction_num_small_accept_rate d accept_rate Hfull Ha).
    reflexivity. }
  unfold svcca_distance. rewrite E. unfold matmul at 1.
  destruct (decide (ncols x = nrows (take_cols r 0))) as [_|_];
    [|rewrite bind_Raise; exact I].
  rewrite bind_Ok. cbn [ncols mk_mat take_cols].
  replace (Nat.min 0 (ncols r)) with 0%nat by lia.
  destruct (_svd_reduction y accept_rate) as [y'|y'|e]; simpl; try exact I.
  - destruct (cca _ y' backend) as [[[a b] diag]|[[a b] diag]|e]; simpl;
      try exact I.
    + unfold tdiv. destruct (decide (0 = 0)) as [_|F]; [|contradiction].
      simpl. exact I.
    + destruct (tdiv _ _); simpl; exact I.
  - destruct (cca _ y' backend) as [[[a b] diag]|[[a b] diag]|e]; simpl;
      try exact I.
    + destruct (tdiv _ _); simpl; exact I.
    + destruct (tdiv _ _); simpl; exact I.
Qed.

Lemma svcca_small_accept_rate_not_finite_witness :
  match svcca_distance (H := asym_primitives) asym_x asym_y (1 / 2) "svd" with
  | Ok _ => False
  | NonFinite _ | Raise _ => True
  end.
Proof.
  apply (svcca_small_accept_rate_not_finite (H := asym_primitives)
           asym_x asym_y (1 / 2) "svd" asym_u1 [4; 2] (eye 2)).
  - reflexivity.
  - unfold vsum, vget. simpl. rewrite !Rabs_pos_eq by lra. lra.
  - unfold mass_share, vsum, vget. simpl. rewrite !Rabs_pos_eq by lra. lra.
Defined.

(** ** PWCCA of a matrix with itself *)


Lemma reciprocal_outcome (s : Vector) :
  reciprocal s = Ok (map Rinv s) \/ reciprocal s = NonFinite (map Rinv s).
Proof.
  unfold reciprocal. destruct (decide _); [right|left]; reflexivity.
Qed.


Section PwccaSelf.
Context `{LinearAlgebraPrimitives}.


End PwccaSelf.




(** A run that returns a number: the PWCCA distance of [asym_x] to itself is
    0. *)
Lemma pwcca_self_sample :
  pwcca_distance (H := self_primitives) asym_x asym_x "svd" = Ok 0.
Proof.
  unfold pwcca_distance.
  rewrite (cca_svd_unfold (H := self_primitives)) by reflexivity.
  rewrite !_zero_mean_rows, !bind_Ok. unfold cca_by_svd.
  change (@_svd self_primitives
            (mk_mat (nrows asym_x) (ncols asym_x)
               (fun i j => mget asym_x i j
                  - sum_n (nrows asym_x) (fun k => mget asym_x k j)
                    / INR (nrows asym_x))))
    with (@Ok (Matrix * Vector * Matrix) (asym_u1, [4; 2], eye 2)).
  rewrite !bind_Ok. cbv beta iota.
  rewrite matmul_Ok by reflexivity. rewrite bind_Ok.
  change (@_svd self_primitives
            (mk_mat (nrows (transpose asym_u1)) (ncols asym_u1)
               (fun i j => sum_n (ncols (transpose asym_u1))
                  (fun k => mget (transpose asym_u1) i k * mget asym_u1 k j))))
    with (@Ok (Matrix * Vector * Matrix) (eye 2, [1; 1], eye 2)).
  rewrite !bind_Ok. cbv beta iota.
  rewrite (reciprocal_Ok [4; 2]).
  2:{ intros q Hq. simpl in Hq. cases_below q; unfold vget; simpl; lra. }
  rewrite !bind_Ok. rewrite !scale_cols_Ok by reflexivity. rewrite !bind_Ok.
  rewrite !(matmul_Ok _ (eye 2)) by reflexivity.
  unfold detach. rewrite !bind_Ok. cbv beta iota. rewrite ?bind_Ok.
  rewrite matmul_Ok by reflexivity. rewrite bind_Ok.
  match goal with |- context [vdiv ?a (vsum ?a)] => set (alpha := a) end.
  assert (Ha : alpha = [2; 2]).
  { unfold alpha, mk_vec. cbn [ncols nrows mk_mat eye seq map].
    unfold mget, vget. simpl. eval_abs.
    f_equal; [|f_equal]; unfold mget; simpl; eval_abs; lra. }
  rewrite Ha. rewrite vdiv_Ok by (unfold vsum, vget; simpl; lra).
  rewrite bind_Ok, dot_Ok by reflexivity. rewrite bind_Ok.
  f_equal. unfold vsum, vget. simpl. lra.
Qed.

(* ================================================================== *)
(** * Further properties of SimilarityHook *)
(* ================================================================== *)

Section HookExtras.
Context `{LinearAlgebraPrimitives}.

Lemma dict_get_default_backends (s : string) :
  (exists f, dict_get _default_backends s = Ok f)
  <-> s ∈ ["pwcca"; "svcca"; "lincka"; "opd"].
Proof.
  unfold _default_backends. simpl.
  rewrite !elem_of_cons, elem_of_nil.
  repeat (destruct (decide _) as [->|?]); split; intros Hs;
    try (eexists; reflexivity); try tauto;
    try (destruct Hs as [f Hf]; discriminate).
  all: intuition congruence.
Qed.

Lemma init_fields (model : Model) (nm : string)
    (cca_distance : cca_distance_arg) (fc : bool) (h : SimilarityHook) :
  __init__ model nm cca_distance fc = Ok h ->
  name h = nm /\ force_cpu h = fc /\ device h = None /\ _hooked_tensors h = None
  /\ nm ∈ named_modules model /\ is_data_parallel model = false.
Proof.
  unfold __init__. intros Hh.
  destruct (is_data_parallel model); [discriminate|].
  destruct (bool_decide (nm ∈ named_modules model)) eqn:Hnm; [|discriminate].
  apply bool_decide_eq_true_1 in Hnm. cbn [negb] in Hh.
  apply bind_Ok_inv in Hh as (f & _ & Hf). injection Hf as <-. auto 10.
Qed.

Lemma dict_get_outcome {V} (d : list (string * V)) (k : string) :
  (exists v, dict_get d k = Ok v) \/ dict_get d k = Raise KeyError.
Proof.
  induction d as [|[k' v] d IH]; simpl; [right; reflexivity|].
  destruct (decide (k = k')); [left; eexists; reflexivity|exact IH].
Qed.

Lemma init_outcome (model : Model) (nm : string)
    (cca_distance : cca_distance_arg) (fc : bool) :
  (exists h, __init__ model nm cca_distance fc = Ok h)
  \/ __init__ model nm cca_distance fc = Raise RuntimeWarning
  \/ __init__ model nm cca_distance fc = Raise KeyError.
Proof.
  unfold __init__.
  destruct (is_data_parallel model); [right; left; reflexivity|].
  destruct (negb _); [right; right; reflexivity|].
  destruct cca_distance as [|s|f].
  - destruct (dict_get_outcome _default_backends "pwcca") as [[f ->]| ->];
      [left; eexists; reflexivity|right; right; reflexivity].
  - destruct (dict_get_outcome _default_backends (if decide (s = "") then "pwcca" else s))
      as [[f ->]| ->]; [left; eexists; reflexivity|right; right; reflexivity].
  - left. eexists. reflexivity.
Qed.

(** X13. The constructor succeeds exactly when the model is not wrapped in
    [DataParallel] or [DistributedDataParallel], the layer name is one of
    [model.named_modules()], and [cca_distance] is [None], a callable, the
    empty string (read as 'pwcca') or one of 'pwcca', 'svcca', 'lincka',
    'opd'. The hook made has the name and [force_cpu] given, no device and
    no buffer. *)
Theorem init_succeeds_iff (model : Model) (nm : string)
    (cca_distance : cca_distance_arg) (fc : bool) :
  ((exists h, __init__ model nm cca_distance fc = Ok h)
   <-> is_data_parallel model = false
       /\ nm ∈ named_modules model
       /\ match cca_distance with
          | DistanceName s => s ∈ [""; "pwcca"; "svcca"; "lincka"; "opd"]
          | _ => True
          end)
  /\ (forall h, __init__ model nm cca_distance fc = Ok h ->
        name h = nm /\ force_cpu h = fc
        /\ device h = None /\ _hooked_tensors h = None).
Proof.
  unfold __init__. split.
  - destruct (is_data_parallel model).
    { split; [intros [h Hh]; discriminate|intros [F _]; discriminate]. }
    destruct (bool_decide (nm ∈ named_modules model)) eqn:Hnm; cbn [negb].
    2:{ apply bool_decide_eq_false_1 in Hnm.
        split; [intros [h Hh]; discriminate|tauto]. }
    apply bool_decide_eq_true_1 in Hnm.
    destruct cca_distance as [|s|f].
    + split; [tauto|intros _; eexists; reflexivity].
    + destruct (decide (s = "")) as [->|Hs].
      * split; [intros _|intros _; eexists; reflexivity].
        split; [reflexivity|]. split; [exact Hnm|]. apply list_elem_of_here.
      * split.
        -- intros [h Hh]. split; [reflexivity|]. split; [exact Hnm|].
           apply list_elem_of_further. apply dict_get_default_backends.
           destruct (dict_get _default_backends s) as [f| |e] eqn:E;
             [eexists; reflexivity|simpl in Hh; discriminate
             |simpl in Hh; discriminate].
        -- intros (_ & _ & Hin). apply elem_of_cons in Hin as [->|Hin]; [tauto|].
           apply dict_get_default_backends in Hin as [f Hf]. rewrite Hf.
           eexists. reflexivity.
    + split; [tauto|intros _; eexists; reflexivity].
  - intros h Hh.
    destruct (is_data_parallel model); [discriminate|].
    destruct (negb _); [discriminate|].
    apply bind_Ok_inv in Hh as (f & _ & Hf). injection Hf as <-. auto.
Qed.

(** X14. [create_hooks] makes one hook per name, in the order of the names,
    each without buffer and device; it raises as soon as one constructor
    does ([RuntimeWarning] or [KeyError]); with no name it returns the empty
    list, whatever the model. *)
Theorem create_hooks_spec (model : Model) (names : list string)
    (cca_distance : cca_distance_arg) (fc : bool) :
  match create_hooks model names cca_distance fc with
  | Ok hs =>
      map name hs = names
      /\ Forall (fun h => _hooked_tensors h = None /\ device h = None
                          /\ force_cpu h = fc) hs
      /\ Forall (fun nm => nm ∈ named_modules model) names
  | NonFinite _ => False
  | Raise e => names <> [] /\ (e = RuntimeWarning \/ e = KeyError)
  end.
Proof.
  induction names as [|nm names IH]; simpl.
  { split; [reflexivity|]. split; constructor. }
  destruct (init_outcome model nm cca_distance fc) as [[h Hh]|[Hh|Hh]];
    rewrite Hh; simpl; [|split; [discriminate|auto]..].
  destruct (init_fields _ _ _ _ _ Hh) as (Hn & Hf & Hd & Hb & Hin & _).
  destruct (create_hooks model names cca_distance fc) as [hs| |e]; simpl.
  - destruct IH as (IH1 & IH2 & IH3). split; [simpl; congruence|].
    split; constructor; auto.
  - exact IH.
  - split; [discriminate|]. apply IH.
Qed.

(** [distance] needs a forward pass on both hooks: when either buffer
    is absent it raises [RuntimeError], whatever the options. *)
Lemma distance_requires_buffers (self other : SimilarityHook)
    (downsample_method : option string) (size_ : option nat)
    (effecive_neuron_type : string) :
  _hooked_tensors self = None \/ _hooked_tensors other = None ->
  distance self other downsample_method size_ effecive_neuron_type
  = Raise RuntimeError.
Proof.
  unfold distance, hooked_tensors. intros [-> | Ho]; [reflexivity|].
  rewrite Ho. destruct (_hooked_tensors self); reflexivity.
Qed.

(** X15. On rank-2 buffers with equal row counts, [distance] is the
    distance function of [self] (not the one of [other]) applied to the two
    buffers; [downsample_method], [size] and [effecive_neuron_type] are not
    looked at, not even to reject an unknown neuron type. *)
Theorem distance_rank2 (self other : SimilarityHook) (s o : Tensor R)
    (downsample_method : option string) (size_ : option nat)
    (effecive_neuron_type : string) :
  _hooked_tensors self = Some s -> _hooked_tensors other = Some o ->
  dim s = 2%nat -> dim o = 2%nat ->
  nth 0 (shape s) 0%nat = nth 0 (shape o) 0%nat ->
  distance self other downsample_method size_ effecive_neuron_type
  = (d ← cca_function self (as_matrix s) (as_matrix o); Ok (PyFloat d)).
Proof.
  intros Hs Ho Hds Hdo Hn. unfold distance, hooked_tensors.
  rewrite Hs, Ho, !bind_Ok. unfold size, wrap_index. rewrite Hds, Hdo. simpl.
  destruct (decide _) as [Hne|_]; [exfalso; apply Hne; exact Hn|].
  reflexivity.
Qed.

(** X16. Buffers of rank 2 or 4 that differ in their extent along dimension
    0, or in their rank, make [distance] raise [RuntimeError] before the
    distance function is called. *)
Theorem distance_shape_mismatch (self other : SimilarityHook) (s o : Tensor R)
    (downsample_method : option string) (size_ : option nat)
    (effecive_neuron_type : string) :
  _hooked_tensors self = Some s -> _hooked_tensors other = Some o ->
  dim s = 2%nat \/ dim s = 4%nat -> dim o = 2%nat \/ dim o = 4%nat ->
  nth 0 (shape s) 0%nat <> nth 0 (shape o) 0%nat \/ dim s <> dim o ->
  distance self other downsample_method size_ effecive_neuron_type
  = Raise RuntimeError.
Proof.
  intros Hs Ho Hds Hdo Hne. unfold distance, hooked_tensors.
  rewrite Hs, Ho, !bind_Ok. unfold size, wrap_index.
  destruct (decide (0 <= 0 < Z.of_nat (dim s))%Z) as [_|F]; [|exfalso; lia].
  destruct (decide (0 <= 0 < Z.of_nat (dim o))%Z) as [_|F]; [|exfalso; lia].
  rewrite !bind_Ok. change (Z.to_nat 0) with 0%nat.
  destruct (decide (nth 0 (shape s) 0%nat <> nth 0 (shape o) 0%nat)) as [|Heq];
    [reflexivity|].
  destruct (decide (dim s <> dim o)) as [|Hd]; [reflexivity|].
  exfalso. destruct Hne as [Hne|Hne]; contradiction.
Qed.

(** X17. On rank-4 buffers of equal extent along dimension 0, the neuron
    type 'activation' always raises [AssertionError] (the branch starts with
    [assert False]), and a neuron type other than 'filter', 'activation' and
    'original_anatome' raises [ValueError]. *)
Theorem distance_rank4_neuron_type (self other : SimilarityHook) (s o : Tensor R)
    (downsample_method : option string) (size_ : option nat)
    (effecive_neuron_type : string) :
  _hooked_tensors self = Some s -> _hooked_tensors other = Some o ->
  dim s = 4%nat -> dim o = 4%nat ->
  nth 0 (shape s) 0%nat = nth 0 (shape o) 0%nat ->
  effecive_neuron_type <> "filter" ->
  effecive_neuron_type <> "original_anatome" ->
  distance self other downsample_method size_ effecive_neuron_type
  = Raise (if decide (effecive_neuron_type = "activation")
           then AssertionError else ValueError).
Proof.
  intros Hs Ho Hds Hdo Hn Hf Ha. unfold distance, hooked_tensors.
  rewrite Hs, Ho, !bind_Ok. unfold size, wrap_index. rewrite Hds, Hdo. simpl.
  change (Z.to_nat 0) with 0%nat.
  destruct (decide (nth 0 (shape s) 0%nat <> nth 0 (shape o) 0%nat)) as [Hne|_];
    [exfalso; apply Hne; exact Hn|].
  destruct (decide (effecive_neuron_type = "filter")) as [|_]; [contradiction|].
  destruct (decide (effecive_neuron_type = "activation")); [reflexivity|].
  destruct (decide (effecive_neuron_type = "original_anatome")); [contradiction|].
  reflexivity.
Qed.

(** X18. A forward pass that raises leaves the buffer as it was. When the
    rank of the output is not supported nothing at all is assigned; when the
    concatenation fails the device has already been recorded. *)
Theorem hook_failure_state (self : SimilarityHook) (output : Tensor R)
    (d : Device) :
  (hook self output d).2 <> Ok tt ->
  _hooked_tensors (hook self output d).1 = _hooked_tensors self
  /\ (dim output ∉ _supported_dim -> (hook self output d).1 = self)
  /\ (dim output ∈ _supported_dim -> device (hook self output d).1 = Some d).
Proof.
  unfold hook. intros Hf.
  destruct (bool_decide (dim output ∈ _supported_dim)) eqn:Hd; simpl in *.
  - apply bool_decide_eq_true_1 in Hd.
    destruct (_hooked_tensors self) as [b|] eqn:Hb; simpl in *; [|contradiction].
    destruct (cat0 b output) as [t|t|e]; simpl in *; try contradiction.
    split; [exact Hb|]. split; [contradiction|reflexivity].
  - apply bool_decide_eq_false_1 in Hd.
    split; [reflexivity|]. split; [reflexivity|contradiction].
Qed.

Lemma run_forward_from_buffer (self : SimilarityHook) (b : Tensor R)
    (outs : list (Tensor R)) (d : Device) (n : nat) (rest : list nat) :
  _hooked_tensors self = Some b ->
  shape b = n :: rest -> (dim b = 2%nat \/ dim b = 4%nat) ->
  Forall (fun o => (dim o = 2%nat \/ dim o = 4%nat) /\ tail (shape o) = rest) outs ->
  _hooked_tensors (run_ops self (map (fun o => OpForward o d) outs))
  = Some (mkTensor ((n + sum_list (map (fun o => nth 0 (shape o) 0%nat) outs))%nat :: rest)
            (data b ++ concat (map data outs))%list).
Proof.
  intros Hb Hsh Hdb Houts. revert self b n Hb Hsh Hdb.
  induction Houts as [|o outs [Hdo Hto] _ IH]; intros self b n Hb Hsh Hdb.
  - simpl. rewrite Hb, Nat.add_0_r, app_nil_r. destruct b as [sh da].
    simpl in *. congruence.
  - unfold run_ops in *. cbn [map fold_left run_op].
    assert (Hin : bool_decide (dim o ∈ _supported_dim) = true).
    { apply bool_decide_eq_true_2, supported_dim_spec, Hdo. }
    pose proof (cat0_supported b o Hdb Hdo) as Hc.
    assert (Hstep : _hooked_tensors (hook self o d).1
                    = Some (mkTensor ((n + nth 0 (shape o) 0)%nat :: rest)
                              (data b ++ data o)%list)).
    { unfold hook. rewrite Hin. simpl. rewrite Hb.
      destruct (cat0 b o) as [t|t|e]; simpl.
      - destruct Hc as (_ & Hst & Hdt). rewrite Hsh in Hst. simpl in Hst.
        destruct t as [sh da]. simpl in *. congruence.
      - destruct Hc.
      - exfalso. destruct Hc as [_ Hne]. apply Hne. rewrite Hsh, Hto. reflexivity. }
    rewrite (IH _ _ _ Hstep eq_refl).
    + cbn [map sum_list sum_list_with concat data].
      rewrite Nat.add_assoc, <- app_assoc. reflexivity.
    + unfold dim in *. simpl. rewrite Hsh in Hdb. exact Hdb.
Qed.

(** X19. Forward passes accumulate: starting without buffer, after passes
    whose outputs have rank 2 or 4 and the same extents beyond dimension 0,
    the buffer holds the entries of all the outputs in the order of the
    passes, and its extent along dimension 0 is the sum of theirs. *)
Theorem hook_accumulates (self : SimilarityHook) (o : Tensor R)
    (outs : list (Tensor R)) (d : Device) :
  _hooked_tensors self = None ->
  (dim o = 2%nat \/ dim o = 4%nat) ->
  Forall (fun o' => (dim o' = 2%nat \/ dim o' = 4%nat)
                    /\ tail (shape o') = tail (shape o)) outs ->
  _hooked_tensors (run_ops self (map (fun o' => OpForward o' d) (o :: outs)))
  = Some (mkTensor
            (sum_list (map (fun o' => nth 0 (shape o') 0%nat) (o :: outs))
               :: tail (shape o))
            (concat (map data (o :: outs)))).
Proof.
  intros Hb Hdo Houts. unfold run_ops. cbn [map fold_left run_op].
  assert (Hin : bool_decide (dim o ∈ _supported_dim) = true).
  { apply bool_decide_eq_true_2, supported_dim_spec, Hdo. }
  assert (Hstep : _hooked_tensors (hook self o d).1 = Some o).
  { unfold hook. rewrite Hin. simpl. rewrite Hb. reflexivity. }
  assert (Hsh : shape o = nth 0 (shape o) 0%nat :: tail (shape o)).
  { unfold dim in Hdo. destruct (shape o); simpl in *; [lia|reflexivity]. }
  apply (run_forward_from_buffer _ o outs d _ _ Hstep Hsh Hdo Houts).
Qed.

End HookExtras.

Lemma distance_rank2_witness :
  let t := mkTensor [2%nat; 1%nat] [1; 3] in
  let h := mkSimilarityHook "fc" (fun x y => linear_cka_distance x y false)
             false (Some Cpu) (Some t) in
  distance (H := failing_primitives) h h (Some "dft") (Some 7%nat) "no such type"
  = (d ← linear_cka_distance (as_matrix t) (as_matrix t) false; Ok (PyFloat d)).
Proof.
  intros t h.
  apply (distance_rank2 (H := failing_primitives) h h t t); reflexivity.
Defined.

Lemma distance_shape_mismatch_witness :
  let h1 := mkSimilarityHook "fc" (fun x y => linear_cka_distance x y false)
              false (Some Cpu) (Some (mkTensor [2%nat; 1%nat] [1; 3])) in
  let h2 := mkSimilarityHook "fc" (fun x y => linear_cka_distance x y false)
              false (Some Cpu) (Some (mkTensor [3%nat; 1%nat] [1; 3; 5])) in
  distance (H := failing_primitives) h1 h2 None None "filter" = Raise RuntimeError.
Proof.
  intros h1 h2.
  apply (distance_shape_mismatch (H := failing_primitives) h1 h2
           (mkTensor [2%nat; 1%nat] [1; 3]) (mkTensor [3%nat; 1%nat] [1; 3; 5]));
    [reflexivity|reflexivity|left; reflexivity|left; reflexivity|].
  left. simpl. lia.
Defined.

Lemma distance_rank4_neuron_type_witness :
  let t := mkTensor [1%nat; 1%nat; 1%nat; 2%nat] [1; 2] in
  let h := mkSimilarityHook "conv1" (fun x y => linear_cka_distance x y false)
             false (Some Cpu) (Some t) in
  distance (H := failing_primitives) h h None None "activation"
  = Raise AssertionError.
Proof.
  intros t h.
  apply (distance_rank4_neuron_type (H := failing_primitives) h h t t
           None None "activation"); try reflexivity; discriminate.
Defined.

Lemma hook_failure_state_witness :
  let b := mkTensor [1%nat; 2%nat] [1; 2] in
  let self := mkSimilarityHook "fc" (fun _ _ => Ok 0) false None (Some b) in
  let output := mkTensor [1%nat; 3%nat] [3; 4; 5] in
  _hooked_tensors (hook self output (Cuda 0)).1 = Some b
  /\ device (hook self output (Cuda 0)).1 = Some (Cuda 0).
Proof.
  intros b self output.
  destruct (hook_failure_state self output (Cuda 0)) as (Hb & _ & Hd).
  - simpl. discriminate.
  - split; [exact Hb|]. apply Hd. unfold _supported_dim. simpl.
    apply list_elem_of_here.
Defined.

Lemma hook_accumulates_witness :
  let self := mkSimilarityHook "fc" (fun _ _ => Ok 0) false None None in
  _hooked_tensors
    (run_ops self [OpForward (mkTensor [1%nat; 2%nat] [1; 2]) Cpu;
                   OpForward (mkTensor [2%nat; 2%nat] [3; 4; 5; 6]) Cpu])
  = Some (mkTensor [3%nat; 2%nat] [1; 2; 3; 4; 5; 6]).
Proof.
  intros self.
  apply (hook_accumulates self (mkTensor [1%nat; 2%nat] [1; 2])
           [mkTensor [2%nat; 2%nat] [3; 4; 5; 6]] Cpu).
  - reflexivity.
  - left. reflexivity.
  - constructor; [|constructor]. split; [left; reflexivity|reflexivity].
Defined.

(** ** Downsampling and the per-data-point distance *)

Lemma length_flatten2_permute_unbind (t : Tensor R) (b c h w : nat) :
  shape t = [b; c; h; w] ->
  length (flatten2_permute_unbind t) = (h * w)%nat
  /\ Forall (fun m => nrows m = b /\ ncols m = c) (flatten2_permute_unbind t).
Proof.
  intros Hsh. unfold flatten2_permute_unbind. rewrite Hsh.
  split.
  - rewrite length_map, length_seq. unfold numel. simpl.
    rewrite Nat.mul_1_r. reflexivity.
  - apply List.Forall_forall. intros m Hm. apply in_map_iff in Hm as (p & <- & _).
    split; reflexivity.
Qed.

Section DownsampleExtras.
Context `{LinearAlgebraPrimitives}.

(** When the feature map already has the size asked for,
    [_downsample_4d] calls no pooling and no transform and does not look at
    [backend] (an unknown backend is not rejected): it returns the [size^2]
    matrices of shape [B, C], one per position of the feature map. *)
Lemma downsample_4d_same_size (input : Tensor R) (b c size_ : nat)
    (backend : string) :
  shape input = [b; c; size_; size_] ->
  _downsample_4d input size_ backend = Ok (flatten2_permute_unbind input)
  /\ length (flatten2_permute_unbind input) = (size_ * size_)%nat
  /\ Forall (fun m => nrows m = b /\ ncols m = c) (flatten2_permute_unbind input).
Proof.
  intros Hsh. split.
  - unfold _downsample_4d. rewrite Hsh.
    rewrite !bool_decide_eq_true_2 by reflexivity. reflexivity.
  - apply (length_flatten2_permute_unbind input b c size_ size_ Hsh).
Qed.

(** The size check of [_downsample_4d] compares the pairs
    [(size, size)] and [(h, w)] as Python tuples, that is in lexicographic
    order: the call is rejected with [RuntimeError] when [size > h], or
    [size = h] and [size > w]; with [size < h] it goes on to the pooling
    also when [size > w]. Past the check, a backend other than 'avg_pool'
    and 'dft' raises [RuntimeError], and so does 'dft' on a feature map that
    is not square. *)
Lemma downsample_4d_size_check (input : Tensor R) (b c h w size_ : nat)
    (backend : string) :
  shape input = [b; c; h; w] ->
  ((h < size_)%nat \/ (h = size_ /\ (w < size_)%nat) ->
     _downsample_4d input size_ backend = Raise RuntimeError)
  /\ ((size_ < h)%nat \/ (size_ = h /\ (size_ < w)%nat) ->
        _downsample_4d input size_ "avg_pool"
        = (pooled ← adaptive_avg_pool2d input size_;
           Ok (flatten2_permute_unbind pooled))
        /\ (backend <> "avg_pool" -> backend <> "dft" ->
              _downsample_4d input size_ backend = Raise RuntimeError)
        /\ (h <> w -> _downsample_4d input size_ "dft" = Raise RuntimeError)).
Proof.
  intros Hsh. unfold _downsample_4d, pair_gt. rewrite Hsh. split.
  - intros Hgt.
    destruct (bool_decide (size_ = h) && bool_decide (size_ = w)) eqn:E.
    { apply andb_true_iff in E as [E1 E2].
      apply bool_decide_eq_true_1 in E1. apply bool_decide_eq_true_1 in E2.
      lia. }
    destruct Hgt as [Hgt|[-> Hgt]].
    + rewrite (bool_decide_eq_true_2 (h < size_)%nat) by exact Hgt. reflexivity.
    + rewrite (bool_decide_eq_true_2 (size_ = size_)) by reflexivity.
      rewrite (bool_decide_eq_true_2 (w < size_)%nat) by exact Hgt.
      rewrite orb_true_r. reflexivity.
  - intros Hlt.
    assert (E1 : bool_decide (size_ = h) && bool_decide (size_ = w) = false).
    { apply andb_false_iff. destruct Hlt as [Hlt|[-> Hlt]].
      - left. apply bool_decide_eq_false_2. lia.
      - right. apply bool_decide_eq_false_2. lia. }
    assert (E2 : bool_decide (h < size_)%nat
                 || bool_decide (size_ = h) && bool_decide (w < size_)%nat = false).
    { apply orb_false_iff. split.
      - apply bool_decide_eq_false_2. lia.
      - apply andb_false_iff. destruct Hlt as [Hlt|[-> Hlt]].
        + left. apply bool_decide_eq_false_2. lia.
        + right. apply bool_decide_eq_false_2. lia. }
    rewrite E1, E2. split; [reflexivity|]. split.
    + intros Ha Hd.
      rewrite (bool_decide_eq_false_2 _ Ha), (bool_decide_eq_false_2 _ Hd).
      reflexivity.
    + intros Hne. simpl. rewrite (bool_decide_eq_false_2 _ Hne). reflexivity.
Qed.

(** X20. [_downsample_4d] on a feature map of size [h x w]. When [h] and
    [w] both equal [size], no pooling and no transform is called and
    [backend] is not looked at (an unknown backend is not rejected): the
    result is the [size^2] matrices of shape [B, C], one per position.
    Otherwise the pairs [(size, size)] and [(h, w)] are compared as Python
    tuples, in lexicographic order: [RuntimeError] when [size > h], or
    [size = h] and [size > w]; with [size < h] the call goes on to the
    pooling also when [size > w]. Past the check, a backend other than
    'avg_pool' and 'dft' raises [RuntimeError], and so does 'dft' on a
    feature map that is not square. *)
Theorem downsample_4d_checks (input : Tensor R) (b c h w size_ : nat)
    (backend : string) :
  shape input = [b; c; h; w] ->
  (h = size_ /\ w = size_ ->
     _downsample_4d input size_ backend = Ok (flatten2_permute_unbind input)
     /\ length (flatten2_permute_unbind input) = (size_ * size_)%nat
     /\ Forall (fun m => nrows m = b /\ ncols m = c)
               (flatten2_permute_unbind input))
  /\ ((h < size_)%nat \/ (h = size_ /\ (w < size_)%nat) ->
        _downsample_4d input size_ backend = Raise RuntimeError)
  /\ ((size_ < h)%nat \/ (size_ = h /\ (size_ < w)%nat) ->
        _downsample_4d input size_ "avg_pool"
        = (pooled ← adaptive_avg_pool2d input size_;
           Ok (flatten2_permute_unbind pooled))
        /\ (backend <> "avg_pool" -> backend <> "dft" ->
              _downsample_4d input size_ backend = Raise RuntimeError)
        /\ (h <> w -> _downsample_4d input size_ "dft" = Raise RuntimeError)).
Proof.
  intros Hsh. split.
  - intros [-> ->]. apply (downsample_4d_same_size input b c size_ backend Hsh).
  - apply (downsample_4d_size_check input b c h w size_ backend Hsh).
Qed.

End DownsampleExtras.

Lemma downsample_4d_checks_witness :
  let t := mkTensor [1%nat; 1%nat; 2%nat; 1%nat] [7; 8] in
  _downsample_4d (H := failing_primitives) t 3 "avg_pool" = Raise RuntimeError.
Proof.
  intros t.
  destruct (downsample_4d_checks (H := failing_primitives) t 1 1 2 1 3 "avg_pool")
    as (_ & Hgt & _); [reflexivity|].
  apply Hgt. left. lia.
Defined.

Lemma downsample_4d_same_size_sample :
  let t := mkTensor [1%nat; 1%nat; 1%nat; 1%nat] [7] in
  _downsample_4d (H := failing_primitives) t 1 "no such backend"
  = Ok (flatten2_permute_unbind t).
Proof. reflexivity. Qed.

Lemma length_flatten2_unbind (t : Tensor R) (m c : nat) (rest : list nat) :
  shape t = m :: c :: rest -> length (flatten2_unbind t) = m.
Proof.
  intros Hsh. unfold flatten2_unbind. rewrite Hsh.
  rewrite length_map, length_reshape, length_replicate. reflexivity.
Qed.

Lemma zip_with_result_Forall2 {A B} (f : A -> B -> result R)
    (ss : list A) (os : list B) (ds : list R) :
  Forall2 (fun so v => f so.1 so.2 = Ok v) (zip ss os) ds ->
  zip_with_result f ss os = Ok ds.
Proof.
  revert os ds. induction ss as [|a ss IH]; intros os ds Hds.
  { simpl in Hds. apply Forall2_nil_inv_l in Hds as ->. reflexivity. }
  destruct os as [|b os].
  { simpl in Hds. apply Forall2_nil_inv_l in Hds as ->. reflexivity. }
  simpl in Hds. apply Forall2_cons_inv_l in Hds as (v & ds' & Hv & Hds' & ->).
  simpl in Hv |- *. rewrite Hv, bind_Ok, (IH os ds' Hds'), bind_Ok. reflexivity.
Qed.

Lemma stack_mean_bounds (ds : list R) (lo hi : R) :
  ds <> [] -> Forall (fun v => lo <= v <= hi) ds ->
  exists d, stack_mean ds = Ok d /\ lo <= d <= hi.
Proof.
  intros Hne Hall. unfold stack_mean.
  destruct ds as [|v ds']; [contradiction|].
  set (ds := v :: ds') in *. eexists. split; [reflexivity|].
  assert (Hn : 0 < INR (length ds)) by (apply lt_0_INR; simpl; lia).
  assert (Hb : forall i, (i < length ds)%nat -> lo <= vget ds i <= hi).
  { intros i Hi. unfold vget.
    apply (proj1 (List.Forall_forall _ ds) Hall). apply nth_In. exact Hi. }
  assert (Hlo : INR (length ds) * lo <= vsum ds).
  { rewrite <- sum_n_const. apply sum_n_le. intros i Hi. apply Hb, Hi. }
  assert (Hhi : vsum ds <= INR (length ds) * hi).
  { rewrite <- sum_n_const. apply sum_n_le. intros i Hi. apply Hb, Hi. }
  split.
  - apply (Rmult_le_reg_r (INR (length ds))); [exact Hn|].
    replace (vsum ds / INR (length ds) * INR (length ds)) with (vsum ds)
      by (field; lra). lra.
  - apply (Rmult_le_reg_r (INR (length ds))); [exact Hn|].
    replace (vsum ds / INR (length ds) * INR (length ds)) with (vsum ds)
      by (field; lra). lra.
Qed.

Lemma size_first (t : Tensor R) (n : nat) (rest : list nat) :
  shape t = n :: rest -> size t 0 = Ok n.
Proof.
  intros Hsh. unfold size, wrap_index, dim. rewrite Hsh.
  destruct (decide (0 <= 0 < Z.of_nat (length (n :: rest)))%Z) as [_|F];
    [reflexivity|simpl in F; lia].
Qed.

Section AnatomeExtras.
Context `{LinearAlgebraPrimitives}.

Lemma distance_original_anatome_unfold (self other : SimilarityHook)
    (s o : Tensor R) (m c h w c' h' w' : nat) (downsample_method : option string) :
  _hooked_tensors self = Some s -> _hooked_tensors other = Some o ->
  shape s = [m; c; h; w] -> shape o = [m; c'; h'; w'] ->
  distance self other downsample_method None "original_anatome"
  = (ds ← zip_with_result (cca_function self)
            (flatten2_unbind s) (flatten2_unbind o);
     d ← stack_mean ds;
     Ok (PyFloat d)).
Proof.
  intros Hs Ho Hss Hso. unfold distance, hooked_tensors.
  rewrite Hs, Ho, !bind_Ok.
  rewrite (size_first s _ _ Hss), (size_first o _ _ Hso), !bind_Ok.
  unfold dim. rewrite Hss, Hso. simpl length.
  destruct (decide (m <> m)) as [F|_]; [contradiction|].
  destruct (decide (4 <> 4)%nat) as [F|_]; [contradiction|].
  destruct (decide (4 = 2)%nat) as [F|_]; [discriminate|].
  destruct (decide ("original_anatome" = "filter")) as [F|_]; [discriminate|].
  destruct (decide ("original_anatome" = "activation")) as [F|_]; [discriminate|].
  destruct (decide ("original_anatome" = "original_anatome")) as [_|F];
    [|contradiction].
  unfold distance_cnn_original_anatome. rewrite bind_Ok.
  destruct (zip_with_result _ _ _) as [ds|ds|e]; simpl; [| |reflexivity].
  - destruct (stack_mean ds) as [d|d|e]; reflexivity.
  - destruct (stack_mean ds) as [d|d|e]; reflexivity.
Qed.

(** X21. With [effecive_neuron_type='original_anatome'] and no [size], on
    two rank-4 buffers with the same number [M] of data points: without any
    data point there is nothing to stack and [distance] raises
    [RuntimeError]; with [M >= 1], when the distance function returns the
    values [ds] on the pairs of [C x HW] matrices of the data points, the
    result is their mean [sum(ds) / M], which is between [lo] and [hi] when
    they all are. *)
Theorem distance_original_anatome_bounds (self other : SimilarityHook)
    (s o : Tensor R) (m c h w c' h' w' : nat)
    (downsample_method : option string) (ds : list R) (lo hi : R) :
  _hooked_tensors self = Some s -> _hooked_tensors other = Some o ->
  shape s = [m; c; h; w] -> shape o = [m; c'; h'; w'] ->
  (m = 0%nat ->
     distance self other downsample_method None "original_anatome"
     = Raise RuntimeError)
  /\ ((0 < m)%nat ->
      Forall2 (fun so v => cca_function self so.1 so.2 = Ok v)
              (zip (flatten2_unbind s) (flatten2_unbind o)) ds ->
      distance self other downsample_method None "original_anatome"
      = Ok (PyFloat (vsum ds / INR m))
      /\ (Forall (fun v => lo <= v <= hi) ds -> lo <= vsum ds / INR m <= hi)).
Proof.
  intros Hs Ho Hss Hso.
  rewrite (distance_original_anatome_unfold self other s o m c h w c' h' w'
             downsample_method Hs Ho Hss Hso).
  split.
  - intros ->. unfold flatten2_unbind. rewrite Hss, Hso. reflexivity.
  - intros Hm Hds.
    assert (Hlen : length ds = m).
    { apply Forall2_length in Hds. rewrite <- Hds, length_zip.
      rewrite (length_flatten2_unbind s m c [h; w] Hss),
              (length_flatten2_unbind o m c' [h'; w'] Hso). lia. }
    rewrite (zip_with_result_Forall2 _ _ _ ds Hds), bind_Ok.
    assert (Hne : ds <> []) by (intros ->; simpl in Hlen; lia).
    assert (Hmean : stack_mean ds = Ok (vsum ds / INR m)).
    { unfold stack_mean. destruct ds; [contradiction|]. rewrite Hlen. reflexivity. }
    rewrite Hmean, bind_Ok. split; [reflexivity|].
    intros Hall. destruct (stack_mean_bounds ds lo hi Hne Hall) as (d & Hd & Hb).
    rewrite Hmean in Hd. injection Hd as <-. exact Hb.
Qed.

End AnatomeExtras.

Lemma lincka_two_rows (a b c d : R) :
  a <> b -> c <> d ->
  linear_cka_distance (mkMatrix 2 1 [a; b]) (mkMatrix 2 1 [c; d]) false = Ok 0.
Proof.
  intros Hab Hcd.
  set (x := mkMatrix 2 1 [a; b]). set (y := mkMatrix 2 1 [c; d]).
  destruct (linear_cka_unfold x y false eq_refl)
    as (xc & yc & yx & xx & yy & _ & _ & Hrx & Hry & Hcx & Hcy & Hx & Hy
        & Hyx & Hxx & Hyy & E).
  pose proof (frobenius_gram 2 y x yc xc yx Hry Hrx eq_refl Hcy Hcx Hy Hx Hyx) as Gyx.
  pose proof (frobenius_gram 2 x x xc xc xx Hrx Hrx eq_refl Hcx Hcx Hx Hx Hxx) as Gxx.
  pose proof (frobenius_gram 2 y y yc yc yy Hry Hry eq_refl Hcy Hcy Hy Hy Hyy) as Gyy.
  unfold centered, mget, x, y in Gxx, Gyy, Gyx. simpl in Gxx, Gyy, Gyx.
  assert (Fx : frobenius xx = (a - b) ^ 2 / 2).
  { apply Rsqr_inj; [apply frobenius_nonneg|nra|].
    unfold Rsqr. rewrite Rmult_1_r in Gxx. rewrite Gxx. field. }
  assert (Fy : frobenius yy = (c - d) ^ 2 / 2).
  { apply Rsqr_inj; [apply frobenius_nonneg|nra|].
    unfold Rsqr. rewrite Rmult_1_r in Gyy. rewrite Gyy. field. }
  rewrite E, Fx, Fy. simpl pow. rewrite Gyx. unfold tdiv.
  assert (Hne : (a - b) * ((a - b) * 1) / 2 * ((c - d) * ((c - d) * 1) / 2) <> 0).
  { assert (a - b <> 0) by lra. assert (c - d <> 0) by lra.
    intros F. assert (Hp : ((a - b) * (c - d)) * ((a - b) * (c - d)) = 0) by lra.
    apply Rmult_integral in Hp. destruct Hp as [Hp|Hp];
      apply Rmult_integral in Hp; tauto. }
  destruct (decide _) as [F|_]; [contradiction|].
  rewrite bind_Ok. f_equal. field. 
  assert (a - b <> 0) by lra. assert (c - d <> 0) by lra. auto.
Qed.

Lemma distance_original_anatome_bounds_witness :
  let s := mkTensor [2%nat; 2%nat; 1%nat; 1%nat] [1; 3; 0; 4] in
  let o := mkTensor [2%nat; 2%nat; 1%nat; 1%nat] [2; 5; 1; 0] in
  let lincka := fun x y => linear_cka_distance x y false in
  let hs := mkSimilarityHook "conv1" lincka false (Some Cpu) (Some s) in
  let ho := mkSimilarityHook "conv1" lincka false (Some Cpu) (Some o) in
  distance (H := failing_primitives) hs ho None None "original_anatome"
  = Ok (PyFloat (vsum [0; 0] / INR 2))
  /\ (Forall (fun v => 0 <= v <= 1) [0; 0] -> 0 <= vsum [0; 0] / INR 2 <= 1).
Proof.
  intros s o lincka hs ho.
  destruct (distance_original_anatome_bounds (H := failing_primitives) hs ho s o
              2 2 1 1 2 1 1 None [0; 0] 0 1) as [_ Hmean]; try reflexivity.
  apply Hmean; [lia|].
  constructor; [apply lincka_two_rows; lra|].
  constructor; [apply lincka_two_rows; lra|]. constructor.
Defined.

(** ** The two per-data-point computations *)

Lemma bind_assoc {A B C} (r : result A) (f : A -> result B) (g : B -> result C) :
  (r ≫= f) ≫= g = r ≫= (fun a => f a ≫= g).
Proof.
  destruct r as [a|a|e]; simpl; [reflexivity| |reflexivity].
  destruct (f a) as [b|b|e]; simpl; [reflexivity| |reflexivity].
  destruct (g b); reflexivity.
Qed.

Lemma length_unbind3 (t : Tensor R) :
  dim t = 3%nat -> length (unbind3 t) = nth 0 (shape t) 0%nat.
Proof.
  unfold dim, unbind3. intros Hd.
  destruct (shape t) as [|m [|f [|hw [|? ?]]]]; simpl in Hd; try lia.
  rewrite length_map, length_reshape, length_replicate. reflexivity.
Qed.

Lemma tuple_get_drop {A} (l : list A) (k : nat) :
  (k < length l)%nat ->
  exists a, tuple_get l k = Ok a /\ drop k l = a :: drop (S k) l.
Proof.
  intros Hk. destruct (lookup_lt_is_Some_2 l k Hk) as [a Ha].
  exists a. unfold tuple_get. rewrite Ha. split; [reflexivity|].
  apply drop_S. exact Ha.
Qed.

Lemma distances_loop_zip (f : Matrix -> Matrix -> result R)
    (ss os : list Matrix) (n k : nat) (acc : list R) :
  length ss = length os -> (k + n = length ss)%nat ->
  distances_loop f ss os (seq k n) acc
  = (ds ← zip_with_result f (drop k ss) (drop k os); Ok (acc ++ ds)%list).
Proof.
  intros Hl. revert k acc. induction n as [|n IH]; intros k acc Hk.
  - simpl. rewrite !drop_ge by lia. simpl. rewrite app_nil_r. reflexivity.
  - destruct (tuple_get_drop ss k) as (s & Hs & Hds); [lia|].
    destruct (tuple_get_drop os k) as (o & Ho & Hdo); [lia|].
    simpl. rewrite Hs, Ho, !bind_Ok, Hds, Hdo. simpl.
    rewrite bind_assoc.
    destruct (f s o) as [d|d|e]; simpl; [| |reflexivity].
    + rewrite IH by lia.
      destruct (zip_with_result f (drop (S k) ss) (drop (S k) os)) as [ds|ds|e];
        simpl; rewrite <- ?app_assoc; reflexivity.
    + rewrite IH by lia.
      destruct (zip_with_result f (drop (S k) ss) (drop (S k) os)) as [ds|ds|e];
        simpl; rewrite <- ?app_assoc; reflexivity.
Qed.

(** X22. On tensors of rank 3, the loop version of the per-data-point
    distance agrees with the original one-line version when both tensors
    hold the same number of data points. When they do not, the loop version
    stops with [AssertionError] (the original version silently pairs the
    data points of the shorter one). *)
Theorem hataya_loop_agrees (self : SimilarityHook) (s o : Tensor R) :
  dim s = 3%nat -> dim o = 3%nat ->
  (nth 0 (shape s) 0%nat = nth 0 (shape o) 0%nat ->
     original_computation_of_distance_from_Ryuichiro_Hataya_as_loop self s o
     = original_computation_of_distance_from_Ryuichiro_Hataya self s o)
  /\ (nth 0 (shape s) 0%nat <> nth 0 (shape o) 0%nat ->
        original_computation_of_distance_from_Ryuichiro_Hataya_as_loop self s o
        = Raise AssertionError).
Proof.
  intros Hds Hdo.
  unfold original_computation_of_distance_from_Ryuichiro_Hataya_as_loop,
         original_computation_of_distance_from_Ryuichiro_Hataya, py_assert.
  rewrite (bool_decide_eq_true_2 _ Hds), bind_Ok. cbv zeta.
  pose proof (length_unbind3 s Hds) as Hls. pose proof (length_unbind3 o Hdo) as Hlo.
  rewrite (bool_decide_eq_true_2 _ Hls). cbn [andb].
  split; intros Hm.
  - rewrite (bool_decide_eq_true_2 (length (unbind3 o) = _)) by congruence.
    rewrite bind_Ok.
    rewrite (distances_loop_zip _ _ _ _ 0 []) by (simpl; congruence).
    rewrite !drop_0. f_equal.
    destruct (zip_with_result _ _ _); reflexivity.
  - rewrite (bool_decide_eq_false_2 (length (unbind3 o) = _)) by congruence.
    reflexivity.
Qed.

Lemma hataya_loop_agrees_witness :
  let t := mkTensor [2%nat; 1%nat; 2%nat] [1; 2; 3; 4] in
  let h := mkSimilarityHook "conv1" (fun x y => linear_cka_distance x y false)
             false None None in
  original_computation_of_distance_from_Ryuichiro_Hataya_as_loop h t t
  = original_computation_of_distance_from_Ryuichiro_Hataya h t t.
Proof.
  intros t h.
  destruct (hataya_loop_agrees h t t) as [Heq _]; [reflexivity|reflexivity|].
  apply Heq. reflexivity.
Defined.

(* ================================================================== *)
(** * Further properties of fourier.py *)
(* ================================================================== *)

Lemma wrap_index_lt (n : nat) (i : Z) (k : nat) :
  wrap_index n i = Ok k -> (k < n)%nat.
Proof.
  unfold wrap_index. intros Hk.
  destruct (decide (0 <= i < Z.of_nat n)%Z); [injection Hk as <-; lia|].
  destruct (decide (- Z.of_nat n <= i < 0)%Z); [injection Hk as <-; lia|].
  discriminate.
Qed.

Lemma wrap_index_outcome (n : nat) (i : Z) :
  (exists k, wrap_index n i = Ok k) \/ wrap_index n i = Raise IndexError.
Proof.
  unfold wrap_index.
  destruct (decide (0 <= i < Z.of_nat n)%Z); [left; eexists; reflexivity|].
  destruct (decide (- Z.of_nat n <= i < 0)%Z); [left; eexists; reflexivity|].
  right. reflexivity.
Qed.


Lemma wrap_index_error (n : nat) (i : Z) :
  (i < - Z.of_nat n \/ Z.of_nat n <= i)%Z -> wrap_index n i = Raise IndexError.
Proof.
  intros Hi. unfold wrap_index.
  destruct (decide (0 <= i < Z.of_nat n)%Z); [lia|].
  destruct (decide (- Z.of_nat n <= i < 0)%Z); [lia|reflexivity].
Qed.

Lemma wrap_index_valid (n : nat) (i : Z) :
  (- Z.of_nat n <= i < Z.of_nat n)%Z ->
  exists k, wrap_index n i = Ok k /\ (k < n)%nat.
Proof.
  intros Hi. destruct (wrap_index_outcome n i) as [[k Hk]|Hk].
  - exists k. split; [exact Hk|]. apply (wrap_index_lt n i k Hk).
  - unfold wrap_index in Hk.
    destruct (decide (0 <= i < Z.of_nat n)%Z); [discriminate|].
    destruct (decide (- Z.of_nat n <= i < 0)%Z); [discriminate|lia].
Qed.

Section RollExtras.
Context {A : Type}.
Implicit Types (t : Tensor A) (l : list A).

Lemma rotate_Permutation l (k : nat) : rotate k l ≡ₚ l.
Proof.
  unfold rotate. rewrite Permutation_app_comm, take_drop. reflexivity.
Qed.

Lemma concat_rotate_Permutation (ls : list (list A)) (k : nat) :
  concat (map (rotate k) ls) ≡ₚ concat ls.
Proof.
  induction ls as [|l ls IH]; simpl; [reflexivity|].
  rewrite rotate_Permutation, IH. reflexivity.
Qed.

Lemma roll1_Permutation t (s : Z) (d : nat) :
  well_formed t -> (d < dim t)%nat -> data (roll1 t s d) ≡ₚ data t.
Proof.
  intros Hwf Hd. unfold roll1. simpl. rewrite concat_rotate_Permutation.
  rewrite concat_reshape; [reflexivity|].
  unfold well_formed in Hwf. rewrite Hwf. apply numel_split. exact Hd.
Qed.

Lemma roll_one_moves t (s d : Z) :
  well_formed t -> valid_axis (dim t) d ->
  exists t', roll_one t s d = Ok t'
             /\ shape t' = shape t /\ data t' ≡ₚ data t /\ well_formed t'.
Proof.
  intros Hwf Hd. unfold roll_one.
  destruct (decide (numel (shape t) = 0%nat)) as [_|_].
  - exists t. split; [reflexivity|]. split; [reflexivity|].
    split; [reflexivity|exact Hwf].
  - destruct (wrap_index_valid (dim t) d Hd) as (i & -> & Hi).
    rewrite bind_Ok. exists (roll1 t s i). split; [reflexivity|].
    split; [reflexivity|]. split; [apply roll1_Permutation; assumption|].
    apply roll1_well_formed; assumption.
Qed.

Lemma roll_each_moves t (shifts dims : list Z) :
  well_formed t -> Forall (valid_axis (dim t)) dims ->
  exists t', roll_each t shifts dims = Ok t'
             /\ shape t' = shape t /\ data t' ≡ₚ data t.
Proof.
  revert t dims. induction shifts as [|s shifts IH]; intros t dims Hwf Hds.
  { exists t. destruct dims; repeat split; reflexivity. }
  destruct dims as [|d dims]; [exists t; repeat split; reflexivity|].
  apply Forall_cons in Hds as [Hd Hds]. simpl.
  destruct (roll_one_moves t s d Hwf Hd) as (t1 & -> & Hsh & Hp & Hwf1).
  rewrite bind_Ok.
  destruct (IH t1 dims Hwf1) as (t' & E & Hsh' & Hp').
  { unfold dim. rewrite Hsh. exact Hds. }
  exists t'. split; [exact E|]. split; [congruence|]. rewrite Hp'. exact Hp.
Qed.

Lemma sizes_along_spec t (f : Z -> Z) (dims : list Z) :
  (Forall (valid_axis (dim t)) dims ->
     exists ss, sizes_along t f dims = Ok ss /\ length ss = length dims)
  /\ (~ Forall (valid_axis (dim t)) dims -> sizes_along t f dims = Raise IndexError).
Proof.
  induction dims as [|d dims [IHv IHe]]; simpl.
  { split; [exists []; split; reflexivity|]. intros F. destruct F. constructor. }
  unfold size. split.
  - intros Hds. apply Forall_cons in Hds as [Hd Hds].
    destruct (wrap_index_valid (dim t) d Hd) as (i & -> & _).
    destruct (IHv Hds) as (ss & -> & Hl). rewrite !bind_Ok.
    eexists. split; [reflexivity|]. simpl. congruence.
  - intros Hn.
    destruct (decide (valid_axis (dim t) d)) as [Hd|Hd].
    + destruct (wrap_index_valid (dim t) d Hd) as (i & -> & _).
      rewrite !bind_Ok. rewrite IHe; [reflexivity|].
      intros Hds. apply Hn. constructor; assumption.
    + rewrite wrap_index_error by (unfold valid_axis in Hd; lia). reflexivity.
Qed.

Lemma roll_aligned t (s : Z) (ss : list Z) (d : Z) (ds : list Z) :
  length ss = length ds ->
  roll t (s :: ss) (d :: ds) = roll_each t (s :: ss) (d :: ds).
Proof.
  intros Hl. unfold roll.
  destruct (decide (length (s :: ss) = length (d :: ds))) as [_|F];
    [|simpl in F; congruence].
  destruct ss; reflexivity.
Qed.

(** The shifts on the axes [ds], which are not taken from the default. *)
Lemma shift_along t (f : Z -> Z) (ds : list Z) :
  well_formed t ->
  let r := shift ← sizes_along t f ds; roll t shift ds in
  match ds with
  | [] => r = Raise RuntimeError
  | _ :: _ =>
      if decide (Forall (valid_axis (dim t)) ds)
      then exists t', r = Ok t' /\ shape t' = shape t /\ data t' ≡ₚ data t
      else r = Raise IndexError
  end.
Proof.
  intros Hwf r. unfold r. destruct ds as [|d ds]; [reflexivity|].
  destruct (sizes_along_spec t f (d :: ds)) as [Hv He].
  destruct (decide (Forall (valid_axis (dim t)) (d :: ds))) as [Hds|Hds].
  - destruct (Hv Hds) as (ss & -> & Hl). rewrite bind_Ok.
    destruct ss as [|s ss]; [discriminate|].
    rewrite roll_aligned by (simpl in Hl; congruence).
    apply roll_each_moves; assumption.
  - rewrite (He Hds). reflexivity.
Qed.

Lemma py_range_axes (n lo : nat) :
  Forall (valid_axis n) (py_range lo (n - 1)).
Proof.
  unfold py_range. apply Forall_forall. intros d Hd.
  apply list_elem_of_fmap in Hd as (k & -> & Hk).
  apply elem_of_seq in Hk. unfold valid_axis. lia.
Qed.

(** X24. [fft_shift] and [ifft_shift] only move entries around: when they
    return, the result has the shape of the input and its entries are a
    permutation of the entries of the input. With axes given they return
    exactly when there is at least one axis and every axis is one of the
    tensor; without any axis they raise [RuntimeError] ([torch.roll] needs
    a shift), with an axis out of range [IndexError]. With the default
    axes they return on every tensor of rank 4 or more, and raise
    [RuntimeError] on a tensor of rank 3 or less, which has no axis to
    shift. *)
Theorem shifts_permute_entries t (dims : option (list Z)) :
  well_formed t ->
  let moved (r : result (Tensor A)) :=
    exists t', r = Ok t' /\ shape t' = shape t /\ data t' ≡ₚ data t in
  let outcome (r : result (Tensor A)) :=
    match dims with
    | Some [] => r = Raise RuntimeError
    | Some (d :: ds) =>
        if decide (Forall (valid_axis (dim t)) (d :: ds)) then moved r
        else r = Raise IndexError
    | None =>
        if decide (dim t <= 3)%nat then r = Raise RuntimeError else moved r
    end in
  outcome (fft_shift t dims) /\ outcome (ifft_shift t dims).
Proof.
  intros Hwf moved outcome. unfold outcome, moved, fft_shift, ifft_shift.
  destruct dims as [[|d ds]|].
  - split; reflexivity.
  - split; apply (shift_along t _ (d :: ds) Hwf).
  - destruct (decide (dim t <= 3)%nat) as [Hd|Hd].
    + destruct (decide (dim t = 4%nat)) as [E|_]; [lia|].
      unfold py_range. replace (dim t - 1 - 2)%nat with 0%nat by lia.
      split; reflexivity.
    + assert (Hdef : forall (f : Z -> Z) (ds : list Z),
                ds <> [] -> Forall (valid_axis (dim t)) ds ->
                exists t', (shift ← sizes_along t f ds; roll t shift ds) = Ok t'
                           /\ shape t' = shape t /\ data t' ≡ₚ data t).
      { intros f ds Hne Hds. pose proof (shift_along t f ds Hwf) as Hs.
        destruct ds as [|d ds]; [contradiction|]. cbv zeta in Hs.
        destruct (decide (Forall (valid_axis (dim t)) (d :: ds))) as [_|F];
          [exact Hs|contradiction]. }
      split.
      * apply Hdef; [|apply py_range_axes].
        unfold py_range.
        destruct (decide (dim t = 4%nat)) as [->|Hn4]; [discriminate|].
        destruct (dim t - 1 - 2)%nat eqn:E; [lia|discriminate].
      * apply Hdef.
        -- unfold py_range.
           destruct (decide (dim t = 4%nat)) as [->|Hn4]; [discriminate|].
           destruct (dim t - 1 - 2)%nat eqn:E; [lia|].
           simpl. intros F. apply (f_equal (@length Z)) in F.
           rewrite length_app in F. simpl in F. lia.
        -- apply Forall_rev. apply py_range_axes.
Qed.

End RollExtras.

Lemma shifts_permute_entries_witness :
  let t := mkTensor [1; 3; 1; 2]%nat [0; 1; 2; 3; 4; 5]%nat in
  (exists t', fft_shift t (Some [1; -1]%Z) = Ok t'
              /\ shape t' = shape t /\ data t' ≡ₚ data t)
  /\ (exists t', ifft_shift t (Some [1; -1]%Z) = Ok t'
               /\ shape t' = shape t /\ data t' ≡ₚ data t).
Proof.
  intros t.
  pose proof (shifts_permute_entries t (Some [1; -1]%Z) eq_refl) as Hs.
  cbv beta zeta iota in Hs.
  destruct (decide (Forall (valid_axis (dim t)) [1; -1]%Z)) as [Hv|F] eqn:E.
  - exact Hs.
  - exfalso. apply F.
    constructor; [unfold valid_axis, dim, t; simpl; lia|].
    constructor; [unfold valid_axis, dim, t; simpl; lia|]. constructor.
Defined.

(** A batch of rank 3, an image without the axis of the real and imaginary
    parts, is not shifted at all with the default axes. *)
Lemma shifts_rank3_sample :
  let t := mkTensor [1; 2; 2]%nat [0; 1; 2; 3]%nat in
  fft_shift t None = Raise RuntimeError /\ ifft_shift t None = Raise RuntimeError.
Proof. split; reflexivity. Qed.

Lemma fft_ifft_shift_even_extents_witness :
  let t := mkTensor [1; 2; 4; 1]%nat (seq 0 8) in
  (s ← fft_shift t None; ifft_shift s None) = Ok t
  /\ (s ← ifft_shift t None; fft_shift s None) = Ok t.
Proof.
  intros t. apply (fft_ifft_shift_even_extents t 1 2 4 1).
  - reflexivity.
  - reflexivity.
  - exists 1%nat. reflexivity.
  - exists 2%nat. reflexivity.
Defined.

(** ** Frequencies *)

(** X25. [fftfreq] raises [ZeroDivisionError] on a window of length 0 or a
    spacing of 0. Otherwise it returns [window_length] frequencies, the
    first of which is 0, and which are antisymmetric: the frequency at
    [window_length - k] is the opposite of the one at [k], except at the
    middle index of a window of even length. *)
Theorem fftfreq_spec (window_length : nat) (sample_spacing : R) :
  (window_length = 0%nat \/ sample_spacing = 0 ->
     fftfreq window_length sample_spacing = Raise ZeroDivisionError)
  /\ (window_length <> 0%nat -> sample_spacing <> 0 ->
        exists v,
          fftfreq window_length sample_spacing = Ok v
          /\ length v = window_length
          /\ vget v 0 = 0
          /\ forall k, (0 < k < window_length)%nat -> (2 * k <> window_length)%nat ->
               vget v (window_length - k) = - vget v k).
Proof.
  unfold fftfreq, py_div. split.
  - intros Hz.
    destruct (decide (INR window_length * sample_spacing = 0)) as [_|F];
      [reflexivity|].
    exfalso. apply F. destruct Hz as [-> | ->]; simpl; ring.
  - intros Hn Hs.
    assert (HL : INR window_length <> 0) by (apply not_0_INR; exact Hn).
    destruct (decide (INR window_length * sample_spacing = 0)) as [E|_].
    { exfalso. apply Rmult_integral in E. tauto. }
    rewrite bind_Ok. eexists. split; [reflexivity|].
    set (n := ((window_length - 1) / 2 + 1)%nat).
    set (f := fun k : nat =>
                (if decide (k < n)%nat then INR k
                 else IZR (Z.of_nat k - Z.of_nat window_length))
                * (1 / (INR window_length * sample_spacing))).
    assert (Hget : forall k, (k < window_length)%nat ->
              vget (map f (seq 0 window_length)) k = f k).
    { intros k Hk. unfold vget.
      rewrite (nth_indep _ 0 (f 0%nat)) by (rewrite length_map, length_seq; exact Hk).
      rewrite map_nth, seq_nth by exact Hk. reflexivity. }
    assert (Hn2 : (2 * n = window_length + 1 \/ 2 * n = window_length)%nat).
    { unfold n. pose proof (Nat.div_mod_eq (window_length - 1) 2) as Hdm.
      pose proof (Nat.mod_upper_bound (window_length - 1) 2). lia. }
    split; [rewrite length_map, length_seq; reflexivity|]. split.
    + rewrite Hget by lia. unfold f.
      destruct (decide (0 < n)%nat) as [_|F]; [simpl; ring|unfold n in F; lia].
    + intros k Hk Hmid. rewrite !Hget by lia. unfold f.
      destruct (decide (window_length - k < n)%nat) as [H1|H1];
        destruct (decide (k < n)%nat) as [H2|H2]; try (exfalso; lia).
      * rewrite minus_IZR, <- !INR_IZR_INZ.
        rewrite minus_INR by lia. ring.
      * rewrite minus_IZR, <- !INR_IZR_INZ. rewrite minus_INR by lia. ring.
Qed.

(** ** Errors of add_fourier_noise *)

Lemma set_frequency_outcome (noise : Tensor R) (h w : nat) (i j : Z) :
  (exists t, set_frequency noise h w i j = Ok t
             /\ (- Z.of_nat h <= i < Z.of_nat h)%Z
             /\ (- Z.of_nat w <= j < Z.of_nat w)%Z)
  \/ (set_frequency noise h w i j = Raise IndexError
      /\ ~ ((- Z.of_nat h <= i < Z.of_nat h)%Z
            /\ (- Z.of_nat w <= j < Z.of_nat w)%Z)).
Proof.
  unfold set_frequency, wrap_index.
  destruct (decide (0 <= i < Z.of_nat h)%Z);
    [|destruct (decide (- Z.of_nat h <= i < 0)%Z); [|right; split; [reflexivity|lia]]];
    (destruct (decide (0 <= j < Z.of_nat w)%Z);
      [|destruct (decide (- Z.of_nat w <= j < 0)%Z); [|right; split; [reflexivity|lia]]]);
    left; eexists; (split; [reflexivity|lia]).
Qed.

Section FourierErrors.
Context `{FourierPrimitives}.

(** X26. [add_fourier_noise] raises [ValueError] when no [size] is given
    and [images] is not of rank 4. It raises [IndexError] unless
    [0 <= idx[0] < h] and [0 <= idx[1] < w]: a negative index, which the
    first assignment [noise[:, idx[0], idx[1]] = 1] would accept, sends the
    mirrored index [h - 1 - idx[0]] (or [w - 1 - idx[1]]) out of range. *)
Theorem add_fourier_noise_errors (idx : Z * Z) (images : positive) (norm : R)
    (size_ : option (nat * nat)) (st : gmap positive (Tensor R))
    (original : Tensor R) :
  st !! images = Some original ->
  (size_ = None -> dim original <> 4%nat ->
     (add_fourier_noise idx images norm size_ st).2 = Raise ValueError)
  /\ (forall h w,
        match size_ with
        | None => exists b c, shape original = [b; c; h; w]
        | Some hw => hw = (h, w)
        end ->
        ~ ((0 <= idx.1 < Z.of_nat h)%Z /\ (0 <= idx.2 < Z.of_nat w)%Z) ->
        (add_fourier_noise idx images norm size_ st).2 = Raise IndexError).
Proof.
  intros Hi. unfold add_fourier_noise. rewrite Hi.
  destruct (alloc st original) as [l st1]. split.
  - intros -> Hd. unfold dim in Hd.
    destruct (shape original) as [|? [|? [|? [|? [|? ?]]]]]; simpl in Hd;
      try reflexivity. lia.
  - intros h w Hhw Hout.
    assert (Esz : match size_ with
                  | None => match shape original with
                            | [_; _; h0; w0] => Ok (h0, w0)
                            | _ => Raise ValueError
                            end
                  | Some hw => Ok hw
                  end = Ok (h, w)).
    { destruct size_ as [hw|]; [subst hw; reflexivity|].
      destruct Hhw as (b & c & ->). reflexivity. }
    rewrite Esz, bind_Ok.
    set (noise := mkTensor [1%nat; h; w; 2%nat] (replicate (h * w * 2) 0)).
    destruct (set_frequency_outcome noise h w idx.1 idx.2)
      as [(t1 & E1 & Hi1 & Hj1)|[E1 _]]; rewrite E1; [|reflexivity].
    rewrite bind_Ok.
    destruct (set_frequency_outcome t1 h w (Z.of_nat h - 1 - idx.1)
                (Z.of_nat w - 1 - idx.2))
      as [(t2 & E2 & Hi2 & Hj2)|[E2 _]]; rewrite E2; [|reflexivity].
    exfalso. apply Hout. lia.
Qed.

End FourierErrors.

Lemma add_fourier_noise_errors_witness :
  (add_fourier_noise (H := single_pixel_primitives) (-1, 0)%Z 1%positive (1 / 4) None
     {[1%positive := sample_image]}).2 = Raise IndexError.
Proof.
  destruct (add_fourier_noise_errors (H := single_pixel_primitives)
              (-1, 0)%Z 1%positive (1 / 4) None
              {[1%positive := sample_image]} sample_image) as [_ Hidx].
  - apply lookup_singleton_eq.
  - apply (Hidx 1%nat 1%nat).
    + exists 1%nat, 1%nat. reflexivity.
    + simpl. lia.
Defined.

(** ** The sensitivity map *)








Lemma in_store_keeps {A B} (r : result A) (st : gmap positive (Tensor R))
    (k : A -> gmap positive (Tensor R) * result B) (l : positive) (t : Tensor R) :
  st !! l = Some t -> (forall a, (k a).1 !! l = Some t) ->
  (in_store r st k).1 !! l = Some t.
Proof.
  intros Hl Hk. unfold in_store. destruct r as [a|a|e].
  - apply Hk.
  - specialize (Hk a). destruct (k a) as [st' b]. exact Hk.
  - exact Hl.
Qed.

Section FourierMapProperties.
Context `{FourierPrimitives} `{EvaluationPrimitives}.



End FourierMapProperties.


(** A run that returns: the map of the one-pixel batch holds the loss of the
    perturbed pixel. *)
Lemma fourier_map_sample :
  (fourier_map (H := single_pixel_primitives) (H0 := sum_evaluation)
     1%positive (1 / 4) None None {[1%positive := sample_image]}).2
  = Ok (mkMatrix 1 1 [3 / 4]).
Proof.
  unfold fourier_map. rewrite lookup_singleton_eq.
  cbn [shape sample_image in_store triu_indices seq flat_map map app Nat.sub].
  cbn [fourier_map_loop fst snd].
  destruct add_fourier_noise_sample as (l' & E2 & El & _).
  destruct (add_fourier_noise _ _ _ _ _) as [st1 r]. simpl in E2, El.
  subst r. cbn [in_store _evaluate sum_evaluation]. rewrite El.
  cbn [in_store data].
  unfold mset, zeros, wrap_index. simpl.
  unfold vsum, vget. simpl. repeat f_equal. lra.
Qed.

Section FourierMapFrame.
Context `{FourierPrimitives} `{EvaluationPrimitives}.

Lemma add_fourier_noise_keeps (idx : Z * Z) (images : positive) (norm : R)
    (size_ : option (nat * nat)) (st : gmap positive (Tensor R))
    (l : positive) (t : Tensor R) :
  st !! l = Some t ->
  (add_fourier_noise idx images norm size_ st).1 !! l = Some t.
Proof.
  intros Hl. unfold add_fourier_noise.
  destruct (st !! images) as [original|] eqn:Hi; [|exact Hl].
  destruct (alloc_fresh st original) as [Hfresh Hst].
  destruct (alloc st original) as [l0 st1] eqn:Ha. simpl in Hfresh, Hst. subst st1.
  assert (Hne : l0 <> l) by congruence.
  match goal with |- context [match ?b with Ok _ => _ | _ => _ end] =>
    destruct b as [t0|t0|e] end; simpl;
    rewrite ?lookup_insert_ne by exact Hne; exact Hl.
Qed.

Lemma fourier_map_loop_keeps (us : list (nat * nat)) (input : positive) (norm : R)
    (fourier_map_size : option (nat * nat)) (normalization : option (Vector * Vector))
    (h w : nat) (map : Matrix) (st : gmap positive (Tensor R))
    (l : positive) (t : Tensor R) :
  (forall r m s, keeps_tensors (_normalize r m s)) ->
  (forall r, keeps_tensors (_evaluate r)) ->
  st !! l = Some t ->
  (fourier_map_loop us input norm fourier_map_size normalization h w map st).1 !! l
  = Some t.
Proof.
  intros Hnorm Heval. revert map st.
  induction us as [|[i j] us IH]; intros map st Hl; [exact Hl|].
  cbn [fourier_map_loop fst snd].
  pose proof (add_fourier_noise_keeps (Z.of_nat i, Z.of_nat j) input norm
                fourier_map_size st l t Hl) as Hk.
  destruct (add_fourier_noise _ input norm fourier_map_size st) as [st1 noisy].
  simpl in Hk. apply in_store_keeps; [exact Hk|]. intros a.
  assert (Hk2 : (match normalization with
                 | Some (_mean, _std) => _normalize a _mean _std st1
                 | None => (st1, Ok a)
                 end).1 !! l = Some t).
  { destruct normalization as [[_mean _std]|]; [|exact Hk].
    apply Hnorm. exact Hk. }
  destruct (match normalization with
            | Some (_mean, _std) => _normalize a _mean _std st1
            | None => (st1, Ok a)
            end) as [st2 normalized].
  simpl in Hk2. apply in_store_keeps; [exact Hk2|]. intros a'.
  pose proof (Heval a' st2 l t Hk2) as Hk3.
  destruct (_evaluate a' st2) as [st3 loss]. simpl in Hk3.
  apply in_store_keeps; [exact Hk3|]. intros v.
  apply in_store_keeps; [exact Hk3|]. intros m2. apply IH. exact Hk3.
Qed.

(** X28. When [_denormalize], [_normalize] and [_evaluate] change no tensor
    that exists when they are called, [fourier_map] changes no tensor of
    its caller, the input batch among them, whether it returns or raises:
    every perturbation is applied to a copy that [add_fourier_noise]
    makes. *)
Theorem fourier_map_frame (input : positive) (norm : R)
    (fourier_map_size : option (nat * nat)) (normalization : option (Vector * Vector))
    (st : gmap positive (Tensor R)) (l : positive) (t : Tensor R) :
  (forall r m s, keeps_tensors (_denormalize r m s)) ->
  (forall r m s, keeps_tensors (_normalize r m s)) ->
  (forall r, keeps_tensors (_evaluate r)) ->
  st !! l = Some t ->
  (fourier_map input norm fourier_map_size normalization st).1 !! l = Some t.
Proof.
  intros Hden Hnorm Heval Hl. unfold fourier_map.
  destruct (st !! input) as [ti|]; [|exact Hl].
  apply in_store_keeps; [exact Hl|]. intros [h w].
  assert (Hk : (match normalization with
                | Some (_mean, _std) => _denormalize input _mean _std st
                | None => (st, Ok input)
                end).1 !! l = Some t).
  { destruct normalization as [[_mean _std]|]; [|exact Hl]. apply Hden. exact Hl. }
  destruct (match normalization with
            | Some (_mean, _std) => _denormalize input _mean _std st
            | None => (st, Ok input)
            end) as [st1 denormalized].
  simpl in Hk. apply in_store_keeps; [exact Hk|]. intros inp.
  apply fourier_map_loop_keeps; assumption.
Qed.

End FourierMapFrame.

Lemma fourier_map_frame_witness :
  (fourier_map (H := single_pixel_primitives) (H0 := sum_evaluation)
     1%positive (1 / 4) None (Some ([0], [1])) {[1%positive := sample_image]}).1
    !! 1%positive
  = Some sample_image.
Proof.
  apply (fourier_map_frame (H := single_pixel_primitives) (H0 := sum_evaluation)).
  - intros r m s st l t Hl. exact Hl.
  - intros r m s st l t Hl. exact Hl.
  - intros r st l t Hl. exact Hl.
  - apply lookup_singleton_eq.
Defined.

(** The condition on [_denormalize] is needed: [fourier_map] hands it the
    input batch of the caller, not a copy, and a [_denormalize] that works
    in place changes it. *)
Lemma fourier_map_inplace_denormalize :
  (fourier_map (H := single_pixel_primitives) (H0 := inplace_evaluation)
     1%positive (1 / 4) None (Some ([0], [1])) {[1%positive := sample_image]}).1
    !! 1%positive
  = Some (mkTensor [1; 1; 1; 1]%nat [0]).
Proof.
  unfold fourier_map. rewrite lookup_singleton_eq.
  cbn [shape sample_image in_store _denormalize inplace_evaluation].
  rewrite lookup_singleton_eq. cbn [in_store].
  apply (fourier_map_loop_keeps (H := single_pixel_primitives)
           (H0 := inplace_evaluation)).
  - intros r m s st l t Hl. exact Hl.
  - intros r st l t Hl. exact Hl.
  - simpl. apply lookup_insert_eq.
Qed.

(** ** Symmetry of the orthogonal Procrustes distance *)

(** Two decompositions of one matrix have the same sum of singular values:
    the sum of one is the inner product of the matrix with the product of
    its factors, which the other bounds. *)
Lemma svd_sum_le (d1 d2 k : nat) (M U V U' V' : nat -> nat -> R) (s s' : nat -> R) :
  (forall p q, (p < k)%nat -> (q < k)%nat ->
     sum_n d1 (fun a => U a p * U a q) = if decide (p = q) then 1 else 0) ->
  (forall p q, (p < k)%nat -> (q < k)%nat ->
     sum_n d2 (fun b => V b p * V b q) = if decide (p = q) then 1 else 0) ->
  (forall a b, (a < d1)%nat -> (b < d2)%nat ->
     M a b = sum_n k (fun p => U a p * s p * V b p)) ->
  (forall p q, (p < k)%nat -> (q < k)%nat ->
     sum_n d1 (fun a => U' a p * U' a q) = if decide (p = q) then 1 else 0) ->
  (forall p q, (p < k)%nat -> (q < k)%nat ->
     sum_n d2 (fun b => V' b p * V' b q) = if decide (p = q) then 1 else 0) ->
  (forall p, (p < k)%nat -> 0 <= s' p) ->
  (forall a b, (a < d1)%nat -> (b < d2)%nat ->
     M a b = sum_n k (fun p => U' a p * s' p * V' b p)) ->
  sum_n k s <= sum_n k s'.
Proof.
  intros HU HV HM HU' HV' Hs' HM'.
  set (G := fun a b => sum_n k (fun q => U a q * V b q)).
  assert (HA : sum_n k s = sum_n d1 (fun a => sum_n d2 (fun b => M a b * G a b))).
  { transitivity (sum_n k (fun p => sum_n d1 (fun a => sum_n d2 (fun b =>
                    U a p * M a b * V b p)))).
    { apply sum_n_ext. intros p Hp. symmetry.
      apply (singular_value_formula d1 d2 k M U V s HU HV HM p Hp). }
    rewrite sum_n_swap. apply sum_n_ext. intros a _.
    rewrite sum_n_swap. apply sum_n_ext. intros b _.
    unfold G. rewrite <- sum_n_scal_l. apply sum_n_ext. intros. ring. }
  rewrite HA.
  apply (singular_values_lower d1 d2 k M U' V' s' Hs' HM' G).
  intros p Hp.
  transitivity (sum_n k (fun q => sum_n d1 (fun a => U' a p * U a q)
                                  * sum_n d2 (fun b => V' b p * V b q))).
  { right.
    transitivity (sum_n d1 (fun a => sum_n k (fun q =>
                    U' a p * U a q * sum_n d2 (fun b => V' b p * V b q)))).
    { apply sum_n_ext. intros a _. unfold G.
      transitivity (sum_n d2 (fun b => sum_n k (fun q =>
                      (U' a p * U a q) * (V' b p * V b q)))).
      { apply sum_n_ext. intros b _.
        rewrite <- sum_n_scal_l, <- sum_n_scal_r. apply sum_n_ext. intros. ring. }
      rewrite sum_n_swap. apply sum_n_ext. intros q _.
      rewrite sum_n_scal_l. reflexivity. }
    rewrite sum_n_swap. apply sum_n_ext. intros q _.
    rewrite sum_n_scal_r. reflexivity. }
  pose proof (inner_le_mean k (fun q => sum_n d1 (fun a => U' a p * U a q))
                (fun q => sum_n d2 (fun b => V' b p * V b q))) as Hm.
  cbv beta in Hm.
  pose proof (bessel d1 k U (fun a => U' a p) HU) as HB1.
  pose proof (bessel d2 k V (fun b => V' b p) HV) as HB2.
  cbv beta in HB1, HB2.
  rewrite (HU' p p Hp Hp) in HB1. rewrite (HV' p p Hp Hp) in HB2.
  destruct (decide (p = p)); [lra|contradiction].
Qed.

Lemma nuclear_norm_unique (m u : Matrix) (s : Vector) (v u' : Matrix)
    (s' : Vector) (v' : Matrix) :
  is_svd m u s v -> is_svd m u' s' v' -> vsum s = vsum s'.
Proof.
  intros S S'.
  destruct (is_svd_sums m u s v S) as (HU & HV & Hs & HM & ->).
  destruct (is_svd_sums m u' s' v' S') as (HU' & HV' & Hs' & HM' & ->).
  apply Rle_antisym.
  - apply (svd_sum_le (nrows m) (ncols m) _ (mget m) (mget u) (mget v)
             (mget u') (mget v') (vget s) (vget s')); assumption.
  - apply (svd_sum_le (nrows m) (ncols m) _ (mget m) (mget u') (mget v')
             (mget u) (mget v) (vget s') (vget s)); assumption.
Qed.

(** A decomposition of a matrix, read as one of its transpose. *)
Lemma is_svd_transposed (m m' u : Matrix) (s : Vector) (v : Matrix) :
  nrows m = ncols m' -> ncols m = nrows m' ->
  (forall a b, (a < nrows m)%nat -> (b < ncols m)%nat -> mget m a b = mget m' b a) ->
  is_svd m' u s v -> is_svd m v s u.
Proof.
  intros Hr Hc Hm (Hru & Hcu & Hls & Hrv & Hcv & Hou & Hov & Hs & Hdec & Hm').
  unfold is_svd. rewrite Hr, Hc, Nat.min_comm.
  repeat split; try assumption.
  intros a b Ha Hb. rewrite Hm by congruence. rewrite Hm' by congruence.
  rewrite Nat.min_comm. apply sum_n_ext. intros. ring.
Qed.

Section ProcrustesSymmetry.
Context `{LinearAlgebraPrimitives}.

(** X29. With a nuclear norm that is the sum of the singular values of the
    matrix it is given, the orthogonal Procrustes distance does not depend
    on the order of its arguments, for [x] and [y] with equal row counts
    that are not zero after centering. *)
Theorem opd_symmetric (x y : Matrix) :
  nonzero_centered x -> nonzero_centered y -> nrows x = nrows y ->
  nuclear_norm_correct_at (normalized_cross x y) ->
  nuclear_norm_correct_at (normalized_cross y x) ->
  orthogonal_procrustes_distance x y = orthogonal_procrustes_distance y x.
Proof.
  intros Hx Hy Hr Hxy Hyx.
  pose proof (nonzero_centered_norm x Hx) as Hpx.
  pose proof (nonzero_centered_norm y Hy) as Hpy.
  destruct (opd_unfold x y Hpx Hpy Hr) as (m & Em & Hrm & Hcm & Hm & E).
  destruct (opd_unfold y x Hpy Hpx (eq_sym Hr)) as (m' & Em' & Hrm' & Hcm' & Hm' & E').
  destruct (Hxy m Em) as (r & Er & (u & s & v & S & ->)).
  destruct (Hyx m' Em') as (r' & Er' & (u' & s' & v' & S' & ->)).
  rewrite (opd_value x y m _ E Er), (opd_value y x m' _ E' Er').
  f_equal. f_equal.
  apply (nuclear_norm_unique m u s v v' s' u' S).
  apply (is_svd_transposed m m' u' s' v'); [congruence|congruence| |exact S'].
  intros a b Ha Hb. rewrite Hm, Hm' by congruence.
  rewrite Hr. apply sum_n_ext. intros. ring.
Qed.

End ProcrustesSymmetry.

Lemma sample_nuclear_norm_yx :
  nuclear_norm_correct_at (H := monomial_primitives)
    (normalized_cross sample_y sample_x).
Proof.
  intros m Em.
  destruct (cross_entries sample_y sample_x m sample_y_unit sample_x_unit eq_refl Em)
    as (Hrm & Hcm & Hm).
  assert (H00 : mget m 0 0 = 1 / 2) by cross_entry Hm sample_y sample_x.
  assert (H01 : mget m 0 1 = 0) by cross_entry Hm sample_y sample_x.
  assert (H10 : mget m 1 0 = 0) by cross_entry Hm sample_y sample_x.
  assert (H11 : mget m 1 1 = 0) by cross_entry Hm sample_y sample_x.
  eexists. split; [reflexivity|].
  exists (eye 2), [1 / 2; 0], (eye 2). split.
  - apply svd_2x2; try assumption; try reflexivity;
      try (unfold eye, mk_mat, mget; simpl; lra).
    intros a b Ha Hb. two_cases a Ha; two_cases b Hb;
      rewrite ?H00, ?H01, ?H10, ?H11; unfold eye, mk_mat, mget; simpl; lra.
  - rewrite H00, H01, H10, H11. unfold vsum, vget. simpl. lra.
Qed.

Lemma sample_nonzero_centered :
  nonzero_centered sample_x /\ nonzero_centered sample_y.
Proof.
  split; exists 0%nat, 0%nat; (split; [simpl; lia|]); (split; [simpl; lia|]);
    unfold centered, mget; simpl; lra.
Qed.

Lemma opd_symmetric_witness :
  orthogonal_procrustes_distance (H := monomial_primitives) sample_x sample_y
  = orthogonal_procrustes_distance (H := monomial_primitives) sample_y sample_x.
Proof.
  apply (opd_symmetric (H := monomial_primitives) sample_x sample_y).
  - exact (proj1 sample_nonzero_centered).
  - exact (proj2 sample_nonzero_centered).
  - reflexivity.
  - exact sample_nuclear_norm_xy.
  - exact sample_nuclear_norm_yx.
Defined.

(** ** The range of PWCCA *)

(** The singular values of a cross product [u1^T u2] of two matrices with
    orthonormal columns are at most 1. *)
Lemma cross_singular_values_le_1 (n : nat) (u1 u2 uu u : Matrix) (d : Vector)
    (v : Matrix) :
  nrows u1 = n -> nrows u2 = n ->
  orthonormal_columns u1 -> orthonormal_columns u2 ->
  nrows uu = ncols u1 -> ncols uu = ncols u2 ->
  (forall a b, (a < ncols u1)%nat -> (b < ncols u2)%nat ->
     mget uu a b = sum_n n (fun i => mget u1 i a * mget u2 i b)) ->
  is_svd uu u d v ->
  forall p, (p < Nat.min (ncols u1) (ncols u2))%nat -> 0 <= vget d p <= 1.
Proof.
  intros Hn1 Hn2 Ho1 Ho2 Hr Hc Huu Hsvd p Hp.
  destruct (is_svd_sums uu u d v Hsvd) as (HU & HV & Hs & HM & _).
  rewrite Hr, Hc in *. set (k := Nat.min (ncols u1) (ncols u2)) in *.
  split; [apply Hs, Hp|].
  rewrite <- (singular_value_formula (ncols u1) (ncols u2) k (mget uu) (mget u)
                (mget v) (vget d) HU HV HM p Hp).
  set (P := fun i => sum_n (ncols u1) (fun a => mget u a p * mget u1 i a)).
  set (Q := fun i => sum_n (ncols u2) (fun b => mget v b p * mget u2 i b)).
  assert (E : sum_n (ncols u1) (fun a => sum_n (ncols u2) (fun b =>
                mget u a p * mget uu a b * mget v b p))
              = sum_n n (fun i => P i * Q i)).
  { transitivity (sum_n (ncols u1) (fun a => sum_n n (fun i =>
                    (mget u a p * mget u1 i a) * Q i))).
    { apply sum_n_ext. intros a Ha.
      transitivity (sum_n (ncols u2) (fun b => sum_n n (fun i =>
                      (mget u a p * mget u1 i a) * (mget v b p * mget u2 i b)))).
      { apply sum_n_ext. intros b Hb. rewrite Huu by assumption.
        rewrite <- sum_n_scal_l, <- sum_n_scal_r. apply sum_n_ext. intros. ring. }
      rewrite sum_n_swap. apply sum_n_ext. intros i _. unfold Q.
      rewrite sum_n_scal_l. reflexivity. }
    rewrite sum_n_swap. apply sum_n_ext. intros i _. unfold P.
    rewrite sum_n_scal_r. reflexivity. }
  rewrite E.
  pose proof (inner_le_mean n P Q) as Hm.
  assert (HP : sum_n n (fun i => P i * P i) = 1).
  { unfold P. unfold orthonormal_columns in Ho1. rewrite Hn1 in Ho1.
    rewrite (norm_combination n (ncols u1) (fun i a => mget u1 i a)
               (fun a => mget u a p) Ho1).
    rewrite (HU p p Hp Hp). destruct (decide (p = p)); [reflexivity|contradiction]. }
  assert (HQ : sum_n n (fun i => Q i * Q i) = 1).
  { unfold Q. unfold orthonormal_columns in Ho2. rewrite Hn2 in Ho2.
    rewrite (norm_combination n (ncols u2) (fun i b => mget u2 i b)
               (fun b => mget v b p) Ho2).
    rewrite (HV p p Hp Hp). destruct (decide (p = p)); [reflexivity|contradiction]. }
  lra.
Qed.

(** The weighted mean that PWCCA takes of canonical correlations in [0, 1]
    is in [0, 1]. *)
Lemma pwcca_tail_range (x am : Matrix) (d : Vector) :
  ncols x = nrows am -> length d = ncols am ->
  (forall p, (p < ncols am)%nat -> 0 <= vget d p <= 1) ->
  match (xa ← matmul x am;
         let alpha := mk_vec (ncols xa)
                        (fun j => sum_n (nrows xa) (fun i => Rabs (mget xa i j))) in
         alpha ← vdiv alpha (vsum alpha);
         dd ← dot alpha d;
         Ok (1 - dd)) with
  | Ok r => 0 <= r <= 1
  | NonFinite _ => True
  | Raise _ => False
  end.
Proof.
  intros Hx Hd Hone.
  rewrite matmul_Ok by exact Hx. rewrite bind_Ok. cbv zeta.
  set (xa := mk_mat (nrows x) (ncols am) _).
  cbn [ncols nrows mk_mat xa].
  set (w := fun j => sum_n (nrows x) (fun i => Rabs (mget xa i j))).
  set (alpha := mk_vec (ncols am) w).
  assert (Hla : length alpha = ncols am) by apply length_mk_vec.
  assert (Hw : forall j, 0 <= w j).
  { intros j. apply sum_n_nonneg. intros. apply Rabs_pos. }
  assert (Hga : forall j, (j < ncols am)%nat -> vget alpha j = w j).
  { intros j Hj. apply vget_mk_vec. exact Hj. }
  assert (Hsum : vsum alpha = sum_n (ncols am) w) by apply vsum_mk_vec.
  destruct (Req_dec (vsum alpha) 0) as [Hz|Hnz].
  - unfold vdiv. destruct alpha as [|a0 al] eqn:Ea.
    + simpl. rewrite dot_Ok by (simpl in *; congruence). simpl. lra.
    + rewrite <- Ea in *. destruct (decide (vsum alpha = 0)) as [_|F]; [|contradiction].
      simpl. rewrite dot_Ok by (rewrite length_map; congruence). exact I.
  - rewrite vdiv_Ok by exact Hnz. rewrite bind_Ok.
    rewrite dot_Ok by (rewrite length_map; congruence). rewrite bind_Ok.
    rewrite length_map, Hla.
    assert (Hpos : 0 < vsum alpha).
    { rewrite Hsum in *.
      assert (0 <= sum_n (ncols am) w) by (apply sum_n_nonneg; intros; apply Hw).
      lra. }
    set (tot := vsum alpha) in *.
    assert (E : sum_n (ncols am) (fun k =>
                  vget (map (fun a => a / tot) alpha) k * vget d k)
                = / tot * sum_n (ncols am) (fun j => w j * vget d j)).
    { rewrite <- sum_n_scal_l. apply sum_n_ext. intros j Hj.
      rewrite (vget_map alpha (fun a => a / tot) j) by (unfold Rdiv; apply Rmult_0_l).
      rewrite Hga by exact Hj. unfold Rdiv. ring. }
    rewrite E.
    assert (H0 : 0 <= sum_n (ncols am) (fun j => w j * vget d j)).
    { apply sum_n_nonneg. intros j Hj. apply Rmult_le_pos; [apply Hw|apply Hone, Hj]. }
    assert (H1 : sum_n (ncols am) (fun j => w j * vget d j) <= tot).
    { rewrite Hsum. apply sum_n_le. intros j Hj.
      specialize (Hone j Hj). specialize (Hw j). nra. }
    assert (Hi : 0 < / tot) by (apply Rinv_0_lt_compat; exact Hpos).
    assert (0 <= / tot * sum_n (ncols am) (fun j => w j * vget d j)).
    { apply Rmult_le_pos; lra. }
    assert (/ tot * sum_n (ncols am) (fun j => w j * vget d j) <= 1).
    { replace 1 with (/ tot * tot) by (field; lra).
      apply Rmult_le_compat_l; lra. }
    lra.
Qed.

Section PwccaRange.
Context `{LinearAlgebraPrimitives}.

(** X30. With an [_svd] that returns singular value decompositions of the
    matrices CCA hands to it, the PWCCA distance of two matrices with equal
    row counts never raises, and when it is a finite number it is between 0
    and 1: the canonical correlations are in [0, 1] and the weights are not
    negative and sum to 1. *)
Theorem pwcca_range (x y : Matrix) :
  nrows x = nrows y ->
  svd_correct_for_cca x y ->
  match pwcca_distance x y "svd" with
  | Ok r => 0 <= r <= 1
  | NonFinite _ => True
  | Raise _ => False
  end.
Proof.
  intros Hr Hsvd.
  unfold pwcca_distance. rewrite cca_svd_unfold by exact Hr.
  destruct (Hsvd _ _ (_zero_mean_rows x) (_zero_mean_rows y))
    as (u1 & s1 & v1 & u2 & s2 & v2 & E1 & S1 & E2 & S2 & Huu).
  rewrite !_zero_mean_rows, !bind_Ok.
  set (xc := mk_mat (nrows x) (ncols x) _) in *.
  set (yc := mk_mat (nrows y) (ncols y) _) in *.
  destruct S1 as (Hru1 & Hcu1 & Hls1 & Hrv1 & Hcv1 & Hou1 & _).
  destruct S2 as (Hru2 & Hcu2 & Hls2 & Hrv2 & Hcv2 & Hou2 & _).
  cbn [nrows ncols mk_mat xc] in Hru1, Hcu1, Hls1, Hrv1, Hcv1.
  cbn [nrows ncols mk_mat yc] in Hru2, Hcu2, Hls2, Hrv2, Hcv2.
  unfold cca_by_svd. rewrite E1, E2, !bind_Ok. cbv beta iota.
  rewrite matmul_Ok by (simpl; congruence). rewrite bind_Ok.
  set (uu := mk_mat (nrows (transpose u1)) (ncols u2) _).
  destruct (Huu uu) as (u & d & v & E3 & S3);
    [apply matmul_Ok; simpl; congruence|].
  rewrite E3, bind_Ok. cbv beta iota.
  assert (Hruu : nrows uu = ncols u1) by reflexivity.
  assert (Hcuu : ncols uu = ncols u2) by reflexivity.
  assert (Hent : forall a b, (a < ncols u1)%nat -> (b < ncols u2)%nat ->
            mget uu a b = sum_n (nrows x) (fun i => mget u1 i a * mget u2 i b)).
  { intros a b Ha Hb. unfold uu. rewrite mget_mk_mat by (simpl; lia).
    simpl ncols. rewrite Hru1. apply sum_n_ext. intros i Hi.
    rewrite mget_transpose by lia. reflexivity. }
  pose proof (cross_singular_values_le_1 (nrows x) u1 u2 uu u d v
                Hru1 ltac:(congruence) Hou1 Hou2 Hruu Hcuu Hent S3) as Hone.
  destruct S3 as (Hru & Hcu & Hld & Hrv & Hcv & _).
  shapes_in Hruu Hcuu Hru; shapes_in Hruu Hcuu Hcu; shapes_in Hruu Hcuu Hld;
  shapes_in Hruu Hcuu Hrv; shapes_in Hruu Hcuu Hcv.
  set (inner := fun (vv : Matrix) (ss : Vector) (w : Matrix) =>
         r ← reciprocal ss; vs ← scale_cols vv r; matmul vs w).
  assert (Hinner : forall vv ss w, ncols vv = length ss -> ncols vv = nrows w ->
            exists m, (inner vv ss w = Ok m \/ inner vv ss w = NonFinite m)
                      /\ nrows m = nrows vv /\ ncols m = ncols w).
  { intros vv ss w Hl Hw. unfold inner.
    exists (mk_mat (nrows vv) (ncols w) (fun i j =>
              sum_n (ncols vv) (fun p =>
                mget (mk_mat (nrows vv) (ncols vv)
                        (fun i j => mget vv i j * vget (map Rinv ss) j)) i p
                * mget w p j))).
    split; [|split; reflexivity].
    destruct (reciprocal_outcome ss) as [-> | ->];
      [left|right]; simpl;
      rewrite scale_cols_Ok by (rewrite length_map; exact Hl);
      simpl; rewrite matmul_Ok by (simpl; exact Hw); reflexivity. }
  fold (inner v1 s1 u). fold (inner v2 s2 v).
  destruct (Hinner v1 s1 u ltac:(congruence) ltac:(congruence))
    as (am & Ha & Hram & Hcam).
  destruct (Hinner v2 s2 v ltac:(congruence) ltac:(congruence))
    as (bm & Hb & _ & _).
  pose proof (pwcca_tail_range x am d ltac:(congruence) ltac:(congruence)
                ltac:(intros p Hp; apply Hone; lia)) as Htail.
  destruct Ha as [-> | ->], Hb as [-> | ->]; unfold detach; rewrite !bind_Ok;
    cbv beta iota.
  - exact Htail.
  - exact Htail.
  - simpl. simpl in Htail.
    destruct (_ ← matmul x am; _) as [r|r|e]; [exact I|exact I|exact Htail].
  - simpl. simpl in Htail.
    destruct (_ ← matmul x am; _) as [r|r|e]; [exact I|exact I|exact Htail].
Qed.

End PwccaRange.

Lemma pwcca_range_witness :
  match pwcca_distance (H := asym_primitives) asym_x asym_y "svd" with
  | Ok r => 0 <= r <= 1
  | NonFinite _ => True
  | Raise _ => False
  end.
Proof.
  apply (pwcca_range (H := asym_primitives) asym_x asym_y).
  - reflexivity.
  - exact asym_svd_correct_xy.
Defined.
